(** * sfas: greedy minimum feedback arc set ordering

    A shallow embedding of [src/sfas/greedy.py] (function [compute_order] and
    its helpers) together with the properties of the ordering it computes.

    Conventions of the embedding.
    - Python [dict]s and [set]s are stdpp [gmap]s and [gset]s.  Every
      subscript [d[k]], [del d[k]], [s.remove(x)] is modelled as a fallible
      operation that raises [KeyError] exactly where Python does.
    - Weights are Python [int]s, modelled as [Z].  The program also accepts
      [float] weights; there [+], [-] and [sum] round, so that what is proved
      below about exact totals (the equality tested at line 237, the balance
      of the resolver, the bound on the feedback total) holds for [int]
      weights only.  The properties that rest on exact arithmetic say so.
    - [assert] statements are executed when the interpreter runs with
      [__debug__] set (the default) and skipped, together with the expression
      they test, under [python -O].
    - Everything the program takes from the interpreter rather than from its
      own text -- the pseudo random generator behind [random.seed] and
      [random.shuffle], the order in which the set of node ids is enumerated
      (for [str] ids it follows the hash seed of the interpreter process),
      and which member [set.pop] hands out -- is collected in the class
      [Runtime].
    - Diagnostic printing ([verbosity]) has no influence on the computation
      and is left out of [compute_order_run].  What evaluating the arguments
      of the reports can raise is modelled apart ([compute_order_verbose],
      [adjacency_lists_verbose], [percentage_str]). *)

From Stdlib Require Import SpecFloat.
From stdpp Require Import gmap strings list fin_maps fin_sets relations pretty.

(** * The program *)

(** ** Exceptions and the error monad *)

Inductive exn : Set :=
  | KeyError        (* missing dict key, missing set member *)
  | AssertionError  (* a failed [assert] *)
  | ValueError      (* [max] of an empty collection *)
  | FuelExhausted.  (* artefact of the model: the [while] loop ran out of fuel *)

Inductive result (A : Type) : Type :=
  | Ok (a : A)
  | Raise (e : exn).
Arguments Ok {A} a.
Arguments Raise {A} e.

Global Instance result_bind : MBind result := λ A B f c,
  match c with
  | Ok a => f a
  | Raise e => Raise e
  end.

(** [for x in l: acc = f(acc, x)] where the body may raise. *)
Fixpoint foldM {A B} (f : B → A → result B) (b : B) (l : list A) : result B :=
  match l with
  | [] => Ok b
  | x :: l' => b' ← f b x; foldM f b' l'
  end.

(** [d[k]] *)
Definition getitem `{Countable K} {V} (d : gmap K V) (k : K) : result V :=
  match d !! k with
  | Some v => Ok v
  | None => Raise KeyError
  end.

(** [del d[k]] *)
Definition delitem `{Countable K} {V} (d : gmap K V) (k : K) : result (gmap K V) :=
  match d !! k with
  | Some _ => Ok (delete k d)
  | None => Raise KeyError
  end.

(** A dict comprehension [{k: v for ...}]: later bindings win. *)
Definition dict_of_list `{Countable K} {V} (l : list (K * V)) : gmap K V :=
  foldl (λ m kv, <[kv.1 := kv.2]> m) ∅ l.

(** [sum(d.values())] *)
Definition sum_values `{Countable K} (d : gmap K Z) : Z :=
  map_fold (λ _ w acc, (w + acc)%Z) 0%Z d.

(** ** The interpreter services the program relies on *)

(** A policy for enumerating sets: the list of the members of a set, in
    the order a [for] loop meets them. *)
Definition enumeration : Type :=
  ∀ (A : Type) (EqA : EqDecision A) (CA : Countable A), gset A → list A.

Definition enumerates (e : enumeration) : Prop :=
  ∀ A EqA CA (s : gset A), e A EqA CA s ≡ₚ elements s.

Class Runtime := {
  (** [__debug__]: are [assert] statements executed? *)
  py_debug : bool;
  (** state of the global generator of module [random] *)
  rng : Type;
  (** [random.seed(s)] *)
  rng_seed : Z → rng;
  (** [random.shuffle(l)]: the shuffled list and the generator afterwards *)
  rng_shuffle : ∀ A : Type, rng → list A → list A * rng;
  rng_shuffle_perm : ∀ A g (l : list A), (rng_shuffle A g l).1 ≡ₚ l;
  (** the order in which the set [node_list] of node ids (line 7) is
      enumerated, which is the key order of the dictionaries built from it
      (lines 8-9) *)
  set_iter : enumeration;
  set_iter_perm : enumerates set_iter;
  (** the member [s.pop()] returns for a non-empty set of compacted ids *)
  set_pop : gset nat → nat;
  set_pop_elem : ∀ s : gset nat, s ≠ ∅ → set_pop s ∈ s;
}.

(** [random.seed(s)]: the global generator is initialised from [s] alone,
    whatever state [g] it was in. *)
Definition seed_generator `{Runtime} (s : Z) (g : rng) : rng := rng_seed s.

(** [assert c]: [c] is evaluated (and may itself raise) only under
    [__debug__]. *)
Definition py_assert `{Runtime} (c : result bool) : result unit :=
  if py_debug then
    b ← c; if (b : bool) then Ok tt else Raise AssertionError
  else Ok tt.

(** ** Bucket keys *)

Inductive bucket_key : Set :=
  | Sinks             (* the string 'sinks' *)
  | Sources           (* the string 'sources' *)
  | Delta (d : Z).    (* weight of outputs - weight of inputs *)

Global Instance bucket_key_eq_dec : EqDecision bucket_key.
Proof. solve_decision. Defined.

Global Instance bucket_key_countable : Countable bucket_key.
Proof.
  refine (inj_countable'
    (λ k, match k with
          | Sinks => inl true | Sources => inl false | Delta d => inr d
          end)
    (λ s, match s with
          | inl true => Sinks | inl false => Sources | inr d => Delta d
          end) _).
  by intros [].
Defined.

(** ** Graph builder *)

Section Builder.
Context `{Countable Node}.

(** An edge record [[<from node>, <to node>, <edge weight>]] with an [int]
    weight. *)
Definition row : Type := Node * Node * Z.
Definition r0 (r : row) : Node := r.1.1.
Definition r1 (r : row) : Node := r.1.2.
Definition r2 (r : row) : Z := r.2.

Definition nodes_from_connections_table (connections_table : list row)
  : gset Node :=
  list_to_set (r0 <$> connections_table) ∪ list_to_set (r1 <$> connections_table).

(** [lists[k].append(r)] *)
Definition append_row (k : Node) (lists : gmap Node (list row)) (r : row)
  : result (gmap Node (list row)) :=
  l ← getitem lists k; Ok (<[k := l ++ [r]]> lists).

Definition adjacency_lists (connections_table : list row)
  : result (gmap Node (list row) * gmap Node (list row)) :=
  let node_list := nodes_from_connections_table connections_table in
  let input_lists : gmap Node (list row) := gset_to_gmap [] node_list in
  let output_lists : gmap Node (list row) := gset_to_gmap [] node_list in
  foldM (λ '(input_lists, output_lists) r,
           input_lists ← append_row (r1 r) input_lists r;
           output_lists ← append_row (r0 r) output_lists r;
           Ok (input_lists, output_lists))
        (input_lists, output_lists) connections_table.

(** [nodes_compacted = {k: i for i, k in enumerate(node_ids)}] *)
Definition compact_ids (node_ids : list Node) : gmap Node nat :=
  dict_of_list (imap (λ i k, (k, i)) node_ids).

(** [compact_dict(rows, nidx)]; [nidx] is given as the projection. *)
Definition compact_dict (nodes_compacted : gmap Node nat)
    (rows : list row) (nidx : row → Node) : result (gmap nat Z) :=
  foldM (λ cd r,
           cn ← getitem nodes_compacted (nidx r);
           Ok (<[cn := (default 0 (cd !! cn) + r2 r)%Z]> cd))
        ∅ rows.

(** [{nodes_compacted[k]: compact_dict(v, nidx) for k, v in rows.items()}] *)
Definition compact_all (nodes_compacted : gmap Node nat)
    (rows : gmap Node (list row)) (nidx : row → Node)
  : result (gmap nat (gmap nat Z)) :=
  foldM (λ d '(k, v),
           ck ← getitem nodes_compacted k;
           cd ← compact_dict nodes_compacted v nidx;
           Ok (<[ck := cd]> d))
        ∅ (map_to_list rows).
End Builder.

Global Arguments r0 : simpl never.
Global Arguments r1 : simpl never.
Global Arguments r2 : simpl never.

(** ** Adjacency maps over compacted ids *)

Abbreviation adj := (gmap nat (gmap nat Z)).

(** The weight [d[a][b]], if that entry exists. *)
Definition edge_w (d : adj) (a b : nat) : option Z := d !! a ≫= (.!! b).

(** [d[a][b]] *)
Definition getitem2 (d : adj) (a b : nat) : result Z :=
  m ← getitem d a; getitem m b.

(** [del d[a][b]] *)
Definition delitem2 (d : adj) (a b : nat) : result adj :=
  m ← getitem d a; m' ← delitem m b; Ok (<[a := m']> d).

(** [d[a][b] -= w] *)
Definition subitem2 (d : adj) (a b : nat) (w : Z) : result adj :=
  m ← getitem d a; x ← getitem m b; Ok (<[a := <[b := (x - w)%Z]> m]> d).

(** All [(nd, ind, w)] met by
    [for nd, indict in d.items(): for ind, w in indict.items()]. *)
Definition adj_items (d : adj) : list (nat * nat * Z) :=
  '(nd, indict) ← map_to_list d; '(ind, w) ← map_to_list indict; [(nd, ind, w)].

Section Checks.
Context `{Runtime}.

(** The sanity checks after building the dictionaries (lines 70-75). *)
Definition check_built (input_dict output_dict : adj) : result unit :=
  _ ← foldM (λ _ '(nd, ind, w),
               py_assert (x ← getitem2 output_dict ind nd; Ok (bool_decide (x = w))))
            tt (adj_items input_dict);
  foldM (λ _ '(nd, ind, w),
           py_assert (x ← getitem2 input_dict ind nd; Ok (bool_decide (x = w))))
        tt (adj_items output_dict).

(** The sanity checks after removing anti-parallel edges (lines 112-119). *)
Definition check_resolved (input_dict output_dict : adj) : result unit :=
  _ ← foldM (λ _ '(nd, ind, w),
               _ ← py_assert (x ← getitem2 output_dict ind nd; Ok (bool_decide (x = w)));
               py_assert (m ← getitem input_dict ind; Ok (bool_decide (m !! nd = None))))
            tt (adj_items input_dict);
  foldM (λ _ '(nd, ind, w),
           _ ← py_assert (x ← getitem2 input_dict ind nd; Ok (bool_decide (x = w)));
           py_assert (m ← getitem output_dict ind; Ok (bool_decide (m !! nd = None))))
        tt (adj_items output_dict).
End Checks.

(** ** Anti-parallel resolver (lines 78-109) *)

Section Resolver.
Context `{Runtime}.

(** The list [anti_parallel_edges] (lines 84-89). *)
Definition find_anti_parallel (input_dict : adj) : result (list (nat * nat)) :=
  foldM (λ anti_parallel_edges '(nd, ind, w),
           if decide (nd < ind) then
             m ← getitem input_dict ind;
             if decide (is_Some (m !! nd))
             then Ok (anti_parallel_edges ++ [(ind, nd)])
             else Ok anti_parallel_edges
           else Ok anti_parallel_edges)
        [] (adj_items input_dict).

(** One round of the loop over [anti_parallel_edges] (lines 93-108); the
    state is [(input_dict, output_dict, feedback_val)]. *)
Definition resolve_pair (st : adj * adj * Z) (p : nat * nat)
  : result (adj * adj * Z) :=
  let '(input_dict, output_dict, feedback_val) := st in
  let '(n1, n2) := p in
  w12 ← getitem2 output_dict n1 n2;
  _ ← py_assert (x ← getitem2 input_dict n2 n1; Ok (bool_decide (w12 = x)));
  w21 ← getitem2 output_dict n2 n1;
  _ ← py_assert (x ← getitem2 input_dict n1 n2; Ok (bool_decide (w21 = x)));
  if decide (w12 > w21)%Z then
    output_dict ← delitem2 output_dict n2 n1;
    input_dict ← delitem2 input_dict n1 n2;
    output_dict ← subitem2 output_dict n1 n2 w21;
    input_dict ← subitem2 input_dict n2 n1 w21;
    Ok (input_dict, output_dict, (feedback_val + w21)%Z)
  else
    output_dict ← delitem2 output_dict n1 n2;
    input_dict ← delitem2 input_dict n2 n1;
    output_dict ← subitem2 output_dict n2 n1 w12;
    input_dict ← subitem2 input_dict n1 n2 w12;
    Ok (input_dict, output_dict, (feedback_val + w12)%Z).

Definition resolve_anti_parallel (input_dict output_dict : adj)
  : result (adj * adj * Z) :=
  anti_parallel_edges ← find_anti_parallel input_dict;
  foldM resolve_pair (input_dict, output_dict, 0%Z) anti_parallel_edges.
End Resolver.

(** ** Bucket index (lines 121-158) *)

Abbreviation bucket_map := (gmap bucket_key (gset nat)).

Definition compute_bucket_key_for_node (input_dict output_dict : adj) (n : nat)
  : bucket_key :=
  match output_dict !! n with
  | None => Sinks
  | Some outs =>
      if decide (outs = ∅) then Sinks
      else match input_dict !! n with
           | None => Sources
           | Some ins =>
               if decide (ins = ∅) then Sources
               else Delta (sum_values outs - sum_values ins)
           end
  end.

Definition insert_to_bucket (buckets : bucket_map) (node : nat) (key : bucket_key)
  : bucket_map :=
  match buckets !! key with
  | Some s => <[key := s ∪ {[node]}]> buckets
  | None => <[key := {[node]}]> buckets
  end.

(** [if not buckets[key]: del buckets[key]] once [buckets[key]] became [s] *)
Definition drop_if_empty (buckets : bucket_map) (key : bucket_key) (s : gset nat)
  : bucket_map :=
  if decide (s = ∅) then delete key buckets else <[key := s]> buckets.

Definition remove_from_bucket (buckets : bucket_map) (node : nat) (key : bucket_key)
  : result bucket_map :=
  s ← getitem buckets key;
  if decide (node ∈ s) then Ok (drop_if_empty buckets key (s ∖ {[node]}))
  else Raise KeyError.

Definition pop_from_bucket `{Runtime} (buckets : bucket_map) (key : bucket_key)
  : result (nat * bucket_map) :=
  s ← getitem buckets key;
  if decide (s = ∅) then Raise KeyError
  else let itm := set_pop s in
       Ok (itm, drop_if_empty buckets key (s ∖ {[itm]})).

(** [for n in range(num_nodes): insert_to_bucket(n, compute_bucket_key_for_node(n))] *)
Definition initial_buckets (input_dict output_dict : adj) (num_nodes : nat)
  : bucket_map :=
  foldl (λ buckets n,
           insert_to_bucket buckets n
             (compute_bucket_key_for_node input_dict output_dict n))
        ∅ (seq 0 num_nodes).

(** [for k, v in buckets.items(): for n in v: node_to_bucket_key[n] = k] *)
Definition index_buckets (buckets : bucket_map) : gmap nat bucket_key :=
  foldl (λ idx '(k, v), foldl (λ idx n, <[n := k]> idx) idx (elements v))
        ∅ (map_to_list buckets).

(** [buckets.get(key)] used as a condition *)
Definition bucket_nonempty (buckets : bucket_map) (key : bucket_key) : bool :=
  match buckets !! key with
  | Some s => bool_decide (s ≠ ∅)
  | None => false
  end.

(** The numeric keys, [buckets.keys() - {'sinks', 'sources'}]. *)
Definition numeric_keys (buckets : bucket_map) : list Z :=
  omap (λ k, match k with Delta d => Some d | _ => None end)
       (elements (dom buckets)).

(** [max(l)] *)
Definition py_max (l : list Z) : result Z :=
  match l with
  | [] => Raise ValueError
  | x :: l' => Ok (foldl Z.max x l')
  end.

(** ** Greedy sequencer (lines 164-224) *)

Record state : Type := mkState {
  input_dict : adj;
  output_dict : adj;
  buckets : bucket_map;
  node_to_bucket_key : gmap nat bucket_key;
  left_list : list nat;
  right_list : list nat;
  feedback_val : Z;
}.

(** The last loop of [update_removed_node] (lines 187-191) for one
    [ionode]. *)
Definition rebucket (input_dict output_dict : adj)
    (bk : bucket_map * gmap nat bucket_key) (ionode : nat)
  : result (bucket_map * gmap nat bucket_key) :=
  let '(buckets, node_to_bucket_key) := bk in
  key ← getitem node_to_bucket_key ionode;
  buckets ← remove_from_bucket buckets ionode key;
  let new_key := compute_bucket_key_for_node input_dict output_dict ionode in
  Ok (insert_to_bucket buckets ionode new_key,
      <[ionode := new_key]> node_to_bucket_key).

(** [update_removed_node(node)].  [in_nodes] and [out_nodes] are references
    to the dictionaries stored under [node]; what the last loop reads through
    them is their content when that loop starts. *)
Definition update_removed_node (st : state) (node : nat) : result state :=
  in_nodes ← getitem (input_dict st) node;
  output_dict' ← foldM (λ od inode, delitem2 od inode node)
                       (output_dict st) (elements (dom in_nodes));
  out_nodes ← getitem output_dict' node;
  input_dict' ← foldM (λ id onode, delitem2 id onode node)
                      (input_dict st) (elements (dom out_nodes));
  in_nodes ← getitem input_dict' node;
  input_dict' ← delitem input_dict' node;
  output_dict' ← delitem output_dict' node;
  '(buckets', node_to_bucket_key') ←
     foldM (rebucket input_dict' output_dict')
           (buckets st, node_to_bucket_key st)
           (elements (dom in_nodes ∪ dom out_nodes));
  Ok (mkState input_dict' output_dict' buckets' node_to_bucket_key'
              (left_list st) (right_list st) (feedback_val st)).

Section Sequencer.
Context `{Runtime}.

(** The body of the [while] loop (lines 201-224). *)
Definition loop_body (st : state) : result state :=
  if bucket_nonempty (buckets st) Sinks then
    '(n, buckets') ← pop_from_bucket (buckets st) Sinks;
    update_removed_node
      (mkState (input_dict st) (output_dict st) buckets' (node_to_bucket_key st)
               (left_list st) (right_list st ++ [n]) (feedback_val st)) n
  else if bucket_nonempty (buckets st) Sources then
    '(n, buckets') ← pop_from_bucket (buckets st) Sources;
    update_removed_node
      (mkState (input_dict st) (output_dict st) buckets' (node_to_bucket_key st)
               (left_list st ++ [n]) (right_list st) (feedback_val st)) n
  else
    max_delta ← py_max (numeric_keys (buckets st));
    '(n, buckets') ← pop_from_bucket (buckets st) (Delta max_delta);
    ins ← getitem (input_dict st) n;
    let max_delta_feedback := sum_values ins in
    update_removed_node
      (mkState (input_dict st) (output_dict st) buckets' (node_to_bucket_key st)
               (left_list st ++ [n]) (right_list st)
               (feedback_val st + max_delta_feedback)%Z) n.

(** [while len(left_list) + len(right_list) < num_nodes: ...] *)
Fixpoint main_loop (fuel : nat) (num_nodes : nat) (st : state) : result state :=
  if decide (length (left_list st) + length (right_list st) < num_nodes) then
    match fuel with
    | O => Raise FuelExhausted
    | S fuel' => st' ← loop_body st; main_loop fuel' num_nodes st'
    end
  else Ok st.

(** The state after [k] rounds of the loop (or after its last round, when
    the loop ends earlier). *)
Fixpoint iterate_loop (k : nat) (num_nodes : nat) (st : state) : result state :=
  match k with
  | O => Ok st
  | S k' =>
      if decide (length (left_list st) + length (right_list st) < num_nodes)
      then st' ← loop_body st; iterate_loop k' num_nodes st'
      else Ok st
  end.
End Sequencer.

(** ** The entry point (lines 31-245) *)

(** [[f(x) for x in l]] where [f] may raise. *)
Fixpoint mapM_result {A B} (f : A → result B) (l : list A) : result (list B) :=
  match l with
  | [] => Ok []
  | x :: l' => y ← f x; ys ← mapM_result f l'; Ok (y :: ys)
  end.

(** [[x for x in l if p(x)]] where [p] may raise. *)
Fixpoint filterM_result {A} (p : A → result bool) (l : list A) : result (list A) :=
  match l with
  | [] => Ok []
  | x :: l' =>
      b ← p x; xs ← filterM_result p l';
      Ok (if (b : bool) then x :: xs else xs)
  end.

(** [sum(l)] *)
Definition sum_list (l : list Z) : Z := foldl Z.add 0%Z l.

Section ComputeOrder.
Context `{Runtime} `{Countable Node}.

(** What the stages up to the sanity checks of lines 70-75 produce. *)
Record built : Type := mkBuilt {
  b_connections : list (@row Node);     (* the shuffled copy *)
  b_nodes_compacted : gmap Node nat;
  b_input_dict : adj;
  b_output_dict : adj;
  b_rng : rng;
}.

(** Lines 37-75.  [g0] is the state of the global generator when
    [compute_order] is called; [list(input_rows.keys())] (line 43) lists
    the node ids in the order in which the runtime enumerates the node
    set. *)
Definition build (g0 : rng) (connections : list row) (random_seed : Z)
  : result built :=
  '(input_rows, output_rows) ← adjacency_lists connections;
  let g := seed_generator random_seed g0 in
  let '(connections, g) := rng_shuffle _ g connections in
  let node_ids := set_iter _ _ _ (dom input_rows) in
  let '(node_ids, g) := rng_shuffle _ g node_ids in
  let nodes_compacted := compact_ids node_ids in
  input_dict ← compact_all nodes_compacted input_rows r0;
  output_dict ← compact_all nodes_compacted output_rows r1;
  _ ← check_built input_dict output_dict;
  Ok (mkBuilt connections nodes_compacted input_dict output_dict g).

(** Resolution, the second sanity check and the bucket index: the state in
    which the main loop starts. *)
Definition initial_state (b : built) : result state :=
  '(input_dict, output_dict, feedback_val) ←
     resolve_anti_parallel (b_input_dict b) (b_output_dict b);
  _ ← check_resolved input_dict output_dict;
  let buckets :=
    initial_buckets input_dict output_dict (size (b_nodes_compacted b)) in
  Ok (mkState input_dict output_dict buckets (index_buckets buckets)
              [] [] feedback_val).

(** What a run ends with: the list [res] it returns, the two totals its
    last assertion compares, and the state it leaves the generator in. *)
Record outcome : Type := mkOutcome {
  res : list Node;
  fsw : Z;
  final_feedback_val : Z;
  final_rng : rng;
}.

(** The finalizer (lines 227-237); [res_index[r[0]] > res_index[r[1]]] is
    written [i1 < i0]. *)
Definition finalize (b : built) (st : state) : result outcome :=
  let right_list := reverse (right_list st) in
  let nodes_compacted_inverse : gmap nat Node :=
    dict_of_list ((λ '(k, v), (v, k)) <$> map_to_list (b_nodes_compacted b)) in
  res ← mapM_result (getitem nodes_compacted_inverse) (left_list st ++ right_list);
  let res_index : gmap Node nat := dict_of_list (imap (λ k v, (v, k)) res) in
  fs ← filterM_result
         (λ r, i0 ← getitem res_index (r0 r);
               i1 ← getitem res_index (r1 r);
               Ok (bool_decide (i1 < i0)))
         (b_connections b);
  let fsw := sum_list (r2 <$> fs) in
  _ ← py_assert (Ok (bool_decide (fsw = feedback_val st)));
  Ok (mkOutcome res fsw (feedback_val st) (b_rng b)).

(** All of [compute_order], started with the global generator in state
    [g0], keeping the local values the properties below talk about. *)
Definition compute_order_run (g0 : rng) (connections : list row)
    (random_seed : Z) : result outcome :=
  b ← build g0 connections random_seed;
  st ← initial_state b;
  let num_nodes := size (b_nodes_compacted b) in
  st ← main_loop num_nodes num_nodes st;
  finalize b st.

(** [compute_order(connections, random_seed=random_seed)]: the value it
    returns. *)
Definition compute_order (g0 : rng) (connections : list row)
    (random_seed : Z) : result (list Node) :=
  o ← compute_order_run g0 connections random_seed; Ok (res o).

(** The state of the main loop after [k] rounds. *)
Definition state_after (k : nat) (g0 : rng) (connections : list row)
    (random_seed : Z) : result state :=
  b ← build g0 connections random_seed;
  st ← initial_state b;
  iterate_loop k (size (b_nodes_compacted b)) st.
End ComputeOrder.

(** ** Reports ([verbosity])

    What the reports print is not modelled; what evaluating their arguments
    can raise is. *)

(** The numbers of the report of lines 14-16: [len(node_list)], the longest
    list of [output_lists] and the longest list of [input_lists]. *)
Definition adjacency_report `{Countable Node} (node_list : gset Node)
    (input_lists output_lists : gmap Node (list (@row Node)))
  : result (nat * Z * Z) :=
  max_out ← py_max ((λ s, Z.of_nat (length s)) <$> (map_to_list output_lists).*2);
  max_in ← py_max ((λ s, Z.of_nat (length s)) <$> (map_to_list input_lists).*2);
  Ok (size node_list, max_out, max_in).

(** [adjacency_lists(connections_table, verbosity)] (lines 6-17): the
    numbers reported, if any, and the value returned. *)
Definition adjacency_lists_verbose `{Countable Node}
    (connections_table : list (@row Node)) (verbosity : Z)
  : result (option (nat * Z * Z)
            * (gmap Node (list row) * gmap Node (list row))) :=
  '(input_lists, output_lists) ← adjacency_lists connections_table;
  if decide (verbosity ≠ 0%Z) then
    report ← adjacency_report (nodes_from_connections_table connections_table)
                              input_lists output_lists;
    Ok (Some report, (input_lists, output_lists))
  else Ok (None, (input_lists, output_lists)).

(** [total_edge_weight = sum([r[2] for r in connections])] (line 32). *)
Definition total_edge_weight `{Countable Node} (connections : list (@row Node))
  : Z :=
  sum_list (r2 <$> connections).

(** The exceptions of the arithmetic of the reports, besides those of the
    computation. *)
Inductive report_exn : Set :=
  | Plain (e : exn)
  | ZeroDivisionError   (* float division by zero *)
  | OverflowError.      (* int too large for a float, [int] of an infinity *)

Inductive reported (A : Type) : Type :=
  | Done (a : A)
  | Fail (e : report_exn).
Arguments Done {A} a.
Arguments Fail {A} e.

Global Instance reported_bind : MBind reported := λ A B f c,
  match c with
  | Done a => f a
  | Fail e => Fail e
  end.

(** A step of the computation inside a run with reports. *)
Definition plain {A} (c : result A) : reported A :=
  match c with
  | Ok a => Done a
  | Raise e => Fail (Plain e)
  end.

(** Python floats are IEEE 754 binary64 numbers. *)
Definition float_prec : Z := 53%Z.
Definition float_emax : Z := 1024%Z.

(** [float(z)] for an [int]: rounded to the nearest float, ties to even;
    [OverflowError] when that is no finite float. *)
Definition float_of_int (z : Z) : reported spec_float :=
  match binary_normalize float_prec float_emax z 0%Z false with
  | S754_infinity _ => Fail OverflowError
  | x => Done x
  end.

(** [x / y] on floats *)
Definition float_truediv (x y : spec_float) : reported spec_float :=
  match y with
  | S754_zero _ => Fail ZeroDivisionError
  | _ => Done (SFdiv float_prec float_emax x y)
  end.

(** [int(x)] for a float: truncation towards zero. *)
Definition int_of_float (x : spec_float) : reported Z :=
  match x with
  | S754_zero _ => Done 0%Z
  | S754_infinity _ => Fail OverflowError
  | S754_nan => Fail (Plain ValueError)
  | S754_finite s m e =>
      let a := Z.shiftl (Zpos m) e in
      Done (if s then (- a)%Z else a)
  end.

(** [percentage_str(part, whole)] (lines 20-21), for [int] arguments:
    [f"{int(100 * float(part) / float(whole))}%"]. *)
Definition percentage_str (part whole : Z) : reported string :=
  x ← float_of_int part;
  let hundred := binary_normalize float_prec float_emax 100%Z 0%Z false in
  let y := SFmul float_prec float_emax hundred x in
  w ← float_of_int whole;
  q ← float_truediv y w;
  n ← int_of_float q;
  Done (pretty n +:+ "%").

(** ** Weights of type [float]

    The arithmetic the program applies to [float] weights is that of
    binary64.  It is no part of the embedding of [compute_order]; it is
    here for the remark [float_accounting_inexact], which records why the
    exact totals are proved for [int] weights only. *)

(** [x + y] and [x - y] on floats *)
Definition float_add (x y : spec_float) : spec_float :=
  SFadd float_prec float_emax x y.
Definition float_sub (x y : spec_float) : spec_float :=
  SFsub float_prec float_emax x y.

(** The float nearest to [n / d]: what the literal of that decimal fraction
    denotes. *)
Definition float_ratio (n d : Z) : spec_float :=
  SFdiv float_prec float_emax
        (binary_normalize float_prec float_emax n 0%Z false)
        (binary_normalize float_prec float_emax d 0%Z false).

Section Reporting.
Context `{Runtime} `{Countable Node}.

(** The progress report of lines 196-199; the value is [next_report]
    afterwards. *)
Definition progress_report (verbosity : Z) (num_nodes : nat)
    (total_edge_weight : Z) (st : state) (next_report : Z) : reported Z :=
  let pld := (length (left_list st) + length (right_list st))%nat in
  if decide (verbosity > 1 ∧ Z.of_nat pld > next_report)%Z then
    _ ← percentage_str (Z.of_nat pld) (Z.of_nat num_nodes);
    _ ← percentage_str (feedback_val st) total_edge_weight;
    Done (next_report + 1000)%Z
  else Done next_report.

(** The [while] loop of lines 194-224 with its progress report. *)
Fixpoint main_loop_verbose (fuel : nat) (verbosity : Z) (num_nodes : nat)
    (total_edge_weight : Z) (st : state) (next_report : Z) : reported state :=
  if decide (length (left_list st) + length (right_list st) < num_nodes) then
    match fuel with
    | O => Fail (Plain FuelExhausted)
    | S fuel' =>
        next_report ←
          progress_report verbosity num_nodes total_edge_weight st next_report;
        st' ← plain (loop_body st);
        main_loop_verbose fuel' verbosity num_nodes total_edge_weight st'
                          next_report
    end
  else Done st.

(** [compute_order(connections, verbosity, random_seed)] (lines 31-245). *)
Definition compute_order_verbose (g0 : rng) (connections : list (@row Node))
    (verbosity : Z) (random_seed : Z) : reported (list Node) :=
  let total_edge_weight := total_edge_weight connections in
  b ← plain (build g0 connections random_seed);
  st ← plain (initial_state b);
  let num_nodes := size (b_nodes_compacted b) in
  st ← main_loop_verbose num_nodes verbosity num_nodes total_edge_weight st 1%Z;
  o ← plain (finalize b st);
  _ ← (if decide (verbosity > 0)%Z
       then percentage_str (fsw o) total_edge_weight
       else Done "");
  Done (res o).
End Reporting.

(** ** Assertions on and off *)

(** The runtime [R] with [__debug__] set to [debug]: the same interpreter
    started as [python] or as [python -O]. *)
Definition with_debug (R : Runtime) (debug : bool) : Runtime :=
  {| py_debug := debug;
     rng := @rng R;
     rng_seed := @rng_seed R;
     rng_shuffle := @rng_shuffle R;
     rng_shuffle_perm := @rng_shuffle_perm R;
     set_iter := @set_iter R;
     set_iter_perm := @set_iter_perm R;
     set_pop := @set_pop R;
     set_pop_elem := @set_pop_elem R |}.

(** What the builder produced with assertions on, as a value of the run
    with assertions off. *)
Definition released (R : Runtime) `{Countable Node}
    (b : built (H := with_debug R true) (Node := Node))
  : built (H := with_debug R false) (Node := Node) :=
  mkBuilt (H := with_debug R false) (b_connections b) (b_nodes_compacted b)
          (b_input_dict b) (b_output_dict b) (b_rng b).

(** ** The enumeration order of the node set *)

(** The runtime [R] with the sets enumerated by [e]: the same interpreter
    started with another hash seed. *)
Definition with_order (R : Runtime) (e : enumeration) (He : enumerates e)
  : Runtime :=
  {| py_debug := @py_debug R;
     rng := @rng R;
     rng_seed := @rng_seed R;
     rng_shuffle := @rng_shuffle R;
     rng_shuffle_perm := @rng_shuffle_perm R;
     set_iter := e;
     set_iter_perm := He;
     set_pop := @set_pop R;
     set_pop_elem := @set_pop_elem R |}.

(** What the builder produced under the enumeration [e1], as a value of the
    run under [e2]. *)
Definition reordered (R : Runtime) `{Countable Node}
    (e1 e2 : enumeration) (He1 : enumerates e1) (He2 : enumerates e2)
    (b : built (H := with_order R e1 He1) (Node := Node))
  : built (H := with_order R e2 He2) (Node := Node) :=
  mkBuilt (H := with_order R e2 He2) (b_connections b) (b_nodes_compacted b)
          (b_input_dict b) (b_output_dict b) (b_rng b).

(** * The vocabulary of the specification *)

Section Vocabulary.
Context `{Runtime} `{Countable Node}.
Implicit Types (connections : list (@row Node)).

(** The summed weight of the elements of [l] that satisfy [P], if there are
    any. *)
Fixpoint merged {A} (P : A → Prop) `{!∀ x, Decision (P x)} (w : A → Z)
    (l : list A) : option Z :=
  match l with
  | [] => None
  | x :: l' =>
      if decide (P x) then Some (w x + default 0 (merged P w l'))%Z
      else merged P w l'
  end.

(** The symmetry invariant of the adjacency maps: the outgoing map of [a]
    has [b] with weight [w] iff the incoming map of [b] has [a] with weight
    [w]. *)
Definition symmetric (input_dict output_dict : adj) : Prop :=
  ∀ a b, edge_w output_dict a b = edge_w input_dict b a.

(** The weight of the edge [a → b], [0] when there is none. *)
Definition wf (d : adj) (a b : nat) : Z := default 0%Z (edge_w d a b).

(** The adjacency maps describe a graph on the node set [V]. *)
Record graph_ok (V : gset nat) (input_dict output_dict : adj) : Prop := {
  g_dom_in : dom input_dict = V;
  g_dom_out : dom output_dict = V;
  g_sym : symmetric input_dict output_dict;
}.

(** The compacted ids number the node universe [0 .. N-1]; the adjacency
    maps hold the merged weights of the rows between each two nodes. *)
Record built_ok (connections : list (@row Node)) (b : built) : Prop := {
  bo_perm : b_connections b ≡ₚ connections;
  bo_dom : dom (b_nodes_compacted b) = nodes_from_connections_table connections;
  bo_inj : ∀ u v i,
    b_nodes_compacted b !! u = Some i → b_nodes_compacted b !! v = Some i → u = v;
  bo_range : ∀ i,
    i < size (b_nodes_compacted b) ↔ ∃ u, b_nodes_compacted b !! u = Some i;
  bo_dom_in : dom (b_input_dict b) = set_seq 0 (size (b_nodes_compacted b));
  bo_dom_out : dom (b_output_dict b) = set_seq 0 (size (b_nodes_compacted b));
  bo_out : ∀ u v i j,
    b_nodes_compacted b !! u = Some i → b_nodes_compacted b !! v = Some j →
    edge_w (b_output_dict b) i j =
      merged (λ r, r0 r = u ∧ r1 r = v) r2 connections;
  bo_sym : symmetric (b_input_dict b) (b_output_dict b);
  bo_closed : ∀ i j,
    is_Some (edge_w (b_output_dict b) i j) →
    i < size (b_nodes_compacted b) ∧ j < size (b_nodes_compacted b);
}.

(** No row of the input joins a node to itself. *)
Definition no_self_loop connections : Prop :=
  Forall (λ r, r0 r ≠ r1 r) connections.

(** A valid input: no weight is negative. *)
Definition valid_input connections : Prop :=
  Forall (λ r, (0 ≤ r2 r)%Z) connections.

Global Instance no_self_loop_dec connections :
  Decision (no_self_loop connections).
Proof. unfold no_self_loop. apply _. Defined.

Global Instance valid_input_dec connections :
  Decision (valid_input connections).
Proof. unfold valid_input. apply _. Defined.

(** [u → v] is an edge of the input. *)
Definition edge_rel connections (u v : Node) : Prop :=
  ∃ r, r ∈ connections ∧ r0 r = u ∧ r1 r = v.

(** The input, as a directed graph, has no cycle. *)
Definition acyclic connections : Prop :=
  ∀ u, ¬ tc (edge_rel connections) u u.

(** [sumZ f l] is the sum of [f x] over the members [x] of [l]. *)
Definition sumZ {A} (f : A → Z) (l : list A) : Z :=
  foldr (λ x acc, (f x + acc)%Z) 0%Z l.

(** The weight [f b a] of all edges [b → a] that point backwards in [ord],
    that is, with [a] placed before [b]. *)
Fixpoint backward_weight (f : nat → nat → Z) (ord : list nat) : Z :=
  match ord with
  | [] => 0
  | a :: l => sumZ (λ b, f b a) l + backward_weight f l
  end%Z.

(** The weight function with one single edge [a → b] of weight [w]. *)
Definition single_edge (a b : nat) (w : Z) (x y : nat) : Z :=
  if decide (x = a ∧ y = b) then w else 0%Z.

(** The position of [x] in [l] (the length of [l] when [x] is absent). *)
Fixpoint position `{EqDecision A} (l : list A) (x : A) : nat :=
  match l with
  | [] => 0
  | y :: l' => if decide (y = x) then 0 else S (position l' x)
  end.

(** The weight of the rows [(u, v, w)] of the input that point backwards
    in the order [res]: position of [v] ≤ position of [u]. *)
Definition backward_total (res : list Node) connections : Z :=
  sumZ (λ r, if decide (position res (r1 r) ≤ position res (r0 r))
             then r2 r else 0%Z) connections.

(** What is left of an edge [a → b] of weight [x] that faces an edge
    [b → a] of weight [y]: the lighter of the two goes, and of two equal ones
    the one from the larger to the smaller id. *)
Definition net (a b : nat) (x y : Z) : option Z :=
  if decide (b < a) then (if decide (y < x)%Z then Some (x - y)%Z else None)
  else (if decide (y ≤ x)%Z then Some (x - y)%Z else None).

(** The edge [a → b] after all anti-parallel pairs of [d] are resolved:
    a self loop and an edge without an opposite one stay as they are. *)
Definition resolved (d : adj) (a b : nat) : option Z :=
  match edge_w d a b with
  | None => None
  | Some x =>
      if decide (a = b) then Some x
      else match edge_w d b a with
           | None => Some x
           | Some y => net a b x y
           end
  end.

(** No node has an edge to itself. *)
Definition irreflexive (d : adj) : Prop := ∀ a, edge_w d a a = None.

(** Node [n] is a member of the bucket with key [k]. *)
Definition in_bucket (buckets : bucket_map) (k : bucket_key) (n : nat) : Prop :=
  ∃ s, buckets !! k = Some s ∧ n ∈ s.

(** No bucket of the index is empty. *)
Definition no_empty_bucket (buckets : bucket_map) : Prop :=
  ∀ k s, buckets !! k = Some s → s ≠ ∅.

(** The buckets partition the nodes of [V] by the key function [kf], and the
    node-to-key index knows the key of every node of [V]. *)
Record buckets_ok (V : gset nat) (kf : nat → bucket_key)
    (buckets : bucket_map) (node_to_bucket_key : gmap nat bucket_key) : Prop := {
  bk_nonempty : no_empty_bucket buckets;
  bk_member : ∀ k n, in_bucket buckets k n ↔ n ∈ V ∧ kf n = k;
  bk_index : ∀ n, n ∈ V → node_to_bucket_key !! n = Some (kf n);
}.

(** The adjacency map without node [n]: its own entry and every entry
    pointing to it are gone. *)
Definition remove_node (n : nat) (d : adj) : adj := delete n (delete n <$> d).

(** The nodes that are not placed yet. *)
Definition remaining (st : state) : gset nat := dom (output_dict st).

(** The number of placed nodes. *)
Definition placed (st : state) : nat :=
  length (left_list st) + length (right_list st).

(** The invariant of the main loop on a graph of [N] nodes. *)
Record loop_inv (N : nat) (st : state) : Prop := {
  li_graph : graph_ok (remaining st) (input_dict st) (output_dict st);
  li_buckets :
    buckets_ok (remaining st)
      (compute_bucket_key_for_node (input_dict st) (output_dict st))
      (buckets st) (node_to_bucket_key st);
  li_placed :
    left_list st ++ right_list st ++ elements (remaining st) ≡ₚ seq 0 N;
}.

(** What one round of the loop does to the lists and the feedback total when
    it picks node [n]: the three cases of lines 201-224. *)
Definition round_of (st st' : state) (n : nat) : Prop :=
  (bucket_nonempty (buckets st) Sinks = true ∧
   in_bucket (buckets st) Sinks n ∧
   left_list st' = left_list st ∧
   right_list st' = right_list st ++ [n] ∧
   feedback_val st' = feedback_val st)
  ∨
  (bucket_nonempty (buckets st) Sinks = false ∧
   bucket_nonempty (buckets st) Sources = true ∧
   in_bucket (buckets st) Sources n ∧
   left_list st' = left_list st ++ [n] ∧
   right_list st' = right_list st ∧
   feedback_val st' = feedback_val st)
  ∨
  (bucket_nonempty (buckets st) Sinks = false ∧
   bucket_nonempty (buckets st) Sources = false ∧
   ∃ max_delta ins,
     in_bucket (buckets st) (Delta max_delta) n ∧
     (∀ d m, in_bucket (buckets st) (Delta d) m → (d ≤ max_delta)%Z) ∧
     input_dict st !! n = Some ins ∧
     left_list st' = left_list st ++ [n] ∧
     right_list st' = right_list st ∧
     feedback_val st' = (feedback_val st + sum_values ins)%Z).

(** The tracked feedback total is the backward weight, with respect to the
    weights [W0] of the graph as built, of the nodes placed so far: whatever
    order [ord] the remaining nodes end up in, the final order has backward
    weight [feedback_val] plus what [ord] costs in the remaining graph. *)
Definition fb_inv (W0 : nat → nat → Z) (st : state) : Prop :=
  ∀ ord, ord ≡ₚ elements (remaining st) →
    backward_weight W0 (left_list st ++ ord ++ reverse (right_list st))
    = (feedback_val st + backward_weight (wf (output_dict st)) ord)%Z.

(** The invariant of a run on a graph without self loops. *)
Definition run_inv (N : nat) (W0 : nat → nat → Z) (st : state) : Prop :=
  loop_inv N st ∧ irreflexive (output_dict st) ∧ fb_inv W0 st.

(** [a → b] is an edge of the adjacency map. *)
Definition adj_rel (d : adj) (a b : nat) : Prop := is_Some (edge_w d a b).

(** The adjacency map has no cycle. *)
Definition adj_acyclic (d : adj) : Prop := ∀ a, ¬ tc (adj_rel d) a a.

(** The weight function that counts edges: [1] for an edge, [0] for none. *)
Definition edge_count (d : adj) (a b : nat) : Z :=
  if decide (is_Some (edge_w d a b)) then 1%Z else 0%Z.

(** Only sinks are ever picked: the feedback total stays [0] and no edge of
    the graph [d0] the loop started with ends up backward. *)
Definition acyclic_inv (N : nat) (d0 : adj) (st : state) : Prop :=
  loop_inv N st ∧ adj_acyclic (output_dict st) ∧ feedback_val st = 0%Z ∧
  ∀ ord, ord ≡ₚ elements (remaining st) →
    backward_weight (edge_count d0) (left_list st ++ ord ++ reverse (right_list st))
    = backward_weight (edge_count (output_dict st)) ord.

(** The sum of the weights [d[a][b]] over all [a], [b] below [N]. *)
Definition total_weight (N : nat) (d : adj) : Z :=
  sumZ (λ a, sumZ (λ b, wf d a b) (seq 0 N)) (seq 0 N).

(** No weight of the adjacency map is negative. *)
Definition nonneg (d : adj) : Prop :=
  ∀ a b w, edge_w d a b = Some w → (0 ≤ w)%Z.

(** On a graph without negative weights, twice the feedback total plus the
    weight that is left in the graph never exceeds [T]. *)
Definition bound_inv (N : nat) (T : Z) (st : state) : Prop :=
  nonneg (output_dict st) ∧
  (0 ≤ feedback_val st)%Z ∧
  (2 * feedback_val st + total_weight N (output_dict st) ≤ T)%Z.

(** [not d.get(n)]: node [n] has no entry in [d], or an empty one. *)
Definition no_entries (d : adj) (n : nat) : Prop := default ∅ (d !! n) = ∅.

(** [1] for the edges [a → b] of the graph [in0], [out0] whose target [b]
    has no outgoing edge or whose source [a] has no incoming edge, [0] for
    everything else. *)
Definition pinned (in0 out0 : adj) (a b : nat) : Z :=
  if decide (is_Some (edge_w out0 a b) ∧
             (no_entries out0 b ∨ no_entries in0 a))
  then 1%Z else 0%Z.

(** The graph of the state is the graph [out0] restricted to the remaining
    nodes, and no pinned edge between a placed node and any other node points
    backwards, wherever the remaining nodes end up. *)
Definition pinned_inv (in0 out0 : adj) (st : state) : Prop :=
  (∀ a b, a ∈ remaining st → b ∈ remaining st →
          edge_w (output_dict st) a b = edge_w out0 a b) ∧
  ∀ ord, ord ≡ₚ elements (remaining st) →
    backward_weight (pinned in0 out0)
      (left_list st ++ ord ++ reverse (right_list st))
    = backward_weight (pinned in0 out0) ord.

(** The graph of a state is the graph [out0] without the placed nodes. *)
Definition restricts (out0 : adj) (st : state) : Prop :=
  remaining st ⊆ dom out0 ∧
  ∀ a b, edge_w (output_dict st) a b
         = if decide (a ∈ remaining st ∧ b ∈ remaining st)
           then edge_w out0 a b else None.

End Vocabulary.

(** ** A concrete runtime, for running the program on examples

    The generator is trivial (shuffling leaves the list as it is), sets are
    enumerated as [elements] lists them, and [set.pop] returns the first
    member in that enumeration. *)

Definition elements_order : enumeration := λ A EqA CA s, elements s.

Lemma elements_order_enumerates : enumerates elements_order.
Proof. by intros A EqA CA s. Qed.

Definition first_member (s : gset nat) : nat := default 0 (head (elements s)).

Lemma first_member_elem (s : gset nat) : s ≠ ∅ → first_member s ∈ s.
Proof.
  intros Hs. unfold first_member.
  destruct (elements s) as [|x l] eqn:E.
  - apply elements_empty_inv in E. by apply leibniz_equiv in E.
  - simpl. apply elem_of_elements. rewrite E. left.
Qed.

Definition plain_runtime (debug : bool) : Runtime :=
  {| py_debug := debug;
     rng := unit;
     rng_seed := λ _, tt;
     rng_shuffle := λ A g l, (l, g);
     rng_shuffle_perm := λ A g l, reflexivity l;
     set_iter := elements_order;
     set_iter_perm := elements_order_enumerates;
     set_pop := first_member;
     set_pop_elem := first_member_elem |}.

(** The same members, enumerated the other way round. *)
Definition reversed_order : enumeration := λ A EqA CA s, reverse (elements s).

Lemma reversed_order_enumerates : enumerates reversed_order.
Proof. intros A EqA CA s. apply reverse_Permutation. Qed.

(** An enumeration that agrees with [elements_order] on the sets of at most
    three members, and with [reversed_order] on the others. *)
Definition mixed_order : enumeration := λ A EqA CA s,
  if decide (size s ≤ 3) then elements s else reverse (elements s).

Lemma mixed_order_enumerates : enumerates mixed_order.
Proof.
  intros A EqA CA s. unfold mixed_order.
  case_decide; [done|apply reverse_Permutation].
Qed.

(** ** Example inputs *)

Definition nA : string := "A".
Definition nB : string := "B".
Definition nC : string := "C".

(** Scenario A of the specification: a 3-cycle of equal weights. *)
Definition cycle3 : list (string * string * Z) :=
  [(nA, nB, 5%Z); (nB, nC, 5%Z); (nC, nA, 5%Z)].
(** Scenario B: an anti-parallel pair. *)
Definition pair53 : list (string * string * Z) := [(nA, nB, 5%Z); (nB, nA, 3%Z)].
(** An anti-parallel pair of equal weights. *)
Definition pair55 : list (string * string * Z) := [(nA, nB, 5%Z); (nB, nA, 5%Z)].
Definition edge2 : list (string * string * Z) := [(nA, nB, 2%Z)].
Definition negative_edge : list (string * string * Z) := [(nA, nB, (-1)%Z)].
Definition self_loop5 : list (string * string * Z) := [(nA, nA, 5%Z)].
(** A 3-cycle in which two nodes tie for the largest delta. *)
Definition uneven3 : list (string * string * Z) :=
  [(nA, nB, 3%Z); (nB, nC, 1%Z); (nC, nA, 2%Z)].
(** An acyclic graph on integer node ids. *)
Definition dag3 : list (nat * nat * Z) := [(1, 2, 2%Z); (2, 3, 1%Z); (1, 3, 4%Z)].
(** A two-node cycle with a tail into a node without outgoing rows. *)
Definition cycle_tail : list (string * string * Z) :=
  [(nA, nB, 5%Z); (nB, nA, 3%Z); (nB, nC, 1%Z)].
(** One row of weight 0. *)
Definition zero_edge : list (string * string * Z) := [(nA, nB, 0%Z)].
(** The empty input. *)
Definition no_rows : list (string * string * Z) := [].
(** A bucket index: nodes 1 and 2 are sinks, node 3 has delta 4. *)
Definition some_buckets : bucket_map :=
  {[ Sinks := {[1; 2]}; Delta 4%Z := {[3]} ]}.

(** The feedback total a run ends with, if it ends normally. *)
Definition tracked_feedback `{Runtime} `{Countable Node}
    (r : result (outcome (Node := Node))) : option Z :=
  match r with
  | Ok o => Some (final_feedback_val o)
  | Raise _ => None
  end.

(** Decides a closed decidable proposition by evaluation. *)
Ltac by_evaluation := apply (bool_decide_unpack _); vm_compute; exact I.

(** * Properties *)

(** ** The error monad and monadic folds *)

Lemma bind_Ok {A B} (c : result A) (f : A → result B) (b : B) :
  c ≫= f = Ok b ↔ ∃ a, c = Ok a ∧ f a = Ok b.
Proof.
  destruct c as [a|e]; simpl; split.
  - intros Hf. by exists a.
  - by intros (a' & [= ->] & Hf).
  - done.
  - by intros (a' & [=] & _).
Qed.

Lemma bind_Ok_l {A B} (a : A) (f : A → result B) : Ok a ≫= f = f a.
Proof. done. Qed.

Lemma foldM_cons {A B} (f : B → A → result B) (b : B) (x : A) (l : list A) :
  foldM f b (x :: l) = f b x ≫= λ b', foldM f b' l.
Proof. done. Qed.

Lemma foldM_app {A B} (f : B → A → result B) (b : B) (l1 l2 : list A) :
  foldM f b (l1 ++ l2) = foldM f b l1 ≫= λ b', foldM f b' l2.
Proof.
  revert b. induction l1 as [|x l1 IH]; intros b; simpl; [done|].
  destruct (f b x) as [b'|e]; simpl; [apply IH|done].
Qed.

Lemma foldM_snoc {A B} (f : B → A → result B) (b : B) (l : list A) (x : A) :
  foldM f b (l ++ [x]) = foldM f b l ≫= λ b', f b' x.
Proof.
  rewrite foldM_app. destruct (foldM f b l) as [b'|e]; simpl; [|done].
  by destruct (f b' x).
Qed.

(** A loop that keeps an invariant and whose body never raises under it
    ends normally. *)
Lemma foldM_invariant {A B} (P : list A → B → Prop) (f : B → A → result B)
    (b : B) (l : list A) :
  P [] b →
  (∀ l1 x l2 b1, l = l1 ++ x :: l2 → P l1 b1 →
     ∃ b2, f b1 x = Ok b2 ∧ P (l1 ++ [x]) b2) →
  ∃ b', foldM f b l = Ok b' ∧ P l b'.
Proof.
  intros H0 Hstep.
  induction l as [|x l IH] using rev_ind.
  - by exists b.
  - destruct IH as (b1 & Hb1 & HP1).
    { intros l1 y l2 b1 -> HP. apply (Hstep l1 y (l2 ++ [x])); [|done].
      by rewrite <-app_assoc. }
    destruct (Hstep l x [] b1) as (b2 & Hb2 & HP2); [done..|].
    exists b2. by rewrite foldM_snoc, Hb1.
Qed.

(** If, under the invariant, the body either keeps it or raises [e], and
    does raise [e] for some element of the list, the loop raises [e]. *)
Lemma foldM_raises {A B} (P : B → Prop) (f : B → A → result B)
    (b : B) (l : list A) (x0 : A) (e : exn) :
  P b → x0 ∈ l →
  (∀ x b1, x ∈ l → P b1 →
     (∃ b2, f b1 x = Ok b2 ∧ P b2) ∨ f b1 x = Raise e) →
  (∀ b1, P b1 → f b1 x0 = Raise e) →
  foldM f b l = Raise e.
Proof.
  intros HP Hin Hstep Hbad. revert b HP.
  induction l as [|x l IH]; intros b HP; [by apply elem_of_nil in Hin|].
  simpl. apply elem_of_cons in Hin as [->|Hin].
  - by rewrite (Hbad b HP).
  - destruct (Hstep x b) as [(b2 & -> & HP2)| ->]; [left|done| |done].
    simpl. apply IH; [done| |done].
    intros y b1 Hy. apply Hstep. by right.
Qed.

Lemma mapM_result_Ok {A B} (f : A → result B) (g : A → B) (l : list A) :
  (∀ x, x ∈ l → f x = Ok (g x)) → mapM_result f l = Ok (g <$> l).
Proof.
  induction l as [|x l IH]; intros Hf; simpl; [done|].
  rewrite Hf by left. simpl. rewrite IH; [done|].
  intros y Hy. apply Hf. by right.
Qed.

Lemma filterM_result_Ok {A} (p : A → result bool) (q : A → bool) (l : list A) :
  (∀ x, x ∈ l → p x = Ok (q x)) →
  filterM_result p l = Ok (filter (λ x, q x = true) l).
Proof.
  induction l as [|x l IH]; intros Hp; simpl; [done|].
  rewrite Hp by left. simpl. rewrite IH by (intros y Hy; apply Hp; by right).
  simpl. rewrite filter_cons. destruct (q x); by case_decide.
Qed.

(** ** Dictionaries *)

Lemma getitem_Ok `{Countable K} {V} (d : gmap K V) k v :
  getitem d k = Ok v ↔ d !! k = Some v.
Proof. unfold getitem. destruct (d !! k); naive_solver. Qed.

Lemma getitem_Some `{Countable K} {V} (d : gmap K V) k v :
  d !! k = Some v → getitem d k = Ok v.
Proof. apply getitem_Ok. Qed.

Lemma getitem_None `{Countable K} {V} (d : gmap K V) k :
  d !! k = None → getitem d k = Raise KeyError.
Proof. unfold getitem. by intros ->. Qed.

Lemma delitem_Some `{Countable K} {V} (d : gmap K V) k v :
  d !! k = Some v → delitem d k = Ok (delete k d).
Proof. unfold delitem. by intros ->. Qed.

Lemma dict_of_list_snoc `{Countable K} {V} (l : list (K * V)) k v :
  dict_of_list (l ++ [(k, v)]) = <[k := v]> (dict_of_list l).
Proof. unfold dict_of_list. by rewrite foldl_app. Qed.

Lemma dict_of_list_lookup_None `{Countable K} {V} (l : list (K * V)) k :
  k ∉ l.*1 → dict_of_list l !! k = None.
Proof.
  induction l as [|[k' v'] l IH] using rev_ind; intros Hk; [done|].
  rewrite dict_of_list_snoc. rewrite fmap_app in Hk. simpl in Hk.
  rewrite lookup_insert_ne; [apply IH|]; set_solver.
Qed.

Lemma dict_of_list_lookup `{Countable K} {V} (l : list (K * V)) k v :
  NoDup l.*1 → dict_of_list l !! k = Some v ↔ (k, v) ∈ l.
Proof.
  induction l as [|[k' v'] l IH] using rev_ind; intros Hnd.
  - unfold dict_of_list. simpl. rewrite lookup_empty. set_solver.
  - rewrite dict_of_list_snoc. rewrite fmap_app in Hnd.
    apply NoDup_app in Hnd as (Hnd & Hdisj & _).
    rewrite elem_of_app, list_elem_of_singleton.
    destruct (decide (k = k')) as [->|Hne].
    + rewrite lookup_insert_eq. split.
      * intros [= ->]. by right.
      * intros [Hin|[= ->]]; [|done].
        exfalso. apply (Hdisj k'); [|simpl; left].
        apply list_elem_of_fmap. by exists (k', v).
    + rewrite lookup_insert_ne by done. rewrite IH by done. naive_solver.
Qed.

(** [enumerate] *)
Lemma elem_of_imap_pair {A} (l : list A) (i : nat) (x : A) :
  (x, i) ∈ imap (λ i x, (x, i)) l ↔ l !! i = Some x.
Proof.
  rewrite list_elem_of_lookup. split.
  - intros [j Hj]. rewrite list_lookup_imap in Hj.
    destruct (l !! j) eqn:E; simplify_eq/=. done.
  - intros Hi. exists i. rewrite list_lookup_imap, Hi. done.
Qed.

Lemma fmap_fst_imap_pair {A} (l : list A) :
  (imap (λ i x, (x, i)) l).*1 = l.
Proof.
  apply list_eq. intros i. rewrite list_lookup_fmap, list_lookup_imap.
  by destruct (l !! i).
Qed.

(** The index built by [{v: k for k, v in enumerate(l)}] when [l] has no
    duplicates. *)
Lemma lookup_enumerate_index `{Countable K} (l : list K) (x : K) (i : nat) :
  NoDup l →
  dict_of_list (imap (λ i x, (x, i)) l) !! x = Some i ↔ l !! i = Some x.
Proof.
  intros Hnd. rewrite dict_of_list_lookup by (by rewrite fmap_fst_imap_pair).
  apply elem_of_imap_pair.
Qed.

Lemma dom_enumerate_index `{Countable K} (l : list K) :
  NoDup l → dom (dict_of_list (imap (λ i x, (x, i)) l)) = list_to_set l.
Proof.
  intros Hnd. apply set_eq. intros x.
  rewrite elem_of_dom, elem_of_list_to_set, list_elem_of_lookup.
  unfold is_Some. by setoid_rewrite (lookup_enumerate_index l x).
Qed.

(** ** Sums *)

Lemma sum_values_empty `{Countable K} : sum_values (∅ : gmap K Z) = 0%Z.
Proof. apply map_fold_empty. Qed.

Lemma sum_values_insert `{Countable K} (m : gmap K Z) k w :
  m !! k = None → sum_values (<[k := w]> m) = (w + sum_values m)%Z.
Proof.
  intros Hk. unfold sum_values. rewrite map_fold_insert_L; [done| |done].
  intros. lia.
Qed.

Lemma sum_values_delete `{Countable K} (m : gmap K Z) k w :
  m !! k = Some w → sum_values m = (w + sum_values (delete k m))%Z.
Proof.
  intros Hk. rewrite <-(insert_delete_id m k w) at 1 by done.
  apply sum_values_insert, lookup_delete_eq.
Qed.

Lemma foldl_add_acc (a : Z) (l : list Z) :
  foldl Z.add a l = (a + foldl Z.add 0 l)%Z.
Proof.
  revert a. induction l as [|x l IH]; intros a; simpl; [lia|].
  rewrite (IH (a + x)%Z), (IH (0 + x)%Z). lia.
Qed.

Lemma sum_list_cons (x : Z) (l : list Z) :
  sum_list (x :: l) = (x + sum_list l)%Z.
Proof. unfold sum_list. simpl. apply foldl_add_acc. Qed.

(** ** Merging parallel edges: the reference function *)

Section Merged.
Context {A : Type} (w : A → Z).
Implicit Types (P Q : A → Prop) (l : list A).

Lemma merged_snoc P `{!∀ x, Decision (P x)} l x :
  merged P w (l ++ [x]) =
    if decide (P x) then Some (default 0 (merged P w l) + w x)%Z
    else merged P w l.
Proof.
  induction l as [|y l IH]; simpl.
  - case_decide; [f_equal; simpl; lia|done].
  - rewrite IH. repeat case_decide; simpl; try done. f_equal. lia.
Qed.

Lemma merged_ext P Q `{!∀ x, Decision (P x)} `{!∀ x, Decision (Q x)} l :
  (∀ x, x ∈ l → P x ↔ Q x) → merged P w l = merged Q w l.
Proof.
  induction l as [|y l IH]; intros HPQ; simpl; [done|].
  rewrite IH by (intros x Hx; apply HPQ; by right).
  pose proof (HPQ y (list_elem_of_here _ _)).
  repeat case_decide; naive_solver.
Qed.

Lemma merged_filter P Q `{!∀ x, Decision (P x)} `{!∀ x, Decision (Q x)} l :
  merged P w (filter Q l) = merged (λ x, P x ∧ Q x) w l.
Proof.
  induction l as [|y l IH]; simpl; [done|].
  rewrite filter_cons. destruct (decide (Q y)); simpl; rewrite IH;
    repeat case_decide; naive_solver.
Qed.

Lemma merged_is_Some P `{!∀ x, Decision (P x)} l :
  is_Some (merged P w l) ↔ ∃ x, x ∈ l ∧ P x.
Proof.
  induction l as [|y l IH]; simpl.
  - split; [by intros [? ?]|]. intros (x & Hx & _). by apply elem_of_nil in Hx.
  - case_decide.
    + split; [|by eauto]. intros _. exists y. split; [left|done].
    + rewrite IH. split.
      * intros (x & Hx & HP). exists x. split; [by right|done].
      * intros (x & Hx & HP). apply elem_of_cons in Hx as [->|Hx]; [done|].
        by exists x.
Qed.

Lemma merged_None P `{!∀ x, Decision (P x)} l :
  merged P w l = None ↔ ∀ x, x ∈ l → ¬ P x.
Proof.
  rewrite eq_None_not_Some, merged_is_Some. naive_solver.
Qed.
End Merged.

(** ** Graph builder *)

Section BuilderFacts.
Context `{Countable Node}.
Implicit Types (connections : list (@row Node)) (c : gmap Node nat).

Lemma elem_of_nodes connections (u : Node) :
  u ∈ nodes_from_connections_table connections ↔
  ∃ r, r ∈ connections ∧ (r0 r = u ∨ r1 r = u).
Proof.
  unfold nodes_from_connections_table.
  rewrite elem_of_union, !elem_of_list_to_set, !list_elem_of_fmap.
  naive_solver.
Qed.

(** [adjacency_lists] groups the rows by target and by source. *)
Lemma adjacency_lists_spec connections :
  ∃ input_rows output_rows,
    adjacency_lists connections = Ok (input_rows, output_rows) ∧
    dom input_rows = nodes_from_connections_table connections ∧
    dom output_rows = nodes_from_connections_table connections ∧
    (∀ k rows, input_rows !! k = Some rows →
               rows = filter (λ r, r1 r = k) connections) ∧
    (∀ k rows, output_rows !! k = Some rows →
               rows = filter (λ r, r0 r = k) connections).
Proof.
  unfold adjacency_lists.
  set (U := nodes_from_connections_table connections).
  edestruct (foldM_invariant
    (λ (done : list row) (io : gmap Node (list row) * gmap Node (list row)),
       dom io.1 = U ∧ dom io.2 = U ∧
       (∀ k rows, io.1 !! k = Some rows → rows = filter (λ r, r1 r = k) done) ∧
       (∀ k rows, io.2 !! k = Some rows → rows = filter (λ r, r0 r = k) done)))
    as ([ir or] & Hrun & Hd1 & Hd2 & Hin & Hout); last first.
  { exists ir, or. split; [exact Hrun|]. done. }
  - intros l1 r l2 [ir or] Hl (Hd1 & Hd2 & Hin & Hout). simpl in *.
    assert (r1 r ∈ U ∧ r0 r ∈ U) as [Hr1 Hr0].
    { split; apply elem_of_nodes; exists r; rewrite Hl;
        (split; [apply elem_of_app; right; left|]); auto. }
    rewrite <-Hd1 in Hr1. rewrite <-Hd2 in Hr0.
    apply elem_of_dom in Hr1 as [li Hli]. apply elem_of_dom in Hr0 as [lo Hlo].
    unfold append_row. rewrite (getitem_Some _ _ _ Hli). simpl.
    rewrite (getitem_Some _ _ _ Hlo). simpl.
    eexists. split; [done|]. simpl. split_and!.
    + rewrite dom_insert_L. apply elem_of_dom_2 in Hli. set_solver.
    + rewrite dom_insert_L. apply elem_of_dom_2 in Hlo. set_solver.
    + intros k rows. rewrite filter_app, filter_cons, filter_nil.
      destruct (decide (r1 r = k)) as [<-|Hne].
      * rewrite lookup_insert_eq. intros [= <-]. by rewrite (Hin _ _ Hli) at 1.
      * rewrite lookup_insert_ne by done. rewrite app_nil_r. apply Hin.
    + intros k rows. rewrite filter_app, filter_cons, filter_nil.
      destruct (decide (r0 r = k)) as [<-|Hne].
      * rewrite lookup_insert_eq. intros [= <-]. by rewrite (Hout _ _ Hlo) at 1.
      * rewrite lookup_insert_ne by done. rewrite app_nil_r. apply Hout.
  - simpl. rewrite !dom_gset_to_gmap. split_and!; [done..| |].
    + intros k rows [_ <-]%lookup_gset_to_gmap_Some. done.
    + intros k rows [_ <-]%lookup_gset_to_gmap_Some. done.
Qed.

(** [compact_dict] merges the rows that lead to the same compacted id. *)
Lemma compact_dict_spec c (rows : list row) (nidx : row → Node) :
  (∀ r, r ∈ rows → nidx r ∈ dom c) →
  ∃ cd, compact_dict c rows nidx = Ok cd ∧
        ∀ j, cd !! j = merged (λ r, c !! nidx r = Some j) r2 rows.
Proof.
  intros Hdom. unfold compact_dict.
  induction rows as [|r rows IH] using rev_ind.
  - exists ∅. split; [done|]. intros j. by rewrite lookup_empty.
  - destruct IH as (cd & Hcd & Hlook).
    { intros r' Hr'. apply Hdom, elem_of_app. by left. }
    rewrite foldM_snoc, Hcd. simpl.
    destruct (c !! nidx r) as [cn|] eqn:Hcn; last first.
    { exfalso. apply not_elem_of_dom in Hcn. apply Hcn, Hdom.
      apply elem_of_app. right. left. }
    rewrite (getitem_Some _ _ _ Hcn). simpl.
    eexists. split; [done|]. intros j. rewrite merged_snoc.
    destruct (decide (cn = j)) as [<-|Hne].
    + rewrite lookup_insert_eq, Hlook. rewrite decide_True by done. done.
    + rewrite lookup_insert_ne, Hlook by done.
      rewrite decide_False; [done|]. congruence.
Qed.

(** [compact_all] stores under each compacted id the merged dictionary of
    the rows of that node. *)
Lemma compact_all_spec c (rows : gmap Node (list row)) (nidx : row → Node) :
  (∀ u v i, c !! u = Some i → c !! v = Some i → u = v) →
  dom rows ⊆ dom c →
  (∀ k v r, rows !! k = Some v → r ∈ v → nidx r ∈ dom c) →
  ∃ d, compact_all c rows nidx = Ok d ∧
       ∀ i cd, d !! i = Some cd ↔
               ∃ k v, c !! k = Some i ∧ rows !! k = Some v ∧
                      compact_dict c v nidx = Ok cd.
Proof.
  intros Hinj Hsub Hrows. unfold compact_all.
  pose proof (NoDup_fst_map_to_list rows) as Hnd.
  assert (∀ k v, (k, v) ∈ map_to_list rows → rows !! k = Some v) as Hl
    by (intros k v; apply elem_of_map_to_list).
  assert (∀ k v, rows !! k = Some v → (k, v) ∈ map_to_list rows) as Hr
    by (intros k v; apply elem_of_map_to_list).
  revert Hnd Hl Hr. generalize (map_to_list rows). intros l Hnd Hl Hr.
  cut (∃ d : adj, foldM (λ (d : adj) '(k, v),
                     ck ← getitem c k;
                     cd ← compact_dict c v nidx; Ok (<[ck := cd]> d)) ∅ l = Ok d ∧
            ∀ i cd, d !! i = Some cd ↔
                    ∃ k v, c !! k = Some i ∧ (k, v) ∈ l ∧
                           compact_dict c v nidx = Ok cd).
  { intros (d & Hd & Hlook). exists d. split; [done|].
    intros i cd. rewrite Hlook. naive_solver. }
  clear Hr. induction l as [|[k v] l IH] using rev_ind.
  - exists ∅. split; [done|]. intros i cd. rewrite lookup_empty.
    split; [done|]. intros (k & v & _ & Hin & _). by apply elem_of_nil in Hin.
  - rewrite fmap_app in Hnd. apply NoDup_app in Hnd as (Hnd & Hdisj & _).
    destruct IH as (d & Hd & Hlook); [done| |].
    { intros k' v' Hin. apply Hl, elem_of_app. by left. }
    assert (rows !! k = Some v) as Hkv.
    { apply Hl, elem_of_app. right. left. }
    assert (is_Some (c !! k)) as [ck Hck].
    { apply elem_of_dom, Hsub. by apply elem_of_dom_2 in Hkv. }
    destruct (compact_dict_spec c v nidx) as (cd0 & Hcd0 & _).
    { intros r. by apply Hrows with k. }
    rewrite foldM_snoc, Hd. simpl. rewrite (getitem_Some _ _ _ Hck). simpl.
    rewrite Hcd0. simpl. eexists. split; [done|].
    intros i cd. destruct (decide (ck = i)) as [<-|Hne].
    + rewrite lookup_insert_eq. split.
      * intros [= <-]. exists k, v. split_and!; [done| |done].
        apply elem_of_app. right. left.
      * intros (k' & v' & Hk' & Hin & Hcd).
        assert (k' = k) as -> by (by apply Hinj with ck).
        apply elem_of_app in Hin as [Hin|Hin].
        { exfalso. apply (Hdisj k); [|left].
          apply list_elem_of_fmap. by exists (k, v'). }
        apply list_elem_of_singleton in Hin as [= ->]. congruence.
    + rewrite lookup_insert_ne by done. rewrite Hlook. split.
      * intros (k' & v' & ? & ? & ?). exists k', v'.
        split_and!; [done| |done]. apply elem_of_app. by left.
      * intros (k' & v' & Hk' & Hin & Hcd). exists k', v'.
        split_and!; [done| |done].
        apply elem_of_app in Hin as [Hin|Hin]; [done|].
        apply list_elem_of_singleton in Hin as [= -> ->]. congruence.
Qed.
End BuilderFacts.

(** ** Adjacency maps *)

Lemma edge_w_Some (d : adj) a b w :
  edge_w d a b = Some w ↔ ∃ m, d !! a = Some m ∧ m !! b = Some w.
Proof. unfold edge_w. destruct (d !! a); simpl; naive_solver. Qed.

Lemma edge_w_lookup (d : adj) a b m :
  d !! a = Some m → edge_w d a b = m !! b.
Proof. unfold edge_w. by intros ->. Qed.

Lemma edge_w_dom (d : adj) a b : is_Some (edge_w d a b) → a ∈ dom d.
Proof.
  intros [w (m & Hm & _)%edge_w_Some]. by apply elem_of_dom_2 in Hm.
Qed.

Lemma getitem2_Ok (d : adj) a b w :
  edge_w d a b = Some w → getitem2 d a b = Ok w.
Proof.
  intros (m & Hm & Hw)%edge_w_Some. unfold getitem2.
  rewrite (getitem_Some _ _ _ Hm). simpl. by apply getitem_Some.
Qed.

Lemma elem_of_adj_items (d : adj) nd ind w :
  (nd, ind, w) ∈ adj_items d ↔ edge_w d nd ind = Some w.
Proof.
  unfold adj_items. rewrite list_elem_of_bind, edge_w_Some. split.
  - intros ([a m] & Hin & Hm%elem_of_map_to_list).
    apply list_elem_of_bind in Hin as ([b x] & Hin & Hx%elem_of_map_to_list).
    apply list_elem_of_singleton in Hin as [= -> -> ->]. eauto.
  - intros (m & Hm & Hw). exists (nd, m). split; [|by apply elem_of_map_to_list].
    apply list_elem_of_bind. exists (ind, w).
    split; [by apply list_elem_of_singleton|by apply elem_of_map_to_list].
Qed.

Lemma foldM_unit {A} (f : unit → A → result unit) (l : list A) :
  (∀ x, x ∈ l → f tt x = Ok tt) → foldM f tt l = Ok tt.
Proof.
  induction l as [|x l IH]; intros Hf; simpl; [done|].
  rewrite Hf by left. simpl. apply IH. intros y Hy. apply Hf. by right.
Qed.

Lemma py_assert_true `{Runtime} (c : result bool) :
  c = Ok true → py_assert c = Ok tt.
Proof. intros ->. unfold py_assert. by destruct py_debug. Qed.

Lemma assert_weight_Ok `{Runtime} (d : adj) a b w :
  edge_w d a b = Some w →
  py_assert (x ← getitem2 d a b; Ok (bool_decide (x = w))) = Ok tt.
Proof.
  intros Hw. apply py_assert_true. rewrite (getitem2_Ok _ _ _ _ Hw). simpl.
  by rewrite bool_decide_eq_true_2.
Qed.

Lemma check_built_symmetric `{Runtime} (input_dict output_dict : adj) :
  symmetric input_dict output_dict →
  check_built input_dict output_dict = Ok tt.
Proof.
  intros Hsym. unfold check_built.
  rewrite (foldM_unit _ (adj_items input_dict)); simpl.
  - apply foldM_unit. intros [[nd ind] w] Hin%elem_of_adj_items.
    apply assert_weight_Ok. by rewrite <-Hsym.
  - intros [[nd ind] w] Hin%elem_of_adj_items.
    apply assert_weight_Ok. by rewrite Hsym.
Qed.

(** ** What the builder guarantees *)

Section Built.
Context `{Runtime} `{Countable Node}.

Lemma compact_ids_lookup (node_ids : list Node) u i :
  NoDup node_ids → compact_ids node_ids !! u = Some i ↔ node_ids !! i = Some u.
Proof. apply lookup_enumerate_index. Qed.

Lemma compact_ids_size (node_ids : list Node) :
  NoDup node_ids → size (compact_ids node_ids) = length node_ids.
Proof.
  intros Hnd. rewrite <-size_dom. unfold compact_ids.
  rewrite dom_enumerate_index by done. by apply size_list_to_set.
Qed.

Lemma build_spec (g0 : rng) (connections : list (@row Node))
    (random_seed : Z) :
  ∃ b, build g0 connections random_seed = Ok b ∧ built_ok connections b.
Proof.
  unfold build, seed_generator.
  destruct (adjacency_lists_spec connections)
    as (ir & or & -> & Hdi & Hdo & Hir & Hor). simpl.
  set (U := nodes_from_connections_table connections) in *.
  pose proof (rng_shuffle_perm _ (rng_seed random_seed) connections) as Hp1.
  destruct (rng_shuffle row (rng_seed random_seed) connections)
    as [conns g1]. simpl in Hp1.
  pose proof (rng_shuffle_perm _ g1 (set_iter _ _ _ (dom ir))) as Hp2.
  destruct (rng_shuffle Node g1 (set_iter _ _ _ (dom ir))) as [node_ids g2].
  simpl in Hp2.
  pose proof (set_iter_perm _ _ _ (dom ir)) as Hp3.
  assert (node_ids ≡ₚ elements (dom ir)) as Hp4 by (by etrans).
  clear Hp2 Hp3. rename Hp4 into Hp2.
  assert (NoDup node_ids) as Hnd.
  { rewrite Hp2. apply NoDup_elements. }
  assert (∀ u, u ∈ node_ids ↔ u ∈ U) as Hids.
  { intros u. by rewrite Hp2, elem_of_elements, Hdi. }
  set (c := compact_ids node_ids).
  assert (dom c = U) as Hdc.
  { unfold c, compact_ids. rewrite dom_enumerate_index by done.
    apply set_eq. intros u. by rewrite elem_of_list_to_set. }
  assert (∀ u v i, c !! u = Some i → c !! v = Some i → u = v) as Hinj.
  { intros u v i Hu%compact_ids_lookup Hv%compact_ids_lookup; [|done..].
    congruence. }
  assert (∀ i, i < size c ↔ ∃ u, c !! u = Some i) as Hrange.
  { intros i. unfold c. rewrite compact_ids_size by done.
    rewrite <-lookup_lt_is_Some. unfold is_Some.
    by setoid_rewrite compact_ids_lookup. }
  assert (∀ r, r ∈ connections → r0 r ∈ dom c ∧ r1 r ∈ dom c) as Hends.
  { intros r Hr. rewrite Hdc. split; apply elem_of_nodes; eauto. }
  destruct (compact_all_spec c ir r0) as (input_dict & -> & Hin); [done| | |].
  { by rewrite Hdi, Hdc. }
  { intros k v r Hv Hr. rewrite (Hir _ _ Hv) in Hr.
    apply list_elem_of_filter in Hr as [_ Hr]. by apply Hends. }
  destruct (compact_all_spec c or r1) as (output_dict & -> & Hout); [done| | |].
  { by rewrite Hdo, Hdc. }
  { intros k v r Hv Hr. rewrite (Hor _ _ Hv) in Hr.
    apply list_elem_of_filter in Hr as [_ Hr]. by apply Hends. }
  simpl.
  (* the entries of the two dictionaries *)
  assert (∀ u v i j, c !! u = Some i → c !! v = Some j →
            edge_w output_dict i j = merged (λ r, r0 r = u ∧ r1 r = v) r2 connections)
    as Hwout.
  { intros u v i j Hu Hv.
    assert (is_Some (or !! u)) as [rows Hrows].
    { apply elem_of_dom. rewrite Hdo, <-Hdc. by apply elem_of_dom_2 in Hu. }
    destruct (compact_dict_spec c rows r1) as (cd & Hcd & Hlook).
    { intros r Hr. rewrite (Hor _ _ Hrows) in Hr.
      apply list_elem_of_filter in Hr as [_ Hr]. by apply Hends. }
    assert (output_dict !! i = Some cd) as Hi by (apply Hout; eauto).
    rewrite (edge_w_lookup _ _ _ _ Hi), Hlook, (Hor _ _ Hrows), merged_filter.
    apply merged_ext. intros r Hr. split.
    - intros [Hj Hu']. split; [done|]. by apply Hinj with j.
    - intros [Hu' <-]. done. }
  assert (∀ u v i j, c !! u = Some i → c !! v = Some j →
            edge_w input_dict j i = merged (λ r, r0 r = u ∧ r1 r = v) r2 connections)
    as Hwin.
  { intros u v i j Hu Hv.
    assert (is_Some (ir !! v)) as [rows Hrows].
    { apply elem_of_dom. rewrite Hdi, <-Hdc. by apply elem_of_dom_2 in Hv. }
    destruct (compact_dict_spec c rows r0) as (cd & Hcd & Hlook).
    { intros r Hr. rewrite (Hir _ _ Hrows) in Hr.
      apply list_elem_of_filter in Hr as [_ Hr]. by apply Hends. }
    assert (input_dict !! j = Some cd) as Hj by (apply Hin; eauto).
    rewrite (edge_w_lookup _ _ _ _ Hj), Hlook, (Hir _ _ Hrows), merged_filter.
    apply merged_ext. intros r Hr. split.
    - intros [Hi Hv']. split; [|done]. by apply Hinj with i.
    - intros [<- Hv']. done. }
  assert (∀ (d : adj) (rows : gmap Node (list row)) nidx,
            dom rows = U →
            (∀ i cd, d !! i = Some cd ↔
               ∃ k v, c !! k = Some i ∧ rows !! k = Some v ∧
                      compact_dict c v nidx = Ok cd) →
            (∀ k v r, rows !! k = Some v → r ∈ v → nidx r ∈ dom c) →
            dom d = set_seq 0 (size c) ∧
            ∀ i j, is_Some (edge_w d i j) → j < size c) as Hgen.
  { intros d rows nidx Hdr Hd Hrs. split.
    - apply set_eq. intros i. rewrite elem_of_set_seq, elem_of_dom.
      transitivity (i < size c); [|lia]. rewrite Hrange. split.
      + intros [cd (k & v & ? & _)%Hd]. eauto.
      + intros [u Hu].
        assert (is_Some (rows !! u)) as [v Hv].
        { apply elem_of_dom. rewrite Hdr, <-Hdc. by apply elem_of_dom_2 in Hu. }
        destruct (compact_dict_spec c v nidx) as (cd & Hcd & _).
        { intros r. by apply Hrs with u. }
        exists cd. apply Hd. eauto.
    - intros i j [w (cd & (k & v & Hk & Hv & Hcd)%Hd & Hw)%edge_w_Some].
      destruct (compact_dict_spec c v nidx) as (cd' & Hcd' & Hlook).
      { intros r. by apply Hrs with k. }
      assert (cd' = cd) as -> by congruence.
      rewrite Hlook in Hw.
      destruct (proj1 (merged_is_Some r2 _ v) (mk_is_Some _ _ Hw))
        as (r & Hr & Hj).
      apply Hrange. eauto. }
  destruct (Hgen input_dict ir r0) as [Hdin Hcin]; [done..| |].
  { intros k v r Hv Hr. rewrite (Hir _ _ Hv) in Hr.
    apply list_elem_of_filter in Hr as [_ Hr]. by apply Hends. }
  destruct (Hgen output_dict or r1) as [Hdout Hcout]; [done..| |].
  { intros k v r Hv Hr. rewrite (Hor _ _ Hv) in Hr.
    apply list_elem_of_filter in Hr as [_ Hr]. by apply Hends. }
  assert (∀ (d : adj) i j, dom d = set_seq 0 (size c) →
            is_Some (edge_w d i j) → i < size c) as Hleft.
  { intros d i j Hd Hw%edge_w_dom. rewrite Hd in Hw.
    apply elem_of_set_seq in Hw. lia. }
  assert (symmetric input_dict output_dict) as Hsym.
  { intros a b.
    destruct (edge_w output_dict a b) as [w|] eqn:Ho.
    - assert (a < size c) as [u Hu]%Hrange
        by (apply (Hleft output_dict a b); [done|by rewrite Ho]).
      assert (b < size c) as [v Hv]%Hrange
        by (apply (Hcout a b); by rewrite Ho).
      rewrite <-Ho. rewrite (Hwout u v), (Hwin u v); done.
    - destruct (edge_w input_dict b a) as [w|] eqn:Hi; [|done].
      assert (b < size c) as [v Hv]%Hrange
        by (apply (Hleft input_dict b a); [done|by rewrite Hi]).
      assert (a < size c) as [u Hu]%Hrange
        by (apply (Hcin b a); by rewrite Hi).
      rewrite <-Ho, <-Hi. rewrite (Hwout u v), (Hwin u v); done. }
  rewrite check_built_symmetric by done. simpl.
  eexists. split; [done|]. split; simpl; try done.
  intros i j Hw. split; [by eapply Hleft|by eapply Hcout].
Qed.
End Built.

(** ** Backward weight of an order *)

Section Sums.
Context {A : Type}.
Implicit Types (f g : A → Z) (l : list A).

Lemma sumZ_app f l1 l2 : sumZ f (l1 ++ l2) = (sumZ f l1 + sumZ f l2)%Z.
Proof. induction l1 as [|x l1 IH]; simpl; [done|]. rewrite IH. lia. Qed.

Lemma sumZ_ext f g l : (∀ x, x ∈ l → f x = g x) → sumZ f l = sumZ g l.
Proof.
  induction l as [|x l IH]; intros Hfg; simpl; [done|].
  rewrite Hfg by left. rewrite IH; [done|]. intros y Hy. apply Hfg. by right.
Qed.

Lemma sumZ_zero f l : (∀ x, x ∈ l → f x = 0%Z) → sumZ f l = 0%Z.
Proof.
  induction l as [|x l IH]; intros Hf; simpl; [done|].
  rewrite Hf by left. rewrite IH; [done|]. intros y Hy. apply Hf. by right.
Qed.

Lemma sumZ_plus f g l :
  sumZ (λ x, (f x + g x)%Z) l = (sumZ f l + sumZ g l)%Z.
Proof. induction l as [|x l IH]; simpl; [done|]. rewrite IH. lia. Qed.

Lemma sumZ_perm f l1 l2 : l1 ≡ₚ l2 → sumZ f l1 = sumZ f l2.
Proof.
  induction 1 as [|x l1 l2 _ IH|x y l|l1 l2 l3 _ IH1 _ IH2]; simpl; lia.
Qed.

Lemma sumZ_fmap {B} (h : B → A) f (l : list B) :
  sumZ f (h <$> l) = sumZ (λ x, f (h x)) l.
Proof. induction l as [|x l IH]; csimpl; [done|]. by rewrite IH. Qed.

Lemma sumZ_filter f (P : A → Prop) `{!∀ x, Decision (P x)} l :
  sumZ f (filter P l) = sumZ (λ x, if decide (P x) then f x else 0%Z) l.
Proof.
  induction l as [|x l IH]; simpl; [done|].
  rewrite filter_cons. destruct (decide (P x)); simpl; by rewrite IH.
Qed.

Lemma sumZ_merged (P : A → Prop) `{!∀ x, Decision (P x)} f l :
  default 0%Z (merged P f l) = sumZ (λ x, if decide (P x) then f x else 0%Z) l.
Proof.
  induction l as [|x l IH]; simpl; [done|].
  destruct (decide (P x)); simpl; by rewrite IH.
Qed.
End Sums.

Lemma sum_list_sumZ (l : list Z) : sum_list l = sumZ id l.
Proof.
  induction l as [|x l IH]; [done|]. rewrite sum_list_cons, IH. done.
Qed.

Lemma sumZ_indicator `{EqDecision A} (a : A) (w : Z) (l : list A) :
  NoDup l →
  sumZ (λ x, if decide (x = a) then w else 0%Z) l
  = if decide (a ∈ l) then w else 0%Z.
Proof.
  induction 1 as [|x l Hx Hnd IH].
  - destruct (decide (a ∈ [])) as [Hin|]; [by apply elem_of_nil in Hin|done].
  - change (sumZ ?f (x :: l)) with (f x + sumZ f l)%Z. cbv beta.
    rewrite IH. destruct (decide (x = a)) as [->|Hne].
    + rewrite (decide_False (P := a ∈ l)) by done.
      rewrite (decide_True (P := a ∈ a :: l)) by left. lia.
    + destruct (decide (a ∈ l)).
      * rewrite (decide_True (P := a ∈ x :: l)) by (by right). lia.
      * rewrite (decide_False (P := a ∈ x :: l)); [lia|].
        rewrite elem_of_cons. naive_solver.
Qed.

Section BackwardWeight.
Implicit Types (f g : nat → nat → Z) (ord : list nat).

Lemma backward_weight_ext f g ord :
  (∀ a b, a ∈ ord → b ∈ ord → f a b = g a b) →
  backward_weight f ord = backward_weight g ord.
Proof.
  induction ord as [|a l IH]; intros Hfg; simpl; [done|].
  rewrite IH by (intros x y Hx Hy; apply Hfg; by right).
  f_equal. apply sumZ_ext. intros b Hb. apply Hfg; [by right|left].
Qed.

Lemma backward_weight_plus f g ord :
  backward_weight (λ a b, (f a b + g a b)%Z) ord
  = (backward_weight f ord + backward_weight g ord)%Z.
Proof.
  induction ord as [|a l IH]; simpl; [done|]. rewrite IH, sumZ_plus. lia.
Qed.

Lemma backward_weight_zero f ord :
  (∀ a b, a ∈ ord → b ∈ ord → f a b = 0%Z) → backward_weight f ord = 0%Z.
Proof.
  induction ord as [|a l IH]; intros Hf; simpl; [done|].
  rewrite IH by (intros x y Hx Hy; apply Hf; by right).
  rewrite sumZ_zero; [done|]. intros b Hb. apply Hf; [by right|left].
Qed.

(** Placing [a] in front: the edges into [a] become backward. *)
Lemma backward_weight_cons f a ord :
  backward_weight f (a :: ord)
  = (sumZ (λ b, f b a) ord + backward_weight f ord)%Z.
Proof. done. Qed.

(** Placing [b] at the end: the edges out of [b] become backward. *)
Lemma backward_weight_snoc f ord b :
  backward_weight f (ord ++ [b])
  = (backward_weight f ord + sumZ (λ a, f b a) ord)%Z.
Proof.
  induction ord as [|a l IH]; simpl; [done|].
  rewrite IH, sumZ_app. simpl. lia.
Qed.

Lemma backward_weight_app f l1 l2 :
  backward_weight f (l1 ++ l2)
  = (backward_weight f l1 + backward_weight f l2
     + sumZ (λ a, sumZ (λ b, f b a) l2) l1)%Z.
Proof.
  induction l1 as [|a l1 IH]; simpl; [lia|]. rewrite IH, sumZ_app. lia.
Qed.

(** A single edge [a → b] counts iff [b] is placed before [a]. *)
Lemma backward_weight_single a b w ord i j :
  NoDup ord → ord !! i = Some a → ord !! j = Some b →
  backward_weight (single_edge a b w) ord = if decide (j < i) then w else 0%Z.
Proof.
  intros Hnd. revert i j.
  induction Hnd as [|x l Hx Hnd IH]; intros i j Hi Hj; [done|].
  simpl.
  assert (∀ ll, x ∉ ll → x = a →
            sumZ (λ y, single_edge a b w y x) ll = 0%Z) as Hsrc.
  { intros ll Hll ->. apply sumZ_zero. intros y Hy. unfold single_edge.
    rewrite decide_False; [done|]. intros [-> _]. done. }
  destruct (decide (j < i)) as [Hlt|Hge].
  - destruct i as [|i]; [lia|]. destruct j as [|j]; simplify_eq/=.
    + rewrite backward_weight_zero.
      * rewrite (sumZ_ext _ (λ y, if decide (y = a) then w else 0%Z)).
        -- rewrite sumZ_indicator by done. rewrite decide_True; [lia|].
           by apply list_elem_of_lookup_2 in Hi.
        -- intros y Hy. unfold single_edge. repeat case_decide; naive_solver.
      * intros c d Hc Hd. unfold single_edge.
        rewrite decide_False; [done|]. intros [_ ->]. done.
    + rewrite (IH i j) by done. rewrite decide_True by lia.
      rewrite sumZ_zero; [lia|].
      intros y Hy. unfold single_edge.
      rewrite decide_False; [done|]. intros [_ ->].
      apply Hx. by apply list_elem_of_lookup_2 in Hj.
  - destruct i as [|i]; simplify_eq/=.
    + rewrite Hsrc by done. rewrite backward_weight_zero; [done|].
      intros c d Hc Hd. unfold single_edge.
      rewrite decide_False; [done|]. intros [-> _]. done.
    + destruct j as [|j]; [lia|]. simplify_eq/=.
      rewrite (IH i j) by done. rewrite decide_False by lia.
      rewrite sumZ_zero; [lia|].
      intros y Hy. unfold single_edge.
      rewrite decide_False; [done|]. intros [_ ->].
      apply Hx. by apply list_elem_of_lookup_2 in Hj.
Qed.

(** Two opposite edges of the same weight between two placed nodes
    contribute that weight once, whatever the order. *)
Lemma backward_weight_opposite a b w ord :
  NoDup ord → a ∈ ord → b ∈ ord → a ≠ b →
  backward_weight
    (λ x y, (single_edge a b w x y + single_edge b a w x y)%Z) ord = w.
Proof.
  intros Hnd [i Hi]%list_elem_of_lookup [j Hj]%list_elem_of_lookup Hne.
  rewrite backward_weight_plus.
  rewrite (backward_weight_single a b w ord i j) by done.
  rewrite (backward_weight_single b a w ord j i) by done.
  assert (i ≠ j) by (intros ->; congruence).
  repeat case_decide; lia.
Qed.

Lemma backward_weight_perm_fn f ord :
  (∀ a b, f a b = f b a) →
  ∀ ord', ord ≡ₚ ord' → backward_weight f ord = backward_weight f ord'.
Proof.
  intros Hsym ord' Hp.
  induction Hp as [|x l1 l2 Hp IH|x y l|l1 l2 l3 _ IH1 _ IH2]; simpl.
  - done.
  - rewrite IH. f_equal. by apply sumZ_perm.
  - rewrite (Hsym x y). lia.
  - lia.
Qed.
End BackwardWeight.

(** ** Well-formed graphs *)

Lemma graph_ok_closed V input_dict output_dict a b :
  graph_ok V input_dict output_dict →
  is_Some (edge_w output_dict a b) → a ∈ V ∧ b ∈ V.
Proof.
  intros [Hdi Hdo Hsym] Hw. split.
  - rewrite <-Hdo. by eapply edge_w_dom.
  - rewrite Hsym in Hw. rewrite <-Hdi. by eapply edge_w_dom.
Qed.

Lemma delitem2_spec (d : adj) a b :
  is_Some (edge_w d a b) →
  ∃ d', delitem2 d a b = Ok d' ∧ dom d' = dom d ∧
        ∀ x y, edge_w d' x y = if decide (x = a ∧ y = b) then None
                               else edge_w d x y.
Proof.
  intros [w (m & Hm & Hw)%edge_w_Some]. unfold delitem2.
  rewrite (getitem_Some _ _ _ Hm). simpl.
  rewrite (delitem_Some _ _ _ Hw). simpl.
  eexists. split; [done|]. split.
  - rewrite dom_insert_L. apply elem_of_dom_2 in Hm. set_solver.
  - intros x y. unfold edge_w. destruct (decide (x = a)) as [->|Hx].
    + rewrite lookup_insert_eq, Hm. simpl. destruct (decide (y = b)) as [->|Hy].
      * rewrite decide_True by done. apply lookup_delete_eq.
      * rewrite decide_False by naive_solver. by apply lookup_delete_ne.
    + rewrite lookup_insert_ne by done. rewrite decide_False by naive_solver.
      done.
Qed.

Lemma subitem2_spec (d : adj) a b v w :
  edge_w d a b = Some v →
  ∃ d', subitem2 d a b w = Ok d' ∧ dom d' = dom d ∧
        ∀ x y, edge_w d' x y = if decide (x = a ∧ y = b) then Some (v - w)%Z
                               else edge_w d x y.
Proof.
  intros (m & Hm & Hw)%edge_w_Some. unfold subitem2.
  rewrite (getitem_Some _ _ _ Hm). simpl.
  rewrite (getitem_Some _ _ _ Hw). simpl.
  eexists. split; [done|]. split.
  - rewrite dom_insert_L. apply elem_of_dom_2 in Hm. set_solver.
  - intros x y. unfold edge_w. destruct (decide (x = a)) as [->|Hx].
    + rewrite lookup_insert_eq, Hm. simpl. destruct (decide (y = b)) as [->|Hy].
      * rewrite decide_True by done. apply lookup_insert_eq.
      * rewrite decide_False by naive_solver. by apply lookup_insert_ne.
    + rewrite lookup_insert_ne by done. rewrite decide_False by naive_solver.
      done.
Qed.

Lemma NoDup_adj_items (d : adj) : NoDup (adj_items d).
Proof.
  unfold adj_items. apply NoDup_bind.
  - intros [a m] [a' m'] [[x y] w] Hm%elem_of_map_to_list Hm'%elem_of_map_to_list.
    intros ([? ?] & Hi & _)%list_elem_of_bind ([? ?] & Hi' & _)%list_elem_of_bind.
    apply list_elem_of_singleton in Hi as [= -> -> ->].
    apply list_elem_of_singleton in Hi' as [= -> _ _]. congruence.
  - intros [a m] _. apply NoDup_bind.
    + intros [b w] [b' w'] [[x y] z] _ _.
      intros [= -> -> ->]%list_elem_of_singleton.
      intros [= ? ?]%list_elem_of_singleton. congruence.
    + intros [b w] _. apply NoDup_singleton.
    + apply NoDup_map_to_list.
  - apply NoDup_map_to_list.
Qed.

(** ** Anti-parallel resolver *)

Section ResolverFacts.
Context `{Runtime}.

Lemma find_anti_parallel_spec V (input_dict output_dict : adj) :
  graph_ok V input_dict output_dict →
  ∃ apl, find_anti_parallel input_dict = Ok apl ∧ NoDup apl ∧
         ∀ n1 n2, (n1, n2) ∈ apl ↔
                  n2 < n1 ∧ is_Some (edge_w output_dict n1 n2) ∧
                  is_Some (edge_w output_dict n2 n1).
Proof.
  intros Hg. unfold find_anti_parallel.
  pose proof (NoDup_adj_items input_dict) as Hnd.
  edestruct (foldM_invariant
    (λ (done : list (nat * nat * Z)) (acc : list (nat * nat)),
       NoDup acc ∧
       ∀ n1 n2, (n1, n2) ∈ acc ↔
                n2 < n1 ∧ is_Some (edge_w input_dict n1 n2) ∧
                ∃ w, (n2, n1, w) ∈ done))
    as (apl & Hrun & Hnd' & Hin); last first.
  { exists apl. split; [exact Hrun|]. split; [done|].
    intros n1 n2. rewrite Hin, <-!(g_sym _ _ _ Hg).
    unfold is_Some. setoid_rewrite elem_of_adj_items.
    rewrite !(g_sym _ _ _ Hg). naive_solver. }
  - intros l1 [[nd ind] w] l2 acc Hl [Hnacc Hacc].
    assert (edge_w input_dict nd ind = Some w) as Hw.
    { apply elem_of_adj_items. rewrite Hl. apply elem_of_app. right. left. }
    assert (is_Some (input_dict !! ind)) as [m Hm].
    { apply elem_of_dom. rewrite (g_dom_in _ _ _ Hg).
      eapply (graph_ok_closed V input_dict output_dict ind nd); [done|].
      by rewrite (g_sym _ _ _ Hg), Hw. }
    assert (∀ n1 n2 (extra : Prop),
              (extra ↔ n1 = ind ∧ n2 = nd ∧ nd < ind ∧ is_Some (m !! nd)) →
              ((n1, n2) ∈ acc ∨ extra) ↔
              n2 < n1 ∧ is_Some (edge_w input_dict n1 n2) ∧
              ∃ w0, (n2, n1, w0) ∈ l1 ++ [(nd, ind, w)]) as Hcase.
    { intros n1 n2 extra ->. rewrite Hacc.
      setoid_rewrite elem_of_app. setoid_rewrite list_elem_of_singleton.
      split.
      - intros [(? & ? & w0 & ?)|(-> & -> & ? & ?)]; [by eauto 10|].
        rewrite (edge_w_lookup _ _ _ _ Hm). eauto 10.
      - intros (Hlt & Hsome & w0 & [Hin|[= -> -> ->]]); [by eauto 10|].
        right. rewrite (edge_w_lookup _ _ _ _ Hm) in Hsome. done. }
    case_decide as Hlt.
    + rewrite (getitem_Some _ _ _ Hm). simpl. case_decide as Hback.
      * eexists. split; [done|]. split.
        -- apply NoDup_app. split; [done|]. split; [|apply NoDup_singleton].
           intros [n1 n2] Hin [= -> ->]%list_elem_of_singleton.
           apply Hacc in Hin as (_ & _ & w0 & Hin).
           assert (w0 = w) as ->.
           { assert (edge_w input_dict nd ind = Some w0) as Hw0.
             { apply elem_of_adj_items. rewrite Hl. apply elem_of_app. by left. }
             congruence. }
           rewrite Hl in Hnd. apply NoDup_app in Hnd as (_ & Hdisj & _).
           apply (Hdisj _ Hin). left.
        -- intros n1 n2. rewrite elem_of_app, list_elem_of_singleton.
           apply Hcase. naive_solver.
      * eexists. split; [done|]. split; [done|].
        intros n1 n2. rewrite <-(Hcase n1 n2 False); naive_solver.
    + eexists. split; [done|]. split; [done|].
      intros n1 n2. rewrite <-(Hcase n1 n2 False); naive_solver.
  - split; [apply NoDup_nil_2|]. intros n1 n2. split.
    + by intros ?%elem_of_nil.
    + intros (_ & _ & w & ?%elem_of_nil). done.
Qed.
End ResolverFacts.

Section ResolvePair.
Context `{Runtime}.

(** One round of the resolution loop on a pair with edges in both
    directions. *)
Lemma resolve_pair_spec V input_dict output_dict feedback_val n1 n2 w12 w21 :
  graph_ok V input_dict output_dict →
  n1 ≠ n2 →
  edge_w output_dict n1 n2 = Some w12 →
  edge_w output_dict n2 n1 = Some w21 →
  ∃ input_dict' output_dict',
    resolve_pair (input_dict, output_dict, feedback_val) (n1, n2)
    = Ok (input_dict', output_dict', (feedback_val + Z.min w12 w21)%Z) ∧
    graph_ok V input_dict' output_dict' ∧
    ∀ x y, edge_w output_dict' x y =
           if decide (x = n1 ∧ y = n2) then
             (if decide (w12 > w21)%Z then Some (w12 - w21)%Z else None)
           else if decide (x = n2 ∧ y = n1) then
             (if decide (w12 > w21)%Z then None else Some (w21 - w12)%Z)
           else edge_w output_dict x y.
Proof.
  intros Hg Hne H12 H21.
  pose proof (g_sym _ _ _ Hg) as Hsym.
  assert (edge_w input_dict n2 n1 = Some w12) as Hi12 by (by rewrite <-Hsym).
  assert (edge_w input_dict n1 n2 = Some w21) as Hi21 by (by rewrite <-Hsym).
  unfold resolve_pair.
  rewrite (getitem2_Ok _ _ _ _ H12). simpl.
  rewrite py_assert_true; last first.
  { rewrite (getitem2_Ok _ _ _ _ Hi12). simpl. by rewrite bool_decide_eq_true_2. }
  simpl. rewrite (getitem2_Ok _ _ _ _ H21). simpl.
  rewrite py_assert_true; last first.
  { rewrite (getitem2_Ok _ _ _ _ Hi21). simpl. by rewrite bool_decide_eq_true_2. }
  simpl. destruct (decide (w12 > w21)%Z) as [Hgt|Hle].
  - destruct (delitem2_spec output_dict n2 n1) as (o1 & -> & Hdo1 & Ho1);
      [by rewrite H21|]. simpl.
    destruct (delitem2_spec input_dict n1 n2) as (i1 & -> & Hdi1 & Hi1);
      [by rewrite Hi21|]. simpl.
    destruct (subitem2_spec o1 n1 n2 w12 w21) as (o2 & -> & Hdo2 & Ho2).
    { rewrite Ho1, decide_False by naive_solver. done. }
    simpl.
    destruct (subitem2_spec i1 n2 n1 w12 w21) as (i2 & -> & Hdi2 & Hi2).
    { rewrite Hi1, decide_False by naive_solver. done. }
    simpl. eexists _, _. split; [f_equal; f_equal; lia|]. split.
    + split.
      * rewrite Hdi2, Hdi1. apply Hg.
      * rewrite Hdo2, Hdo1. apply Hg.
      * intros a b. rewrite Ho2, Hi2, Ho1, Hi1, Hsym.
        repeat case_decide; naive_solver.
    + intros x y. rewrite Ho2, Ho1. repeat case_decide; naive_solver.
  - destruct (delitem2_spec output_dict n1 n2) as (o1 & -> & Hdo1 & Ho1);
      [by rewrite H12|]. simpl.
    destruct (delitem2_spec input_dict n2 n1) as (i1 & -> & Hdi1 & Hi1);
      [by rewrite Hi12|]. simpl.
    destruct (subitem2_spec o1 n2 n1 w21 w12) as (o2 & -> & Hdo2 & Ho2).
    { rewrite Ho1, decide_False by naive_solver. done. }
    simpl.
    destruct (subitem2_spec i1 n1 n2 w21 w12) as (i2 & -> & Hdi2 & Hi2).
    { rewrite Hi1, decide_False by naive_solver. done. }
    simpl. eexists _, _. split; [f_equal; f_equal; lia|]. split.
    + split.
      * rewrite Hdi2, Hdi1. apply Hg.
      * rewrite Hdo2, Hdo1. apply Hg.
      * intros a b. rewrite Ho2, Hi2, Ho1, Hi1, Hsym.
        repeat case_decide; naive_solver.
    + intros x y. rewrite Ho2, Ho1. repeat case_decide; naive_solver.
Qed.

(** The loop over a list of distinct anti-parallel pairs. *)
Lemma resolve_pairs_spec V (l : list (nat * nat)) :
  NoDup l →
  ∀ input_dict output_dict feedback_val,
  graph_ok V input_dict output_dict →
  (∀ n1 n2, (n1, n2) ∈ l →
     n2 < n1 ∧ is_Some (edge_w output_dict n1 n2) ∧
     is_Some (edge_w output_dict n2 n1)) →
  ∃ input_dict' output_dict',
    foldM resolve_pair (input_dict, output_dict, feedback_val) l
    = Ok (input_dict', output_dict',
          (feedback_val
           + sumZ (λ p, Z.min (wf output_dict p.1 p.2) (wf output_dict p.2 p.1)) l)%Z) ∧
    graph_ok V input_dict' output_dict' ∧
    (∀ x y, edge_w output_dict' x y =
            if decide ((x, y) ∈ l ∨ (y, x) ∈ l)
            then net x y (wf output_dict x y) (wf output_dict y x)
            else edge_w output_dict x y) ∧
    (∀ ord, NoDup ord → (∀ n1 n2, (n1, n2) ∈ l → n1 ∈ ord ∧ n2 ∈ ord) →
            backward_weight (wf output_dict) ord
            = (sumZ (λ p, Z.min (wf output_dict p.1 p.2) (wf output_dict p.2 p.1)) l
               + backward_weight (wf output_dict') ord)%Z).
Proof.
  induction 1 as [|[n1 n2] l Hnotin Hnd IH];
    intros input_dict output_dict feedback_val Hg Hl.
  - exists input_dict, output_dict. split; [simpl; f_equal; f_equal; lia|].
    split; [done|]. split.
    + intros x y. case_decide as Hd; [|done].
      destruct Hd as [?%elem_of_nil|?%elem_of_nil]; done.
    + intros ord _ _. simpl. lia.
  - destruct (Hl n1 n2) as (Hlt & [w12 H12] & [w21 H21]); [left|].
    destruct (resolve_pair_spec V input_dict output_dict feedback_val
                n1 n2 w12 w21) as (i1 & o1 & Hrun & Hg1 & Ho1);
      [done|lia|done..|].
    assert (∀ x y, (x, y) ∈ l ∨ (y, x) ∈ l →
              edge_w o1 x y = edge_w output_dict x y) as Hsame.
    { intros x y Hxy. rewrite Ho1.
      assert (¬ (x = n1 ∧ y = n2) ∧ ¬ (x = n2 ∧ y = n1)) as [??].
      { split; intros [-> ->]; destruct Hxy as [Hin|Hin]; try done.
        - destruct (Hl n2 n1) as (? & _); [by right|lia].
        - destruct (Hl n2 n1) as (? & _); [by right|lia]. }
      by rewrite !decide_False. }
    assert (∀ x y, (x, y) ∈ l ∨ (y, x) ∈ l → wf o1 x y = wf output_dict x y)
      as Hsamew.
    { intros x y Hxy. unfold wf. by rewrite Hsame. }
    destruct (IH i1 o1 (feedback_val + Z.min w12 w21)%Z)
      as (i2 & o2 & Hrun2 & Hg2 & Ho2 & Hbw2); [done| |].
    { intros m1 m2 Hm. rewrite !Hsame by auto. apply Hl. by right. }
    assert (sumZ (λ p, Z.min (wf o1 p.1 p.2) (wf o1 p.2 p.1)) l
            = sumZ (λ p, Z.min (wf output_dict p.1 p.2) (wf output_dict p.2 p.1)) l)
      as Hsum.
    { apply sumZ_ext. intros [m1 m2] Hm. simpl.
      rewrite !Hsamew by auto. done. }
    assert (wf output_dict n1 n2 = w12 ∧ wf output_dict n2 n1 = w21) as [Hw12 Hw21].
    { unfold wf. by rewrite H12, H21. }
    exists i2, o2.
    split; [rewrite foldM_cons, Hrun, bind_Ok_l, Hrun2;
            f_equal; f_equal; simpl; rewrite Hsum, Hw12, Hw21; lia|].
    split; [done|]. split.
    + intros x y. rewrite Ho2.
      destruct (decide ((x, y) ∈ l ∨ (y, x) ∈ l)) as [Hin|Hnin].
      * rewrite decide_True by (rewrite !elem_of_cons; naive_solver).
        rewrite (Hsamew x y), (Hsamew y x) by naive_solver. done.
      * rewrite Ho1. unfold net.
        destruct (decide (x = n1 ∧ y = n2)) as [[-> ->]|Hn1].
        { rewrite (decide_True (P := (n1, n2) ∈ (n1, n2) :: l ∨ _))
            by (left; left).
          rewrite Hw12, Hw21. rewrite (decide_True (P := n2 < n1)) by done.
          repeat case_decide; try done; lia. }
        destruct (decide (x = n2 ∧ y = n1)) as [[-> ->]|Hn2].
        { rewrite (decide_True (P := (n2, n1) ∈ (n1, n2) :: l ∨ _))
            by (right; left).
          rewrite Hw12, Hw21. rewrite (decide_False (P := n1 < n2)) by lia.
          repeat case_decide; try done; lia. }
        rewrite (decide_False (P := (x, y) ∈ (n1, n2) :: l ∨ _)); [done|].
        rewrite !elem_of_cons. naive_solver.
    + intros ord Hord Hcov.
      destruct (Hcov n1 n2) as [Hc1 Hc2]; [left|].
      change (sumZ ?f ((n1, n2) :: l)) with (f (n1, n2) + sumZ f l)%Z.
      cbv beta. simpl fst. simpl snd.
      rewrite <-Hsum, Hw12, Hw21.
      rewrite <-Z.add_assoc, <-Hbw2; [|done|intros; apply Hcov; by right].
      rewrite <-(backward_weight_opposite n1 n2 (Z.min w12 w21) ord) at 1
        by (done || lia).
      rewrite <-backward_weight_plus. apply backward_weight_ext.
      intros a b _ _. unfold wf. rewrite Ho1. unfold single_edge.
      destruct (decide (a = n1 ∧ b = n2)) as [[-> ->]|Hn1].
      { rewrite H12. rewrite (decide_False (P := n1 = n2 ∧ n2 = n1)) by lia.
        case_decide; simpl; lia. }
      destruct (decide (a = n2 ∧ b = n1)) as [[-> ->]|Hn2].
      { rewrite H21. case_decide; simpl; lia. }
      lia.
Qed.
End ResolvePair.

Lemma net_exclusive a b x y :
  a ≠ b → is_Some (net a b x y) → net b a y x = None.
Proof.
  unfold net. intros Hne. repeat case_decide; try done; try lia.
  all: by intros [? ?].
Qed.

Lemma resolved_exclusive (d : adj) a b :
  a ≠ b → is_Some (resolved d a b) → resolved d b a = None.
Proof.
  unfold resolved. intros Hne.
  destruct (edge_w d a b) as [x|], (edge_w d b a) as [y|]; try done.
  rewrite !decide_False by done. by apply net_exclusive.
Qed.

Lemma foldM_unit_raise {A} (f : unit → A → result unit) (l : list A) (e : exn) :
  (∀ x, x ∈ l → f tt x = Ok tt ∨ f tt x = Raise e) →
  (∃ x, x ∈ l ∧ f tt x = Raise e) →
  foldM f tt l = Raise e.
Proof.
  induction l as [|x l IH]; intros Hall (x0 & Hx0 & Hbad).
  - by apply elem_of_nil in Hx0.
  - simpl. destruct (Hall x) as [Hx|Hx]; [left| |by rewrite Hx].
    rewrite Hx. simpl. apply IH.
    + intros y Hy. apply Hall. by right.
    + apply elem_of_cons in Hx0 as [->|Hx0]; [congruence|]. eauto.
Qed.

Section Resolved.
Context `{Runtime}.

(** The resolver never raises on a well-formed graph, and leaves of every
    anti-parallel pair what [resolved] says. *)
Lemma resolve_anti_parallel_spec V (input_dict output_dict : adj) :
  graph_ok V input_dict output_dict →
  ∃ apl input_dict' output_dict',
    find_anti_parallel input_dict = Ok apl ∧
    resolve_anti_parallel input_dict output_dict
    = Ok (input_dict', output_dict',
          sumZ (λ p, Z.min (wf output_dict p.1 p.2) (wf output_dict p.2 p.1)) apl) ∧
    NoDup apl ∧
    (∀ n1 n2, (n1, n2) ∈ apl ↔
              n2 < n1 ∧ is_Some (edge_w output_dict n1 n2) ∧
              is_Some (edge_w output_dict n2 n1)) ∧
    graph_ok V input_dict' output_dict' ∧
    (∀ a b, edge_w output_dict' a b = resolved output_dict a b) ∧
    (∀ ord, NoDup ord → (∀ a, a ∈ V → a ∈ ord) →
            backward_weight (wf output_dict) ord
            = (sumZ (λ p, Z.min (wf output_dict p.1 p.2) (wf output_dict p.2 p.1)) apl
               + backward_weight (wf output_dict') ord)%Z).
Proof.
  intros Hg. unfold resolve_anti_parallel.
  destruct (find_anti_parallel_spec V input_dict output_dict Hg)
    as (apl & Hfind & Hnd & Hapl).
  rewrite Hfind. simpl.
  destruct (resolve_pairs_spec V apl Hnd input_dict output_dict 0%Z Hg)
    as (i1 & o1 & Hrun & Hg1 & Ho1 & Hbw).
  { intros n1 n2. apply Hapl. }
  exists apl, i1, o1. split; [done|]. split; [by rewrite Hrun|].
  split; [done|]. split; [done|]. split; [done|]. split.
  - intros a b. rewrite Ho1. unfold resolved, wf.
    destruct (decide ((a, b) ∈ apl ∨ (b, a) ∈ apl)) as [Hin|Hnin].
    + assert (a ≠ b ∧ is_Some (edge_w output_dict a b)
              ∧ is_Some (edge_w output_dict b a)) as (Hne & [x Hx] & [y Hy]).
      { destruct Hin as [Hin|Hin]; apply Hapl in Hin; naive_solver lia. }
      rewrite Hx, Hy. simpl. by rewrite decide_False.
    + destruct (edge_w output_dict a b) as [x|] eqn:Hx; [|done].
      case_decide as Hab; [done|].
      destruct (edge_w output_dict b a) as [y|] eqn:Hy; [|done].
      exfalso. apply Hnin.
      destruct (decide (b < a)).
      * left. apply Hapl. rewrite Hx, Hy. naive_solver.
      * right. apply Hapl. rewrite Hx, Hy. split; [lia|naive_solver].
  - intros ord Hord Hcov. apply Hbw; [done|].
    intros n1 n2 (_ & H1 & _)%Hapl.
    destruct (graph_ok_closed V _ _ _ _ Hg H1). split; by apply Hcov.
Qed.

(** What the two assertions of the second sanity check do for one entry
    [d[nd][ind] = w], [d'] being the opposite dictionary. *)
Lemma check_resolved_item (d d' : adj) nd ind w :
  dom d = dom d' →
  (∀ a b, edge_w d a b = edge_w d' b a) →
  edge_w d nd ind = Some w →
  (_ ← py_assert (x ← getitem2 d' ind nd; Ok (bool_decide (x = w)));
   py_assert (m ← getitem d ind; Ok (bool_decide (m !! nd = None))))
  = if py_debug && bool_decide (is_Some (edge_w d ind nd))
    then Raise AssertionError else Ok tt.
Proof.
  intros Hdom Hs Hw.
  rewrite assert_weight_Ok by (by rewrite <-Hs). simpl.
  assert (is_Some (d !! ind)) as [m Hm].
  { apply elem_of_dom. rewrite Hdom. apply (edge_w_dom _ ind nd).
    by rewrite <-Hs, Hw. }
  unfold py_assert. destruct py_debug; [|done]. simpl.
  rewrite (getitem_Some _ _ _ Hm). simpl.
  rewrite (edge_w_lookup _ _ _ _ Hm).
  destruct (m !! nd) as [x|] eqn:Hx.
  - rewrite bool_decide_eq_false_2 by done.
    by rewrite bool_decide_eq_true_2.
  - rewrite bool_decide_eq_true_2 by done.
    rewrite bool_decide_eq_false_2; [done|]. by intros [? ?].
Qed.

(** The second sanity check passes when no two nodes are joined in both
    directions and no node is joined to itself. *)
Lemma check_resolved_Ok V (input_dict output_dict : adj) :
  graph_ok V input_dict output_dict →
  (∀ a b, is_Some (edge_w output_dict a b) → edge_w output_dict b a = None) →
  check_resolved input_dict output_dict = Ok tt.
Proof.
  intros Hg Hanti. pose proof (g_sym _ _ _ Hg) as Hsym.
  assert (dom input_dict = dom output_dict) as Hdom
    by (by rewrite (g_dom_in _ _ _ Hg), (g_dom_out _ _ _ Hg)).
  unfold check_resolved.
  rewrite (foldM_unit _ (adj_items input_dict)); simpl.
  - apply foldM_unit. intros [[nd ind] w] Hin%elem_of_adj_items.
    rewrite (check_resolved_item output_dict input_dict); [|done..].
    rewrite (Hanti nd ind) by (by rewrite Hin).
    rewrite bool_decide_eq_false_2 by (by intros [? ?]).
    by rewrite andb_false_r.
  - intros [[nd ind] w] Hin%elem_of_adj_items.
    rewrite (check_resolved_item input_dict output_dict); [|done..].
    rewrite <-Hsym, (Hanti ind nd) by (by rewrite Hsym, Hin).
    rewrite bool_decide_eq_false_2 by (by intros [? ?]).
    by rewrite andb_false_r.
Qed.

(** Without [__debug__] the check does nothing. *)
Lemma check_resolved_release (input_dict output_dict : adj) :
  py_debug = false → check_resolved input_dict output_dict = Ok tt.
Proof.
  intros Hd. unfold check_resolved, py_assert. rewrite Hd.
  rewrite (foldM_unit _ (adj_items input_dict)); simpl.
  - apply foldM_unit. by intros [[nd ind] w] _.
  - by intros [[nd ind] w] _.
Qed.

(** With [__debug__] the check fails as soon as some node is joined to
    itself. *)
Lemma check_resolved_self_loop V (input_dict output_dict : adj) a :
  graph_ok V input_dict output_dict →
  py_debug = true →
  is_Some (edge_w output_dict a a) →
  check_resolved input_dict output_dict = Raise AssertionError.
Proof.
  intros Hg Hd [w Hw]. pose proof (g_sym _ _ _ Hg) as Hsym.
  assert (dom input_dict = dom output_dict) as Hdom
    by (by rewrite (g_dom_in _ _ _ Hg), (g_dom_out _ _ _ Hg)).
  unfold check_resolved.
  rewrite (foldM_unit_raise _ (adj_items input_dict) AssertionError); [done| |].
  - intros [[nd ind] x] Hin%elem_of_adj_items.
    rewrite (check_resolved_item input_dict output_dict); [|done..].
    destruct (py_debug && _); auto.
  - exists (a, a, w). rewrite elem_of_adj_items, <-Hsym. split; [done|].
    rewrite (check_resolved_item input_dict output_dict);
      [|done|done|by rewrite <-Hsym].
    rewrite Hd, <-Hsym, Hw. done.
Qed.
End Resolved.

(** ** Bucket index *)

Lemma insert_to_bucket_member buckets node key k n :
  in_bucket (insert_to_bucket buckets node key) k n ↔
  in_bucket buckets k n ∨ (k = key ∧ n = node).
Proof.
  unfold insert_to_bucket, in_bucket.
  destruct (buckets !! key) as [s|] eqn:Hs.
  - destruct (decide (k = key)) as [->|Hne].
    + rewrite lookup_insert_eq. split.
      * intros (? & [= <-] & [?| ->%elem_of_singleton]%elem_of_union); eauto.
      * intros [(s' & Hs' & Hn)|[_ ->]]; eexists; (split; [done|]).
        -- apply elem_of_union. left. congruence.
        -- apply elem_of_union. right. by apply elem_of_singleton.
    + rewrite lookup_insert_ne by done. naive_solver.
  - destruct (decide (k = key)) as [->|Hne].
    + rewrite lookup_insert_eq, Hs. split.
      * intros (? & [= <-] & ->%elem_of_singleton). eauto.
      * intros [(s' & [=] & _)|[_ ->]]. eexists. split; [done|].
        by apply elem_of_singleton.
    + rewrite lookup_insert_ne by done. naive_solver.
Qed.

Lemma insert_to_bucket_nonempty buckets node key :
  no_empty_bucket buckets → no_empty_bucket (insert_to_bucket buckets node key).
Proof.
  unfold insert_to_bucket, no_empty_bucket. intros Hne k s.
  destruct (buckets !! key) as [s'|] eqn:Hs;
    (destruct (decide (k = key)) as [->|?];
     [rewrite lookup_insert_eq; intros [= <-]; set_solver
     |rewrite lookup_insert_ne by done; apply Hne]).
Qed.

Lemma drop_if_empty_member buckets key s k n :
  in_bucket (drop_if_empty buckets key s) k n ↔
  if decide (k = key) then n ∈ s else in_bucket buckets k n.
Proof.
  unfold drop_if_empty, in_bucket. destruct (decide (s = ∅)) as [->|Hs].
  - destruct (decide (k = key)) as [->|?].
    + rewrite lookup_delete_eq. set_solver.
    + by rewrite lookup_delete_ne.
  - destruct (decide (k = key)) as [->|?].
    + rewrite lookup_insert_eq. naive_solver.
    + by rewrite lookup_insert_ne.
Qed.

Lemma drop_if_empty_nonempty buckets key s :
  no_empty_bucket buckets → no_empty_bucket (drop_if_empty buckets key s).
Proof.
  unfold drop_if_empty, no_empty_bucket. intros Hne k s'.
  destruct (decide (s = ∅)) as [->|Hs].
  - intros [_ ?]%lookup_delete_Some. eauto.
  - destruct (decide (k = key)) as [->|?].
    + rewrite lookup_insert_eq. by intros [= <-].
    + rewrite lookup_insert_ne by done. apply Hne.
Qed.

Lemma remove_from_bucket_spec buckets node key :
  no_empty_bucket buckets → in_bucket buckets key node →
  ∃ buckets', remove_from_bucket buckets node key = Ok buckets' ∧
              no_empty_bucket buckets' ∧
              ∀ k n, in_bucket buckets' k n ↔
                     in_bucket buckets k n ∧ ¬ (k = key ∧ n = node).
Proof.
  intros Hne (s & Hs & Hn). unfold remove_from_bucket.
  rewrite (getitem_Some _ _ _ Hs). simpl. rewrite decide_True by done.
  eexists. split; [done|]. split; [by apply drop_if_empty_nonempty|].
  intros k n. rewrite drop_if_empty_member. unfold in_bucket.
  destruct (decide (k = key)) as [->|?]; [|naive_solver].
  rewrite elem_of_difference, elem_of_singleton. split.
  - intros [? ?]. split; [eauto|naive_solver].
  - intros [(s' & Hs' & Hn') Hnot]. split; [congruence|naive_solver].
Qed.

Lemma remove_from_bucket_absent buckets node key :
  ¬ in_bucket buckets key node →
  remove_from_bucket buckets node key = Raise KeyError.
Proof.
  intros Hnot. unfold remove_from_bucket, getitem.
  destruct (buckets !! key) as [s|] eqn:Hs; simpl; [|done].
  rewrite decide_False; [done|]. intros Hn. apply Hnot. by exists s.
Qed.

Lemma pop_from_bucket_spec `{Runtime} buckets key :
  no_empty_bucket buckets → bucket_nonempty buckets key = true →
  ∃ n buckets', pop_from_bucket buckets key = Ok (n, buckets') ∧
                in_bucket buckets key n ∧
                no_empty_bucket buckets' ∧
                ∀ k m, in_bucket buckets' k m ↔
                       in_bucket buckets k m ∧ ¬ (k = key ∧ m = n).
Proof.
  intros Hne Hk. unfold bucket_nonempty in Hk.
  destruct (buckets !! key) as [s|] eqn:Hs; [|done].
  apply bool_decide_eq_true in Hk.
  unfold pop_from_bucket. rewrite (getitem_Some _ _ _ Hs). simpl.
  rewrite decide_False by done.
  pose proof (set_pop_elem s Hk) as Hpop.
  eexists _, _. split; [done|]. split; [by exists s|].
  split; [by apply drop_if_empty_nonempty|].
  intros k n. rewrite drop_if_empty_member. unfold in_bucket.
  destruct (decide (k = key)) as [->|?]; [|naive_solver].
  rewrite elem_of_difference, elem_of_singleton. split.
  - intros [? ?]. split; [eauto|naive_solver].
  - intros [(s' & Hs' & Hn') Hnot]. split; [congruence|naive_solver].
Qed.

Lemma bucket_nonempty_true buckets key :
  no_empty_bucket buckets →
  bucket_nonempty buckets key = true ↔ ∃ n, in_bucket buckets key n.
Proof.
  intros Hne. unfold bucket_nonempty, in_bucket.
  destruct (buckets !! key) as [s|] eqn:Hs.
  - rewrite bool_decide_eq_true. split.
    + intros [n Hn]%set_choose_L. eauto.
    + intros _. by apply Hne with key.
  - split; [done|]. by intros (n & s & [=] & _).
Qed.

(** The initial filling of the buckets. *)
Lemma initial_buckets_spec (input_dict output_dict : adj) (num_nodes : nat) :
  no_empty_bucket (initial_buckets input_dict output_dict num_nodes) ∧
  ∀ k n, in_bucket (initial_buckets input_dict output_dict num_nodes) k n ↔
         n < num_nodes ∧ compute_bucket_key_for_node input_dict output_dict n = k.
Proof.
  unfold initial_buckets.
  induction num_nodes as [|N [IHne IHmem]].
  - split; [by intros k s|]. intros k n. unfold in_bucket. simpl.
    rewrite lookup_empty. split; [by intros (? & [=] & _)|lia].
  - rewrite seq_S, foldl_app. simpl. split.
    + by apply insert_to_bucket_nonempty.
    + intros k n. rewrite insert_to_bucket_member, IHmem.
      split; [|intros [Hlt <-]]; [naive_solver lia|].
      destruct (decide (n = N)) as [->|?]; [by right|left; split; [lia|done]].
Qed.

(** The node-to-key index built from disjoint buckets. *)
Lemma index_buckets_spec (buckets : bucket_map) :
  (∀ k k' n, in_bucket buckets k n → in_bucket buckets k' n → k = k') →
  ∀ k n, in_bucket buckets k n → index_buckets buckets !! n = Some k.
Proof.
  intros Hdisj. unfold index_buckets.
  assert (∀ (l : list nat) (k : bucket_key) (idx : gmap nat bucket_key) n,
            foldl (λ idx n, <[n := k]> idx) idx l !! n
            = if decide (n ∈ l) then Some k else idx !! n) as Hinner.
  { induction l as [|x l IH] using rev_ind; intros k idx n.
    - rewrite decide_False; [done|]. apply not_elem_of_nil.
    - rewrite foldl_app. simpl. destruct (decide (n = x)) as [->|Hne].
      + rewrite lookup_insert_eq, decide_True; [done|].
        apply elem_of_app. right. left.
      + rewrite lookup_insert_ne, IH by done.
        repeat case_decide; try done; set_solver. }
  assert (∀ l : list (bucket_key * gset nat),
            (∀ k s, (k, s) ∈ l → buckets !! k = Some s) →
            ∀ k s n, (k, s) ∈ l → n ∈ s →
              foldl (λ (idx : gmap nat bucket_key) '(k, v),
                       foldl (λ idx n, <[n := k]> idx) idx (elements v))
                    ∅ l !! n = Some k) as Houter.
  { induction l as [|[k0 s0] l IH] using rev_ind; intros Hl k s n Hin Hn.
    - by apply elem_of_nil in Hin.
    - rewrite foldl_app. simpl. rewrite Hinner.
      assert (buckets !! k0 = Some s0) as Hk0.
      { apply Hl, elem_of_app. right. left. }
      destruct (decide (n ∈ elements s0)) as [Hn0%elem_of_elements|Hn0].
      + f_equal. apply (Hdisj k0 k n); [by exists s0|].
        exists s. split; [|done]. by apply Hl.
      + apply elem_of_app in Hin as [Hin|Hin%list_elem_of_singleton].
        * apply (IH (λ k s H, Hl k s (proj2 (elem_of_app _ _ _) (or_introl H)))
                    k s n Hin Hn).
        * simplify_eq. by apply elem_of_elements in Hn. }
  intros k n (s & Hs & Hn).
  apply (Houter (map_to_list buckets)) with s; [|by apply elem_of_map_to_list|done].
  intros k' s'. apply elem_of_map_to_list.
Qed.

(** ** Removing a node from the graph *)

Lemma adj_eq (d d' : adj) :
  dom d = dom d' → (∀ a b, edge_w d a b = edge_w d' a b) → d = d'.
Proof.
  intros Hdom Hw. apply map_eq. intros a.
  destruct (d !! a) as [m|] eqn:Hm, (d' !! a) as [m'|] eqn:Hm'.
  - f_equal. apply map_eq. intros b.
    by rewrite <-(edge_w_lookup d a b m), <-(edge_w_lookup d' a b m').
  - apply elem_of_dom_2 in Hm. apply not_elem_of_dom in Hm'. set_solver.
  - apply elem_of_dom_2 in Hm'. apply not_elem_of_dom in Hm. set_solver.
  - done.
Qed.

Lemma edge_w_remove_node n (d : adj) a b :
  edge_w (remove_node n d) a b
  = if decide (a = n ∨ b = n) then None else edge_w d a b.
Proof.
  unfold edge_w, remove_node. destruct (decide (a = n)) as [->|Ha].
  - rewrite lookup_delete_eq. by rewrite decide_True by auto.
  - rewrite lookup_delete_ne, lookup_fmap by done.
    destruct (d !! a) as [m|]; simpl; [|by case_decide].
    destruct (decide (b = n)) as [->|Hb].
    + rewrite lookup_delete_eq. by rewrite decide_True by auto.
    + rewrite lookup_delete_ne by done. rewrite decide_False by naive_solver.
      done.
Qed.

Lemma dom_remove_node n (d : adj) : dom (remove_node n d) = dom d ∖ {[n]}.
Proof. unfold remove_node. by rewrite dom_delete_L, dom_fmap_L. Qed.

Lemma remove_node_lookup_ne n (d : adj) a :
  a ≠ n → edge_w d a n = None → remove_node n d !! a = d !! a.
Proof.
  intros Ha Hw. unfold remove_node. rewrite lookup_delete_ne, lookup_fmap by done.
  destruct (d !! a) as [m|] eqn:Hm; simpl; [|done].
  f_equal. apply delete_id. by rewrite <-(edge_w_lookup d a n m).
Qed.

Lemma graph_ok_remove_node V input_dict output_dict n :
  graph_ok V input_dict output_dict →
  graph_ok (V ∖ {[n]}) (remove_node n input_dict) (remove_node n output_dict).
Proof.
  intros [Hdi Hdo Hsym]. split.
  - by rewrite dom_remove_node, Hdi.
  - by rewrite dom_remove_node, Hdo.
  - intros a b. rewrite !edge_w_remove_node, Hsym.
    repeat case_decide; naive_solver.
Qed.

(** Deleting the entries [d[x][node]] for all [x] of a list. *)
Lemma delete_column_spec (d : adj) (node : nat) (l : list nat) :
  NoDup l →
  (∀ x, x ∈ l → is_Some (edge_w d x node)) →
  ∃ d', foldM (λ od x, delitem2 od x node) d l = Ok d' ∧
        dom d' = dom d ∧
        ∀ x y, edge_w d' x y = if decide (x ∈ l ∧ y = node) then None
                               else edge_w d x y.
Proof.
  intros Hnd Hl.
  edestruct (foldM_invariant
    (λ (done : list nat) (od : adj),
       dom od = dom d ∧
       ∀ x y, edge_w od x y = if decide (x ∈ done ∧ y = node) then None
                              else edge_w d x y))
    as (d' & Hrun & Hd'); last first.
  { exists d'. split; [exact Hrun|]. exact Hd'. }
  - intros l1 x l2 od -> [Hdom Hw].
    apply NoDup_app in Hnd as (_ & Hdisj & _).
    destruct (delitem2_spec od x node) as (od' & Hrun & Hdom' & Hw').
    { rewrite Hw, decide_False.
      - apply Hl, elem_of_app. right. left.
      - intros [Hx _]. apply (Hdisj x Hx). left. }
    exists od'. split; [done|]. split; [congruence|].
    intros a b. rewrite Hw', Hw.
    repeat case_decide; try done; set_solver.
  - split; [done|]. intros x y. rewrite decide_False; [done|].
    intros [?%elem_of_nil _]. done.
Qed.

(** ** Moving the neighbours of a removed node to their new buckets *)

Lemma rebucket_spec V kf (input_dict output_dict : adj) buckets idx m :
  buckets_ok V kf buckets idx → m ∈ V →
  ∃ buckets' idx',
    rebucket input_dict output_dict (buckets, idx) m = Ok (buckets', idx') ∧
    buckets_ok V
      (λ n, if decide (n = m)
            then compute_bucket_key_for_node input_dict output_dict m
            else kf n)
      buckets' idx'.
Proof.
  intros [Hne Hmem Hidx] Hm. unfold rebucket.
  rewrite (getitem_Some _ _ _ (Hidx m Hm)). simpl.
  destruct (remove_from_bucket_spec buckets m (kf m)) as (b1 & -> & Hne1 & Hmem1).
  { done. }
  { by apply Hmem. }
  simpl. eexists _, _. split; [done|]. split.
  - by apply insert_to_bucket_nonempty.
  - intros k n. rewrite insert_to_bucket_member, Hmem1, Hmem.
    destruct (decide (n = m)) as [->|Hn]; naive_solver.
  - intros n Hn. destruct (decide (n = m)) as [->|Hnm].
    + by rewrite lookup_insert_eq.
    + rewrite lookup_insert_ne by done. by apply Hidx.
Qed.

Lemma buckets_ok_ext V kf kf' buckets idx :
  (∀ n, n ∈ V → kf n = kf' n) →
  buckets_ok V kf buckets idx → buckets_ok V kf' buckets idx.
Proof.
  intros Hext [Hne Hmem Hidx]. split; [done| |].
  - intros k n. rewrite Hmem. split; intros [Hn <-]; by rewrite Hext || rewrite <-Hext.
  - intros n Hn. rewrite <-Hext by done. by apply Hidx.
Qed.

Lemma rebucket_all_spec V kf (input_dict output_dict : adj) (l : list nat) :
  NoDup l → (∀ m, m ∈ l → m ∈ V) →
  ∀ buckets idx,
  buckets_ok V kf buckets idx →
  ∃ buckets' idx',
    foldM (rebucket input_dict output_dict) (buckets, idx) l = Ok (buckets', idx') ∧
    buckets_ok V
      (λ n, if decide (n ∈ l)
            then compute_bucket_key_for_node input_dict output_dict n
            else kf n)
      buckets' idx'.
Proof.
  intros Hnd Hl buckets idx Hok.
  edestruct (foldM_invariant
    (λ (done : list nat) (bi : bucket_map * gmap nat bucket_key),
       buckets_ok V
         (λ n, if decide (n ∈ done)
               then compute_bucket_key_for_node input_dict output_dict n
               else kf n) bi.1 bi.2))
    as ([b' i'] & Hrun & Hb'); last first.
  { exists b', i'. split; [exact Hrun|]. exact Hb'. }
  - intros l1 x l2 [b1 i1] -> Hok1. simpl in Hok1.
    destruct (rebucket_spec V _ input_dict output_dict b1 i1 x Hok1)
      as (b2 & i2 & Hrun & Hok2).
    { apply Hl, elem_of_app. right. left. }
    exists (b2, i2). split; [done|]. simpl.
    destruct Hok2 as [Hne2 Hmem2 Hidx2]. split; [done| |].
    + intros k n. rewrite Hmem2.
      destruct (decide (n = x)) as [->|Hnx].
      * rewrite (decide_True (P := x ∈ l1 ++ [x])); [done|].
        apply elem_of_app. right. left.
      * destruct (decide (n ∈ l1)).
        -- rewrite (decide_True (P := n ∈ l1 ++ [x])); [done|].
           apply elem_of_app. by left.
        -- rewrite (decide_False (P := n ∈ l1 ++ [x])); [done|].
           rewrite elem_of_app, list_elem_of_singleton. naive_solver.
    + intros n Hn. rewrite (Hidx2 n Hn).
      destruct (decide (n = x)) as [->|Hnx].
      * rewrite (decide_True (P := x ∈ l1 ++ [x])); [done|].
        apply elem_of_app. right. left.
      * destruct (decide (n ∈ l1)).
        -- rewrite (decide_True (P := n ∈ l1 ++ [x])); [done|].
           apply elem_of_app. by left.
        -- rewrite (decide_False (P := n ∈ l1 ++ [x])); [done|].
           rewrite elem_of_app, list_elem_of_singleton. naive_solver.
  - apply (buckets_ok_ext V kf); [|done].
    intros n _. case_decide as Hd; [by apply elem_of_nil in Hd|done].
Qed.

(** ** [update_removed_node] *)

Lemma edge_w_delete (d : adj) n a b :
  edge_w (delete n d) a b = if decide (a = n) then None else edge_w d a b.
Proof.
  unfold edge_w. destruct (decide (a = n)) as [->|?].
  - by rewrite lookup_delete_eq.
  - by rewrite lookup_delete_ne.
Qed.

(** The two loops over the neighbours followed by the two [del] statements
    (lines 175-184) remove the node from the graph. *)
Lemma remove_node_by_columns (d d1 : adj) node :
  dom d1 = dom d →
  (∀ x y, edge_w d1 x y = if decide (y = node) then None else edge_w d x y) →
  delete node d1 = remove_node node d.
Proof.
  intros Hdom Hw. apply adj_eq.
  - by rewrite dom_delete_L, dom_remove_node, Hdom.
  - intros a b. rewrite edge_w_delete, edge_w_remove_node, Hw.
    repeat case_decide; naive_solver.
Qed.

Lemma compute_bucket_key_same (i1 o1 i2 o2 : adj) n :
  i1 !! n = i2 !! n → o1 !! n = o2 !! n →
  compute_bucket_key_for_node i1 o1 n = compute_bucket_key_for_node i2 o2 n.
Proof. unfold compute_bucket_key_for_node. by intros -> ->. Qed.

Lemma update_removed_node_spec V (st : state) (node : nat) :
  graph_ok V (input_dict st) (output_dict st) →
  node ∈ V →
  edge_w (output_dict st) node node = None →
  buckets_ok (V ∖ {[node]})
    (compute_bucket_key_for_node (input_dict st) (output_dict st))
    (buckets st) (node_to_bucket_key st) →
  ∃ buckets' idx',
    update_removed_node st node
    = Ok (mkState (remove_node node (input_dict st))
                  (remove_node node (output_dict st))
                  buckets' idx' (left_list st) (right_list st) (feedback_val st)) ∧
    buckets_ok (V ∖ {[node]})
      (compute_bucket_key_for_node (remove_node node (input_dict st))
                                   (remove_node node (output_dict st)))
      buckets' idx'.
Proof.
  destruct st as [ind outd bk idx ll rl fb]. simpl.
  intros Hg Hnode Hloop Hbk.
  pose proof (g_sym _ _ _ Hg) as Hsym.
  pose proof (g_dom_in _ _ _ Hg) as Hdi.
  pose proof (g_dom_out _ _ _ Hg) as Hdo.
  assert (edge_w ind node node = None) as Hloop' by (by rewrite <-Hsym).
  unfold update_removed_node. simpl.
  (* in_nodes = input_dict[node] *)
  assert (is_Some (ind !! node)) as [in_nodes Hin] by (apply elem_of_dom; by rewrite Hdi).
  rewrite (getitem_Some _ _ _ Hin). simpl.
  (* first loop *)
  destruct (delete_column_spec outd node (elements (dom in_nodes)))
    as (o1 & -> & Hdo1 & Ho1).
  { apply NoDup_elements. }
  { intros x Hx%elem_of_elements%elem_of_dom.
    by rewrite Hsym, (edge_w_lookup _ _ _ _ Hin). }
  simpl.
  assert (∀ x y, edge_w o1 x y = if decide (y = node) then None else edge_w outd x y)
    as Ho1'.
  { intros x y. rewrite Ho1. destruct (decide (y = node)) as [->|?].
    - case_decide as Hx; [done|]. rewrite Hsym, (edge_w_lookup _ _ _ _ Hin).
      apply not_elem_of_dom. intros Hd. apply Hx.
      split; [by apply elem_of_elements|done].
    - rewrite decide_False by naive_solver. done. }
  (* out_nodes = output_dict[node] *)
  assert (is_Some (o1 !! node)) as [out_nodes Hout]
    by (apply elem_of_dom; by rewrite Hdo1, Hdo).
  rewrite (getitem_Some _ _ _ Hout). simpl.
  assert (∀ y, out_nodes !! y = edge_w outd node y) as Hout_nodes.
  { intros y. rewrite <-(edge_w_lookup _ _ _ _ Hout), Ho1'.
    case_decide as Hy; [by rewrite Hy, Hloop|done]. }
  (* second loop *)
  destruct (delete_column_spec ind node (elements (dom out_nodes)))
    as (i1 & -> & Hdi1 & Hi1).
  { apply NoDup_elements. }
  { intros x Hx%elem_of_elements%elem_of_dom.
    by rewrite <-Hsym, <-Hout_nodes. }
  simpl.
  assert (∀ x y, edge_w i1 x y = if decide (y = node) then None else edge_w ind x y)
    as Hi1'.
  { intros x y. rewrite Hi1. destruct (decide (y = node)) as [->|?].
    - case_decide as Hx; [done|]. rewrite <-Hsym, <-Hout_nodes.
      apply not_elem_of_dom. intros Hd. apply Hx.
      split; [by apply elem_of_elements|done].
    - rewrite decide_False by naive_solver. done. }
  (* in_nodes, read again through the reference *)
  assert (is_Some (i1 !! node)) as [in_nodes' Hin']
    by (apply elem_of_dom; by rewrite Hdi1, Hdi).
  rewrite (getitem_Some _ _ _ Hin'). simpl.
  assert (∀ y, in_nodes' !! y = edge_w ind node y) as Hin_nodes.
  { intros y. rewrite <-(edge_w_lookup _ _ _ _ Hin'), Hi1'.
    case_decide as Hy; [by rewrite Hy, Hloop'|done]. }
  rewrite (delitem_Some _ _ _ Hin'). simpl.
  rewrite (delitem_Some _ _ _ Hout). simpl.
  rewrite (remove_node_by_columns ind i1 node Hdi1 Hi1').
  rewrite (remove_node_by_columns outd o1 node Hdo1 Ho1').
  (* the neighbours change buckets *)
  set (nb := dom in_nodes' ∪ dom out_nodes).
  assert (∀ m, m ∈ nb ↔
            is_Some (edge_w ind node m) ∨ is_Some (edge_w outd node m)) as Hnb.
  { intros m. unfold nb. rewrite elem_of_union, !elem_of_dom.
    by rewrite Hin_nodes, Hout_nodes. }
  destruct (rebucket_all_spec (V ∖ {[node]})
              (compute_bucket_key_for_node ind outd)
              (remove_node node ind) (remove_node node outd)
              (elements nb)) with bk idx as (b' & i' & Hrun & Hok').
  { apply NoDup_elements. }
  { intros m Hm%elem_of_elements%Hnb.
    apply elem_of_difference. rewrite elem_of_singleton.
    destruct Hm as [Hm|Hm].
    - split; [|intros ->; rewrite Hloop' in Hm; by destruct Hm].
      rewrite <-Hsym in Hm. rewrite <-Hdo. by eapply edge_w_dom.
    - split; [|intros ->; rewrite Hloop in Hm; by destruct Hm].
      by destruct (graph_ok_closed V _ _ _ _ Hg Hm). }
  { done. }
  rewrite Hrun. simpl. exists b', i'. split; [done|].
  eapply buckets_ok_ext; [|exact Hok'].
  intros n Hn. simpl.
  apply elem_of_difference in Hn as [HnV Hnn%not_elem_of_singleton].
  case_decide as Hm; [done|].
  rewrite elem_of_elements, Hnb in Hm.
  apply compute_bucket_key_same; symmetry; apply remove_node_lookup_ne; try done.
  - rewrite <-Hsym. apply eq_None_not_Some. intros ?. apply Hm. by right.
  - rewrite Hsym. apply eq_None_not_Some. intros ?. apply Hm. by left.
Qed.

(** ** The main loop: one round *)

Lemma py_max_spec (l : list Z) :
  l ≠ [] → ∃ m, py_max l = Ok m ∧ m ∈ l ∧ ∀ x, x ∈ l → (x ≤ m)%Z.
Proof.
  destruct l as [|x l]; [done|]. intros _. simpl.
  exists (foldl Z.max x l). split; [done|].
  revert x. induction l as [|y l IH]; intros x; simpl.
  - split; [left|]. intros z ->%list_elem_of_singleton. lia.
  - destruct (IH (Z.max x y)) as [Hin Hmax]. split.
    + apply elem_of_cons in Hin as [->|Hin].
      * destruct (Z.max_spec x y) as [[_ ->]|[_ ->]]; [right; left|left].
      * by do 2 right.
    + intros z [->|[->|Hz]%elem_of_cons]%elem_of_cons.
      * specialize (Hmax (Z.max x y) (list_elem_of_here _ _)). lia.
      * specialize (Hmax (Z.max x y) (list_elem_of_here _ _)). lia.
      * apply Hmax. by right.
Qed.

Lemma elem_of_numeric_keys (buckets : bucket_map) (d : Z) :
  d ∈ numeric_keys buckets ↔ is_Some (buckets !! Delta d).
Proof.
  unfold numeric_keys. rewrite list_elem_of_omap. split.
  - intros (k & Hk%elem_of_elements%elem_of_dom & Hd).
    destruct k; simplify_eq. done.
  - intros Hd. exists (Delta d). split; [|done].
    by apply elem_of_elements, elem_of_dom.
Qed.

Lemma placed_remaining N st :
  loop_inv N st → placed st + size (remaining st) = N.
Proof.
  intros [_ _ Hp]. apply Permutation_length in Hp.
  rewrite !length_app, length_seq in Hp. unfold placed, size, set_size.
  simpl. lia.
Qed.

Lemma buckets_ok_pop V kf buckets buckets' idx key n :
  buckets_ok V kf buckets idx →
  in_bucket buckets key n →
  no_empty_bucket buckets' →
  (∀ k m, in_bucket buckets' k m ↔ in_bucket buckets k m ∧ ¬ (k = key ∧ m = n)) →
  buckets_ok (V ∖ {[n]}) kf buckets' idx.
Proof.
  intros [Hne Hmem Hidx] Hn Hne' Hmem'. split; [done| |].
  - intros k m. rewrite Hmem', Hmem, elem_of_difference, elem_of_singleton.
    apply Hmem in Hn as [_ Hkey]. naive_solver.
  - intros m [Hm _]%elem_of_difference. by apply Hidx.
Qed.

Section Round.
Context `{Runtime}.

(** One round of the loop on a graph without self loops: it never raises,
    picks a remaining node as lines 201-224 prescribe, and removes it. *)
Lemma loop_body_spec N st :
  loop_inv N st → irreflexive (output_dict st) → placed st < N →
  ∃ n st',
    loop_body st = Ok st' ∧
    n ∈ remaining st ∧
    input_dict st' = remove_node n (input_dict st) ∧
    output_dict st' = remove_node n (output_dict st) ∧
    round_of st st' n ∧
    loop_inv N st'.
Proof.
  intros Hinv Hirr Hlt.
  pose proof (placed_remaining N st Hinv) as Hsize.
  destruct Hinv as [Hg Hbk Hp].
  pose proof (bk_nonempty _ _ _ _ Hbk) as Hne.
  pose proof (bk_member _ _ _ _ Hbk) as Hmem.
  (* what remains to be done once a node is popped *)
  assert (∀ key n buckets' ll rl fb,
            in_bucket (buckets st) key n →
            no_empty_bucket buckets' →
            (∀ k m, in_bucket buckets' k m ↔
                    in_bucket (buckets st) k m ∧ ¬ (k = key ∧ m = n)) →
            ll ++ rl ≡ₚ n :: left_list st ++ right_list st →
            ∃ st',
              update_removed_node
                (mkState (input_dict st) (output_dict st) buckets'
                         (node_to_bucket_key st) ll rl fb) n = Ok st' ∧
              n ∈ remaining st ∧
              input_dict st' = remove_node n (input_dict st) ∧
              output_dict st' = remove_node n (output_dict st) ∧
              left_list st' = ll ∧ right_list st' = rl ∧ feedback_val st' = fb ∧
              loop_inv N st') as Hfinish.
  { intros key n buckets' ll rl fb Hin Hne' Hmem' Hperm.
    assert (n ∈ remaining st) as Hn by (by apply Hmem in Hin as [? _]).
    destruct (update_removed_node_spec (remaining st)
                (mkState (input_dict st) (output_dict st) buckets'
                         (node_to_bucket_key st) ll rl fb) n)
      as (b2 & i2 & Hrun & Hok2); simpl; [done|done|apply Hirr| |].
    { by apply buckets_ok_pop with (buckets st) key. }
    eexists. split; [exact Hrun|]. simpl. split_and!; try done.
    split; simpl.
    - unfold remaining. simpl. rewrite dom_remove_node.
      by apply graph_ok_remove_node.
    - unfold remaining. simpl. by rewrite dom_remove_node.
    - unfold remaining. simpl. rewrite dom_remove_node.
      rewrite <-Hp. rewrite (app_assoc ll rl), Hperm.
      rewrite (union_difference_singleton_L n (remaining st)) by done.
      rewrite elements_union_singleton by set_solver.
      unfold remaining. simpl.
      rewrite (app_assoc (left_list st)), <-Permutation_middle. done. }
  unfold loop_body.
  destruct (bucket_nonempty (buckets st) Sinks) eqn:Hsinks.
  { destruct (pop_from_bucket_spec (buckets st) Sinks Hne Hsinks)
      as (n & b' & -> & Hin & Hne' & Hmem'). simpl.
    destruct (Hfinish Sinks n b' (left_list st) (right_list st ++ [n])
                (feedback_val st)) as (st' & -> & ? & ? & ? & ? & ? & ? & ?);
      [done..| |].
    { rewrite app_assoc. by rewrite <-Permutation_cons_append. }
    exists n, st'. split_and!; try done. left. done. }
  destruct (bucket_nonempty (buckets st) Sources) eqn:Hsources.
  { destruct (pop_from_bucket_spec (buckets st) Sources Hne Hsources)
      as (n & b' & -> & Hin & Hne' & Hmem'). simpl.
    destruct (Hfinish Sources n b' (left_list st ++ [n]) (right_list st)
                (feedback_val st)) as (st' & -> & ? & ? & ? & ? & ? & ? & ?);
      [done..| |].
    { rewrite <-app_assoc. simpl. by rewrite <-Permutation_middle. }
    exists n, st'. split_and!; try done. right. left. done. }
  (* neither sinks nor sources: some numeric bucket exists *)
  assert (∃ n0, n0 ∈ remaining st) as [n0 Hn0].
  { apply size_pos_elem_of. lia. }
  assert (∀ key, bucket_nonempty (buckets st) key = false →
                 ∀ n, ¬ in_bucket (buckets st) key n) as Hnone.
  { intros key Hkey n Hn.
    assert (bucket_nonempty (buckets st) key = true)
      by (apply bucket_nonempty_true; eauto).
    congruence. }
  assert (∃ d0, in_bucket (buckets st) (Delta d0) n0) as [d0 Hd0].
  { destruct (compute_bucket_key_for_node (input_dict st) (output_dict st) n0)
      as [| |d0] eqn:Hk.
    - exfalso. apply (Hnone Sinks Hsinks n0). by apply Hmem.
    - exfalso. apply (Hnone Sources Hsources n0). by apply Hmem.
    - exists d0. by apply Hmem. }
  destruct (py_max_spec (numeric_keys (buckets st)))
    as (max_delta & -> & Hmaxin & Hmax).
  { intros Hnil. destruct Hd0 as (s & Hs & _).
    assert (d0 ∈ numeric_keys (buckets st)) as Hin
      by (apply elem_of_numeric_keys; eauto).
    rewrite Hnil in Hin. by apply elem_of_nil in Hin. }
  simpl.
  assert (bucket_nonempty (buckets st) (Delta max_delta) = true) as Hmaxne.
  { apply elem_of_numeric_keys in Hmaxin as [s Hs].
    unfold bucket_nonempty. rewrite Hs. apply bool_decide_eq_true.
    by apply Hne with (Delta max_delta). }
  destruct (pop_from_bucket_spec (buckets st) (Delta max_delta) Hne Hmaxne)
    as (n & b' & -> & Hin & Hne' & Hmem'). simpl.
  assert (is_Some (input_dict st !! n)) as [ins Hins].
  { apply elem_of_dom. rewrite (g_dom_in _ _ _ Hg). by apply Hmem in Hin as [? _]. }
  rewrite (getitem_Some _ _ _ Hins). simpl.
  destruct (Hfinish (Delta max_delta) n b' (left_list st ++ [n]) (right_list st)
              (feedback_val st + sum_values ins)%Z)
    as (st' & -> & ? & ? & ? & ? & ? & ? & ?); [done..| |].
  { rewrite <-app_assoc. simpl. by rewrite <-Permutation_middle. }
  exists n, st'. split_and!; try done. right. right.
  split_and!; try done. exists max_delta, ins. split_and!; try done.
  intros d m (s & Hs & _). apply Hmax, elem_of_numeric_keys. eauto.
Qed.
End Round.

(** ** The main loop: feedback accounting *)

Lemma irreflexive_remove_node n (d : adj) :
  irreflexive d → irreflexive (remove_node n d).
Proof.
  intros Hirr a. rewrite edge_w_remove_node. by case_decide.
Qed.

Lemma bucket_key_Sinks (input_dict output_dict : adj) n :
  compute_bucket_key_for_node input_dict output_dict n = Sinks →
  ∀ a, edge_w output_dict n a = None.
Proof.
  unfold compute_bucket_key_for_node, edge_w. intros Hk a.
  destruct (output_dict !! n) as [outs|]; [|done]. simpl.
  destruct (decide (outs = ∅)) as [->|?]; [by rewrite lookup_empty|].
  destruct (input_dict !! n) as [ins|]; [|done].
  by destruct (decide (ins = ∅)).
Qed.

Lemma bucket_key_Sources (input_dict output_dict : adj) n :
  n ∈ dom input_dict →
  compute_bucket_key_for_node input_dict output_dict n = Sources →
  ∀ a, edge_w input_dict n a = None.
Proof.
  unfold compute_bucket_key_for_node, edge_w. intros [ins Hins]%elem_of_dom Hk a.
  rewrite Hins in *. simpl.
  destruct (output_dict !! n) as [outs|]; [|done].
  destruct (decide (outs = ∅)); [done|].
  destruct (decide (ins = ∅)) as [->|?]; [by rewrite lookup_empty|done].
Qed.

(** A node whose outgoing map is empty has key ['sinks']. *)
Lemma bucket_key_of_sink (input_dict output_dict : adj) n :
  output_dict !! n = Some ∅ →
  compute_bucket_key_for_node input_dict output_dict n = Sinks.
Proof.
  unfold compute_bucket_key_for_node. intros ->. by rewrite decide_True.
Qed.

Lemma sum_values_sumZ (m : gmap nat Z) (l : list nat) :
  NoDup l → (∀ k, k ∈ dom m → k ∈ l) →
  sumZ (λ b, default 0%Z (m !! b)) l = sum_values m.
Proof.
  intros Hnd. induction m as [|i x m Hi IH] using map_ind; intros Hdom.
  - unfold sum_values. rewrite map_fold_empty. apply sumZ_zero. intros b _.
    by rewrite lookup_empty.
  - rewrite sum_values_insert by done. rewrite <-IH.
    + rewrite (sumZ_ext _ (λ b, ((if decide (b = i) then x else 0)
                                 + default 0 (m !! b))%Z)).
      * rewrite sumZ_plus, sumZ_indicator by done.
        rewrite decide_True; [done|]. apply Hdom.
        rewrite dom_insert_L. set_solver.
      * intros b _. destruct (decide (b = i)) as [->|?].
        -- rewrite lookup_insert_eq, Hi. simpl. lia.
        -- rewrite lookup_insert_ne by done. lia.
    + intros k Hk. apply Hdom. rewrite dom_insert_L. set_solver.
Qed.

Lemma fb_inv_step N W0 st st' n :
  loop_inv N st → irreflexive (output_dict st) → fb_inv W0 st →
  n ∈ remaining st →
  output_dict st' = remove_node n (output_dict st) →
  round_of st st' n →
  fb_inv W0 st'.
Proof.
  intros [Hg Hbk Hp] Hirr Hfb Hn Hout Hround ord' Hord'.
  pose proof (g_sym _ _ _ Hg) as Hsym.
  pose proof (bk_member _ _ _ _ Hbk) as Hmem.
  unfold remaining in Hord'. rewrite Hout, dom_remove_node in Hord'.
  fold (remaining st) in Hord'.
  assert (n ∉ ord') as Hnord.
  { rewrite Hord', elem_of_elements. set_solver. }
  assert (NoDup ord') as Hnd by (rewrite Hord'; apply NoDup_elements).
  assert (elements (remaining st) ≡ₚ n :: ord') as Hperm.
  { rewrite (union_difference_singleton_L n (remaining st)) at 1 by done.
    rewrite elements_union_singleton by set_solver. by rewrite Hord'. }
  assert (backward_weight (wf (output_dict st')) ord'
          = backward_weight (wf (output_dict st)) ord') as Hsame.
  { apply backward_weight_ext. intros a b Ha Hb. unfold wf.
    rewrite Hout, edge_w_remove_node. rewrite decide_False; [done|].
    intros [->| ->]; done. }
  rewrite Hsame.
  destruct Hround as [(_ & Hin & -> & -> & ->)
                     |[(_ & _ & Hin & -> & -> & ->)
                      |(_ & _ & d & ins & Hin & _ & Hins & -> & -> & ->)]].
  - (* a sink goes to the right *)
    apply Hmem in Hin as [_ Hkey].
    rewrite reverse_snoc.
    change (n :: reverse (right_list st)) with ([n] ++ reverse (right_list st)).
    rewrite (app_assoc ord').
    rewrite (Hfb (ord' ++ [n])) by (by rewrite Hperm, <-Permutation_cons_append).
    f_equal.
    rewrite backward_weight_snoc, sumZ_zero; [lia|].
    intros a _. unfold wf. by rewrite (bucket_key_Sinks _ _ _ Hkey).
  - (* a source goes to the left *)
    apply Hmem in Hin as [HnV Hkey].
    rewrite <-app_assoc.
    change ([n] ++ ord' ++ ?r) with ((n :: ord') ++ r).
    rewrite (Hfb (n :: ord')) by (by rewrite Hperm). f_equal.
    rewrite backward_weight_cons, sumZ_zero; [lia|].
    intros b _. unfold wf. rewrite Hsym.
    rewrite (bucket_key_Sources (input_dict st) (output_dict st) n); [done| |done].
    by rewrite (g_dom_in _ _ _ Hg).
  - (* the node of largest delta goes to the left *)
    rewrite <-app_assoc.
    change ([n] ++ ord' ++ ?r) with ((n :: ord') ++ r).
    rewrite (Hfb (n :: ord')) by (by rewrite Hperm).
    rewrite backward_weight_cons.
    rewrite <-(sum_values_sumZ ins ord'); [|done|].
    + rewrite (sumZ_ext (λ b, wf (output_dict st) b n)
                        (λ b, default 0%Z (ins !! b))); [lia|].
      intros b _. unfold wf. by rewrite Hsym, (edge_w_lookup _ _ _ _ Hins).
    + intros k [w Hk]%elem_of_dom.
      assert (edge_w (output_dict st) k n = Some w) as Hw
        by (by rewrite Hsym, (edge_w_lookup _ _ _ _ Hins)).
      rewrite Hord', elem_of_elements, elem_of_difference, elem_of_singleton.
      split.
      * unfold remaining. apply (edge_w_dom _ k n). by rewrite Hw.
      * intros ->. by rewrite Hirr in Hw.
Qed.

(** ** The main loop as a whole *)

Section MainLoop.
Context `{Runtime}.

(** Every round places one node. *)
Lemma round_of_placed st st' n : round_of st st' n → placed st' = S (placed st).
Proof.
  unfold placed.
  intros [(_ & _ & -> & -> & _)
         |[(_ & _ & _ & -> & -> & _)
          |(_ & _ & d & ins & _ & _ & _ & -> & -> & _)]];
    rewrite ?length_app; simpl; lia.
Qed.

(** The loop rule: an invariant under which a round never raises and
    places one node is kept until the loop ends, which it does within the
    fuel [num_nodes - placed]. *)
Lemma main_loop_rule (I : state → Prop) (N : nat) :
  (∀ st, I st → placed st < N →
     ∃ st', loop_body st = Ok st' ∧ I st' ∧ placed st' = S (placed st)) →
  ∀ fuel st, I st → N ≤ placed st + fuel →
    ∃ st', main_loop fuel N st = Ok st' ∧ I st' ∧ ¬ placed st' < N.
Proof.
  intros Hstep fuel. induction fuel as [|fuel IH]; intros st HI Hfuel.
  - exists st. simpl. rewrite decide_False by (unfold placed in *; lia).
    split_and!; [done..|lia].
  - simpl. case_decide as Hlt; [|by exists st].
    destruct (Hstep st HI Hlt) as (st1 & -> & HI1 & Hp1). simpl.
    apply IH; [done|lia].
Qed.

Lemma iterate_loop_rule (I : state → Prop) (N : nat) :
  (∀ st, I st → placed st < N →
     ∃ st', loop_body st = Ok st' ∧ I st' ∧ placed st' = S (placed st)) →
  ∀ k st, I st → ∃ st', iterate_loop k N st = Ok st' ∧ I st'.
Proof.
  intros Hstep k. induction k as [|k IH]; intros st HI.
  - by exists st.
  - simpl. case_decide as Hlt; [|by exists st].
    destruct (Hstep st HI Hlt) as (st1 & -> & HI1 & Hp1). simpl.
    by apply IH.
Qed.

Lemma run_inv_step N W0 st :
  run_inv N W0 st → placed st < N →
  ∃ st', loop_body st = Ok st' ∧ run_inv N W0 st' ∧ placed st' = S (placed st).
Proof.
  intros (Hinv & Hirr & Hfb) Hlt.
  destruct (loop_body_spec N st Hinv Hirr Hlt)
    as (n & st' & Hrun & Hn & Hin & Hout & Hround & Hinv').
  exists st'. split; [done|]. split; [|by eapply round_of_placed].
  split; [done|]. split.
  - rewrite Hout. by apply irreflexive_remove_node.
  - by apply (fb_inv_step N W0 st st' n).
Qed.

(** On a graph without self loops the loop ends normally with every node
    placed, and the tracked feedback total is the backward weight of the
    order [left_list ++ reverse right_list]. *)
Lemma main_loop_spec N W0 st :
  run_inv N W0 st → placed st = 0 →
  ∃ st', main_loop N N st = Ok st' ∧
         left_list st' ++ reverse (right_list st') ≡ₚ seq 0 N ∧
         backward_weight W0 (left_list st' ++ reverse (right_list st'))
         = feedback_val st'.
Proof.
  intros Hinv Hp.
  destruct (main_loop_rule (run_inv N W0) N (run_inv_step N W0) N st Hinv)
    as (st' & Hrun & (Hinv' & _ & Hfb) & Hend); [lia|].
  exists st'. split; [done|].
  pose proof (placed_remaining N st' Hinv') as Hsize.
  assert (remaining st' = ∅) as Hempty.
  { apply leibniz_equiv, size_empty_inv. lia. }
  split.
  - rewrite <-(li_placed _ _ Hinv'), Hempty, elements_empty, app_nil_r.
    by rewrite reverse_Permutation.
  - specialize (Hfb []). rewrite Hempty, elements_empty in Hfb.
    simpl in Hfb. rewrite Hfb by done. lia.
Qed.
End MainLoop.

(** ** From the built graph to the start of the main loop *)

Section Start.
Context `{Runtime} `{Countable Node}.
Implicit Types (connections : list (@row Node)) (b : built (Node := Node)).

Lemma no_self_loop_elem connections r :
  no_self_loop connections → r ∈ connections → r0 r ≠ r1 r.
Proof.
  unfold no_self_loop. rewrite Forall_forall. intros Hno Hr. by apply Hno.
Qed.

Lemma built_graph_ok connections b :
  built_ok connections b →
  graph_ok (set_seq 0 (size (b_nodes_compacted b)))
           (b_input_dict b) (b_output_dict b).
Proof. intros Hb. split; apply Hb. Qed.

Lemma built_irreflexive connections b :
  built_ok connections b → no_self_loop connections →
  irreflexive (b_output_dict b).
Proof.
  intros Hb Hno i. apply eq_None_not_Some. intros Hw.
  destruct (bo_closed _ _ Hb i i Hw) as [[u Hu]%(bo_range _ _ Hb) _].
  rewrite (bo_out _ _ Hb u u i i Hu Hu) in Hw.
  apply merged_is_Some in Hw as (r & Hr & <- & Heq).
  by apply (no_self_loop_elem _ r Hno Hr).
Qed.

Lemma built_self_loop connections b r :
  built_ok connections b → r ∈ connections → r0 r = r1 r →
  ∃ i, is_Some (edge_w (b_output_dict b) i i).
Proof.
  intros Hb Hr Heq.
  assert (r0 r ∈ dom (b_nodes_compacted b)) as [i Hi]%elem_of_dom.
  { rewrite (bo_dom _ _ Hb). apply elem_of_nodes. eauto. }
  exists i. rewrite (bo_out _ _ Hb (r0 r) (r0 r) i i Hi Hi).
  apply merged_is_Some. exists r. auto.
Qed.

(** The resolver and the second sanity check on the built graph. *)
Lemma initial_state_graph connections b :
  built_ok connections b →
  (py_debug = true → no_self_loop connections) →
  ∃ st apl,
    initial_state b = Ok st ∧
    find_anti_parallel (b_input_dict b) = Ok apl ∧
    (∀ n1 n2, (n1, n2) ∈ apl ↔
              n2 < n1 ∧ is_Some (edge_w (b_output_dict b) n1 n2) ∧
              is_Some (edge_w (b_output_dict b) n2 n1)) ∧
    feedback_val st
    = sumZ (λ p, Z.min (wf (b_output_dict b) p.1 p.2)
                       (wf (b_output_dict b) p.2 p.1)) apl ∧
    left_list st = [] ∧ right_list st = [] ∧
    (∀ x y, edge_w (output_dict st) x y = resolved (b_output_dict b) x y) ∧
    loop_inv (size (b_nodes_compacted b)) st ∧
    fb_inv (wf (b_output_dict b)) st.
Proof.
  intros Hb Hdbg. set (N := size (b_nodes_compacted b)).
  pose proof (built_graph_ok _ _ Hb) as Hg. fold N in Hg.
  destruct (resolve_anti_parallel_spec _ _ _ Hg)
    as (apl & i1 & o1 & Hfind & Hrun & Hnd & Hapl & Hg1 & Ho1 & Hbw).
  unfold initial_state. rewrite Hrun. simpl.
  assert (check_resolved i1 o1 = Ok tt) as ->.
  { destruct py_debug eqn:Hd; [|by apply check_resolved_release].
    apply (check_resolved_Ok _ _ _ Hg1). intros a z Hw.
    pose proof (built_irreflexive _ _ Hb (Hdbg eq_refl)) as Hirr.
    rewrite Ho1 in *. destruct (decide (a = z)) as [->|Hne].
    - unfold resolved in Hw. rewrite Hirr in Hw. by destruct Hw.
    - by apply resolved_exclusive. }
  simpl. fold N.
  destruct (initial_buckets_spec i1 o1 N) as [Hne Hmem].
  eexists _, apl. split; [done|]. simpl.
  split_and!; try done.
  - split; simpl.
    + unfold remaining. simpl. by rewrite (g_dom_out _ _ _ Hg1).
    + unfold remaining. simpl. rewrite (g_dom_out _ _ _ Hg1). split; [done| |].
      * intros k n. rewrite Hmem, elem_of_set_seq. naive_solver lia.
      * intros n Hn%elem_of_set_seq. apply index_buckets_spec.
        -- intros k k' m [_ <-]%Hmem [_ <-]%Hmem. done.
        -- apply Hmem. split; [lia|done].
    + unfold remaining. simpl. rewrite (g_dom_out _ _ _ Hg1).
      apply NoDup_Permutation; [apply NoDup_elements|apply NoDup_seq|].
      intros n. by rewrite elem_of_elements, elem_of_set_seq, elem_of_seq.
  - intros ord Hord. simpl. rewrite app_nil_r.
    unfold remaining in Hord. simpl in Hord.
    rewrite (g_dom_out _ _ _ Hg1) in Hord.
    apply Hbw.
    + rewrite Hord. apply NoDup_elements.
    + intros a Ha. by rewrite Hord, elem_of_elements.
Qed.

Lemma initial_state_spec connections b :
  built_ok connections b → no_self_loop connections →
  ∃ st, initial_state b = Ok st ∧ placed st = 0 ∧
        run_inv (size (b_nodes_compacted b)) (wf (b_output_dict b)) st.
Proof.
  intros Hb Hno.
  destruct (initial_state_graph connections b Hb (λ _, Hno))
    as (st & apl & Hrun & _ & _ & _ & Hl & Hr & Ho & Hinv & Hfb).
  exists st. split; [done|]. split; [unfold placed; by rewrite Hl, Hr|].
  split; [done|]. split; [|done].
  intros a. rewrite Ho. unfold resolved.
  by rewrite (built_irreflexive _ _ Hb Hno).
Qed.
End Start.

(** ** Positions in the final order *)

Lemma position_lookup `{EqDecision A} (l : list A) (x : A) :
  x ∈ l → l !! position l x = Some x.
Proof.
  induction l as [|y l IH]; intros Hx; [by apply elem_of_nil in Hx|].
  simpl. destruct (decide (y = x)) as [->|Hne]; [done|].
  apply elem_of_cons in Hx as [->|Hx]; [done|]. simpl. by apply IH.
Qed.

Lemma position_unique `{EqDecision A} (l : list A) (x : A) (i : nat) :
  NoDup l → l !! i = Some x → position l x = i.
Proof.
  intros Hnd Hi. apply (proj1 (NoDup_alt l) Hnd _ _ x); [|done].
  apply position_lookup. by apply list_elem_of_lookup_2 in Hi.
Qed.

Lemma backward_weight_sumZ {A} (F : A → nat → nat → Z) (l : list A) ord :
  backward_weight (λ a b, sumZ (λ r, F r a b) l) ord
  = sumZ (λ r, backward_weight (F r) ord) l.
Proof.
  induction l as [|r l IH]; simpl.
  - by apply backward_weight_zero.
  - rewrite <-IH. apply backward_weight_plus.
Qed.

Lemma mapM_result_spec {A B} (f : A → result B) (l : list A) :
  (∀ x, x ∈ l → ∃ y, f x = Ok y) →
  ∃ ys, mapM_result f l = Ok ys ∧ Forall2 (λ x y, f x = Ok y) l ys.
Proof.
  induction l as [|x l IH]; intros Hf; simpl.
  - exists []. by split.
  - destruct (Hf x) as [y Hy]; [left|].
    destruct IH as (ys & Hys & Hall); [intros z Hz; apply Hf; by right|].
    exists (y :: ys). rewrite Hy. simpl. rewrite Hys. simpl.
    split; [done|]. by constructor.
Qed.

(** ** The order finalizer *)

Section Finalizer.
Context `{Runtime} `{Countable Node}.
Implicit Types (connections : list (@row Node)).

Lemma inverse_lookup (c : gmap Node nat) i u :
  (∀ u v i, c !! u = Some i → c !! v = Some i → u = v) →
  dict_of_list ((λ '(k, v), (v, k)) <$> map_to_list c) !! i = Some u
  ↔ c !! u = Some i.
Proof.
  intros Hinj. rewrite dict_of_list_lookup.
  - rewrite list_elem_of_fmap. split.
    + intros ([k v] & [= -> ->] & Hkv%elem_of_map_to_list). done.
    + intros Hu. exists (u, i). split; [done|]. by apply elem_of_map_to_list.
  - rewrite <-list_fmap_compose.
    apply NoDup_fmap_2_strong; [|apply NoDup_map_to_list].
    intros [k v] [k' v'] Hk%elem_of_map_to_list Hk'%elem_of_map_to_list.
    simpl. intros ->. f_equal. by apply Hinj with v'.
Qed.

Lemma finalize_spec connections (b : built) st :
  built_ok connections b →
  left_list st ++ reverse (right_list st) ≡ₚ seq 0 (size (b_nodes_compacted b)) →
  backward_weight (wf (b_output_dict b)) (left_list st ++ reverse (right_list st))
  = feedback_val st →
  ∃ o, finalize b st = Ok o ∧
       res o ≡ₚ elements (nodes_from_connections_table connections) ∧
       fsw o = final_feedback_val o ∧
       final_feedback_val o = feedback_val st ∧
       final_rng o = b_rng b ∧
       Forall2 (λ i u, b_nodes_compacted b !! u = Some i)
               (left_list st ++ reverse (right_list st)) (res o) ∧
       (no_self_loop connections →
        final_feedback_val o = backward_total (res o) connections).
Proof.
  intros Hb Hperm Hbw.
  set (c := b_nodes_compacted b) in *. set (N := size c) in *.
  set (order := left_list st ++ reverse (right_list st)) in *.
  pose proof (bo_inj _ _ Hb) as Hinj. fold c in Hinj.
  assert (NoDup order) as Hnd by (rewrite Hperm; apply NoDup_seq).
  assert (∀ i, i ∈ order ↔ i < N) as Horder.
  { intros i. rewrite Hperm, elem_of_seq. lia. }
  unfold finalize. fold order. fold c.
  set (inv := dict_of_list ((λ '(k, v), (v, k)) <$> map_to_list c)).
  destruct (mapM_result_spec (getitem inv) order) as (res & -> & Hres).
  { intros i [u Hu]%Horder%(bo_range _ _ Hb). exists u.
    by apply getitem_Some, inverse_lookup. }
  simpl.
  assert (Forall2 (λ i u, c !! u = Some i) order res) as Hres'.
  { eapply Forall2_impl; [exact Hres|]. simpl.
    intros i u Hu%getitem_Ok. by apply inverse_lookup in Hu. }
  clear Hres.
  assert (∀ k u, res !! k = Some u ↔ ∃ i, order !! k = Some i ∧ c !! u = Some i)
    as Hlook.
  { intros k u. split.
    - intros Hk. destruct (Forall2_lookup_r _ _ _ _ _ Hres' Hk) as (i & ? & ?).
      eauto.
    - intros (i & Hk & Hu).
      destruct (Forall2_lookup_l _ _ _ _ _ Hres' Hk) as (u' & Hk' & Hu').
      by rewrite (Hinj u u' i). }
  assert (NoDup res) as Hndres.
  { apply NoDup_alt. intros k k' u (i & Hk & Hi)%Hlook (i' & Hk' & Hi')%Hlook.
    assert (i' = i) as -> by congruence.
    by apply (proj1 (NoDup_alt order) Hnd k k' i). }
  assert (∀ u, u ∈ res ↔ u ∈ nodes_from_connections_table connections) as Helem.
  { intros u. rewrite <-(bo_dom _ _ Hb), elem_of_dom, list_elem_of_lookup.
    fold c. split.
    - intros [k (i & _ & Hi)%Hlook]. eauto.
    - intros [i Hi].
      assert (i ∈ order) as [k Hk]%list_elem_of_lookup.
      { apply Horder, (bo_range _ _ Hb). eauto. }
      exists k. apply Hlook. eauto. }
  set (res_index := dict_of_list (imap (λ k v, (v, k)) res)).
  assert (∀ u k, res_index !! u = Some k ↔ res !! k = Some u) as Hidx.
  { intros u k. by apply lookup_enumerate_index. }
  assert (∀ u, u ∈ res → res_index !! u = Some (position res u)) as Hpos.
  { intros u Hu. by apply Hidx, position_lookup. }
  assert (∀ r, r ∈ connections → r0 r ∈ res ∧ r1 r ∈ res) as Hends.
  { intros r Hr. split; apply Helem, elem_of_nodes; eauto. }
  set (q := λ r : row, bool_decide (position res (r1 r) < position res (r0 r))).
  rewrite (filterM_result_Ok _ q); last first.
  { intros r Hr. rewrite (bo_perm _ _ Hb) in Hr.
    destruct (Hends r Hr) as [H0' H1'].
    rewrite (getitem_Some _ _ _ (Hpos _ H0')). simpl.
    rewrite (getitem_Some _ _ _ (Hpos _ H1')). done. }
  simpl.
  (* the recomputed sum is the backward weight of the order *)
  assert (sum_list (r2 <$> filter (λ r, q r = true) (b_connections b))
          = sumZ (λ r, if decide (position res (r1 r) < position res (r0 r))
                       then r2 r else 0%Z) connections) as Hfsw.
  { rewrite sum_list_sumZ, sumZ_fmap, sumZ_filter.
    rewrite (sumZ_perm _ _ _ (bo_perm _ _ Hb)).
    apply sumZ_ext. intros r _. unfold q.
    destruct (decide (position res (r1 r) < position res (r0 r))).
    - rewrite bool_decide_eq_true_2 by done. by rewrite decide_True.
    - rewrite bool_decide_eq_false_2 by done. by rewrite decide_False. }
  assert (backward_weight (wf (b_output_dict b)) order
          = sumZ (λ r, if decide (position res (r1 r) < position res (r0 r))
                       then r2 r else 0%Z) connections) as Hbridge.
  { set (cid := λ u : Node, default 0 (c !! u)).
    rewrite (backward_weight_ext _
               (λ a z, sumZ (λ r, single_edge (cid (r0 r)) (cid (r1 r)) (r2 r) a z)
                            connections)).
    - rewrite backward_weight_sumZ. apply sumZ_ext. intros r Hr.
      destruct (Hends r Hr) as [H0' H1'].
      apply position_lookup, Hlook in H0' as (i0 & Ho0 & Hc0).
      apply position_lookup, Hlook in H1' as (i1 & Ho1 & Hc1).
      unfold cid. rewrite Hc0, Hc1. simpl.
      by apply backward_weight_single.
    - intros a z [u Hu]%Horder%(bo_range _ _ Hb) [v Hv]%Horder%(bo_range _ _ Hb).
      unfold wf. rewrite (bo_out _ _ Hb u v a z Hu Hv), sumZ_merged.
      apply sumZ_ext. intros r Hr. unfold single_edge, cid.
      destruct (Hends r Hr) as [(i0 & _ & Hc0)%position_lookup%Hlook
                                (i1 & _ & Hc1)%position_lookup%Hlook].
      fold c in Hu, Hv. rewrite Hc0, Hc1. simpl.
      destruct (decide (r0 r = u ∧ r1 r = v)) as [[Hu' Hv']|Hne].
      + rewrite Hu' in Hc0. rewrite Hv' in Hc1.
        rewrite decide_True; [done|]. split; congruence.
      + rewrite decide_False; [done|]. intros [-> ->]. apply Hne.
        split; [by apply Hinj with i0|by apply Hinj with i1]. }
  rewrite py_assert_true; last first.
  { rewrite bool_decide_eq_true_2; [done|]. by rewrite Hfsw, <-Hbridge. }
  simpl. eexists. split; [done|]. simpl. split_and!.
  - apply NoDup_Permutation; [done|apply NoDup_elements|].
    intros u. by rewrite Helem, elem_of_elements.
  - by rewrite Hfsw, <-Hbridge.
  - done.
  - done.
  - done.
  - intros Hno. rewrite <-Hbw, Hbridge. unfold backward_total.
    apply sumZ_ext. intros r Hr.
    destruct (Hends r Hr) as [H0' H1'].
    assert (position res (r1 r) ≠ position res (r0 r)) as Hne.
    { intros Heq. apply position_lookup in H0', H1'.
      rewrite Heq in H1'. apply (no_self_loop_elem _ r Hno Hr). congruence. }
    repeat case_decide; try done; lia.
Qed.
End Finalizer.

(** ** Removing a node that is joined to itself *)

Lemma rebucket_cases (input_dict output_dict : adj) buckets idx x :
  rebucket input_dict output_dict (buckets, idx) x = Raise KeyError ∨
  ∃ buckets' idx',
    rebucket input_dict output_dict (buckets, idx) x = Ok (buckets', idx') ∧
    ∀ k m, in_bucket buckets' k m → in_bucket buckets k m ∨ m = x.
Proof.
  unfold rebucket, getitem.
  destruct (idx !! x) as [key|]; simpl; [|by left].
  unfold remove_from_bucket, getitem.
  destruct (buckets !! key) as [s|] eqn:Hs; simpl; [|by left].
  case_decide; simpl; [|by left]. right. eexists _, _. split; [done|].
  intros k m [Hin|[_ ->]]%insert_to_bucket_member; [|by right]. left.
  apply drop_if_empty_member in Hin. case_decide as Hk; [|done].
  subst k. exists s. split; [done|set_solver].
Qed.

Lemma rebucket_absent (input_dict output_dict : adj) buckets idx x :
  (∀ k, ¬ in_bucket buckets k x) →
  rebucket input_dict output_dict (buckets, idx) x = Raise KeyError.
Proof.
  intros Hx. unfold rebucket, getitem.
  destruct (idx !! x) as [key|]; simpl; [|done].
  by rewrite (remove_from_bucket_absent _ _ _ (Hx key)).
Qed.

(** The node was popped from its bucket, so when the last loop of
    [update_removed_node] meets it among its own neighbours,
    [remove_from_bucket] fails. *)
Lemma update_removed_node_self_loop V (st : state) (node : nat) :
  graph_ok V (input_dict st) (output_dict st) →
  node ∈ V →
  is_Some (edge_w (output_dict st) node node) →
  (∀ k, ¬ in_bucket (buckets st) k node) →
  update_removed_node st node = Raise KeyError.
Proof.
  destruct st as [ind outd bk idx ll rl fb]. simpl.
  intros Hg Hnode Hloop Hbk.
  pose proof (g_sym _ _ _ Hg) as Hsym.
  pose proof (g_dom_in _ _ _ Hg) as Hdi.
  pose proof (g_dom_out _ _ _ Hg) as Hdo.
  unfold update_removed_node. simpl.
  assert (is_Some (ind !! node)) as [in_nodes Hin] by (apply elem_of_dom; by rewrite Hdi).
  rewrite (getitem_Some _ _ _ Hin). simpl.
  destruct (delete_column_spec outd node (elements (dom in_nodes)))
    as (o1 & -> & Hdo1 & Ho1).
  { apply NoDup_elements. }
  { intros x Hx%elem_of_elements%elem_of_dom.
    by rewrite Hsym, (edge_w_lookup _ _ _ _ Hin). }
  simpl.
  assert (is_Some (o1 !! node)) as [out_nodes Hout]
    by (apply elem_of_dom; by rewrite Hdo1, Hdo).
  rewrite (getitem_Some _ _ _ Hout). simpl.
  assert (∀ y, y ∈ dom out_nodes → y ≠ node ∧ is_Some (edge_w outd node y))
    as Hout_nodes.
  { intros y Hy%elem_of_dom.
    rewrite <-(edge_w_lookup _ _ _ _ Hout), Ho1 in Hy.
    case_decide as Hd; [by destruct Hy|]. split; [|done].
    intros ->. apply Hd. split; [|done].
    apply elem_of_elements, elem_of_dom.
    by rewrite <-(edge_w_lookup _ _ _ _ Hin), <-Hsym. }
  destruct (delete_column_spec ind node (elements (dom out_nodes)))
    as (i1 & -> & Hdi1 & Hi1).
  { apply NoDup_elements. }
  { intros x [_ Hx]%elem_of_elements%Hout_nodes. by rewrite <-Hsym. }
  simpl.
  assert (is_Some (i1 !! node)) as [in_nodes' Hin']
    by (apply elem_of_dom; by rewrite Hdi1, Hdi).
  rewrite (getitem_Some _ _ _ Hin'). simpl.
  assert (node ∈ dom in_nodes') as Hself.
  { apply elem_of_dom. rewrite <-(edge_w_lookup _ _ _ _ Hin'), Hi1.
    rewrite decide_False; [by rewrite <-Hsym|].
    intros [[? _]%elem_of_elements%Hout_nodes _]. done. }
  rewrite (delitem_Some _ _ _ Hin'). simpl.
  rewrite (delitem_Some _ _ _ Hout). simpl.
  rewrite (foldM_raises
             (λ bi : bucket_map * gmap nat bucket_key, ∀ k, ¬ in_bucket bi.1 k node)
             (rebucket (delete node i1) (delete node o1)) (bk, idx)
             (elements (dom in_nodes' ∪ dom out_nodes)) node KeyError); [done..| | |].
  - apply elem_of_elements. set_solver.
  - intros x [b1 idx1] _ Hb1. simpl in Hb1.
    destruct (rebucket_cases (delete node i1) (delete node o1) b1 idx1 x)
      as [?|(b2 & idx2 & Hreb & Hmem)]; [by right|].
    destruct (decide (x = node)) as [->|Hne].
    + right. by apply rebucket_absent.
    + left. exists (b2, idx2). split; [done|]. simpl. intros k Hk.
      destruct (Hmem k node Hk) as [?|?]; [by apply (Hb1 k)|done].
  - intros [b1 idx1] Hb1. by apply rebucket_absent.
Qed.

(** ** Every round that ends normally keeps the invariant *)

Section AnyGraph.
Context `{Runtime}.

Lemma loop_body_invariant N st st' :
  loop_inv N st → loop_body st = Ok st' →
  loop_inv N st' ∧
  ∃ n, n ∈ remaining st ∧ edge_w (output_dict st) n n = None ∧
       input_dict st' = remove_node n (input_dict st) ∧
       output_dict st' = remove_node n (output_dict st).
Proof.
  intros Hinv Hrun.
  pose proof Hinv as [Hg Hbk Hp].
  pose proof (bk_nonempty _ _ _ _ Hbk) as Hne.
  pose proof (bk_member _ _ _ _ Hbk) as Hmem.
  assert (∀ key n buckets' ll rl fb,
            in_bucket (buckets st) key n →
            no_empty_bucket buckets' →
            (∀ k m, in_bucket buckets' k m ↔
                    in_bucket (buckets st) k m ∧ ¬ (k = key ∧ m = n)) →
            ll ++ rl ≡ₚ n :: left_list st ++ right_list st →
            update_removed_node
              (mkState (input_dict st) (output_dict st) buckets'
                       (node_to_bucket_key st) ll rl fb) n = Ok st' →
            loop_inv N st' ∧
            ∃ n, n ∈ remaining st ∧ edge_w (output_dict st) n n = None ∧
                 input_dict st' = remove_node n (input_dict st) ∧
                 output_dict st' = remove_node n (output_dict st)) as Hfinish.
  { intros key n buckets' ll rl fb Hin Hne' Hmem' Hperm Hupd.
    assert (n ∈ remaining st) as Hn by (by apply Hmem in Hin as [? _]).
    destruct (edge_w (output_dict st) n n) as [w|] eqn:Hself.
    { rewrite (update_removed_node_self_loop (remaining st)) in Hupd;
        simpl; [done|done|done|by rewrite Hself|].
      intros k Hk. apply Hmem' in Hk as [Hk Hnot].
      apply Hnot. split; [|done].
      apply Hmem in Hk as [_ <-]. by apply Hmem in Hin as [_ <-]. }
    destruct (update_removed_node_spec (remaining st)
                (mkState (input_dict st) (output_dict st) buckets'
                         (node_to_bucket_key st) ll rl fb) n)
      as (b2 & i2 & Hrun' & Hok2); simpl; [done|done|done| |].
    { by apply buckets_ok_pop with (buckets st) key. }
    rewrite Hrun' in Hupd. injection Hupd as <-. split.
    - split; simpl.
      + unfold remaining. simpl. rewrite dom_remove_node.
        by apply graph_ok_remove_node.
      + unfold remaining. simpl. by rewrite dom_remove_node.
      + unfold remaining. simpl. rewrite dom_remove_node.
        rewrite <-Hp. rewrite (app_assoc ll rl), Hperm.
        rewrite (union_difference_singleton_L n (remaining st)) by done.
        rewrite elements_union_singleton by set_solver.
        unfold remaining. simpl.
        rewrite (app_assoc (left_list st)), <-Permutation_middle. done.
    - exists n. done. }
  unfold loop_body in Hrun.
  destruct (bucket_nonempty (buckets st) Sinks) eqn:Hsinks.
  { destruct (pop_from_bucket_spec (buckets st) Sinks Hne Hsinks)
      as (n & b' & Hpop & Hin & Hne' & Hmem').
    rewrite Hpop in Hrun. simpl in Hrun.
    eapply Hfinish; [done..| |done].
    rewrite app_assoc. by rewrite <-Permutation_cons_append. }
  destruct (bucket_nonempty (buckets st) Sources) eqn:Hsources.
  { destruct (pop_from_bucket_spec (buckets st) Sources Hne Hsources)
      as (n & b' & Hpop & Hin & Hne' & Hmem').
    rewrite Hpop in Hrun. simpl in Hrun.
    eapply Hfinish; [done..| |done].
    rewrite <-app_assoc. simpl. by rewrite <-Permutation_middle. }
  apply bind_Ok in Hrun as (max_delta & Hmax & Hrun).
  apply bind_Ok in Hrun as ([n b'] & Hpop & Hrun).
  apply bind_Ok in Hrun as (ins & Hins & Hrun).
  assert (bucket_nonempty (buckets st) (Delta max_delta) = true) as Hmaxne.
  { unfold pop_from_bucket in Hpop.
    apply bind_Ok in Hpop as (s & Hs%getitem_Ok & Hpop).
    unfold bucket_nonempty. rewrite Hs. apply bool_decide_eq_true.
    by apply Hne with (Delta max_delta). }
  destruct (pop_from_bucket_spec (buckets st) (Delta max_delta) Hne Hmaxne)
    as (n' & b'' & Hpop' & Hin & Hne' & Hmem').
  rewrite Hpop in Hpop'. injection Hpop' as <- <-.
  eapply Hfinish; [done..| |done].
  rewrite <-app_assoc. simpl. by rewrite <-Permutation_middle.
Qed.
End AnyGraph.

(** ** Acyclic graphs *)

Lemma tc_absorb {A} (R R' : relation A) x y :
  (∀ a b, R' a b → tc R a b) → tc R' x y → tc R x y.
Proof.
  intros Hsub. induction 1 as [a b Hab|a b c Hab _ IH]; [by apply Hsub|].
  transitivity b; [by apply Hsub|done].
Qed.

(** A relation under which every member of a finite non-empty set has a
    successor in the set has a cycle. *)
Lemma successors_make_cycle (S : gset nat) :
  ∀ E : relation nat,
    S ≠ ∅ → (∀ x, x ∈ S → ∃ y, y ∈ S ∧ E x y) → ∃ x, tc E x x.
Proof.
  induction S as [|x X Hx IH] using set_ind_L; intros E Hne Hsucc; [done|].
  destruct (Hsucc x) as (z & Hz & Hxz); [set_solver|].
  destruct (decide (z = x)) as [->|Hzx]; [exists x; by apply tc_once|].
  assert (z ∈ X) as HzX by set_solver.
  destruct (IH (λ a b, E a b ∨ (E a x ∧ E x b))) as [c Hc].
  - set_solver.
  - intros a Ha. destruct (Hsucc a) as (y & Hy & Hay); [set_solver|].
    destruct (decide (y = x)) as [->|Hyx].
    + exists z. split; [done|]. right. done.
    + exists y. split; [set_solver|]. by left.
  - exists c. apply (tc_absorb E (λ a b, E a b ∨ (E a x ∧ E x b)) c c); [|done].
    intros a b [Hab|[Hax Hxb]]; [by apply tc_once|].
    apply tc_l with x; [done|by apply tc_once].
Qed.

(** A non-empty acyclic graph has a sink. *)
Lemma acyclic_has_sink V (input_dict output_dict : adj) :
  graph_ok V input_dict output_dict → adj_acyclic output_dict → V ≠ ∅ →
  ∃ n, n ∈ V ∧ output_dict !! n = Some ∅.
Proof.
  intros Hg Hacyc Hne.
  destruct (decide (Exists (λ n, output_dict !! n = Some ∅) (elements V)))
    as [(n & Hn%elem_of_elements & Hsink)%Exists_exists|Hnone]; [by exists n|].
  exfalso.
  destruct (successors_make_cycle V (adj_rel output_dict) Hne) as [c Hc];
    [|by apply (Hacyc c)].
  intros x Hx.
  assert (is_Some (output_dict !! x)) as [m Hm].
  { apply elem_of_dom. by rewrite (g_dom_out _ _ _ Hg). }
  destruct (map_choose m) as (y & w & Hy).
  { intros ->. apply Hnone, Exists_exists. exists x.
    split; [by apply elem_of_elements|done]. }
  assert (adj_rel output_dict x y) as Hxy.
  { unfold adj_rel. by rewrite (edge_w_lookup _ _ _ _ Hm), Hy. }
  exists y. split; [|done]. by destruct (graph_ok_closed V _ _ _ _ Hg Hxy).
Qed.

Lemma adj_acyclic_remove_node n (d : adj) :
  adj_acyclic d → adj_acyclic (remove_node n d).
Proof.
  intros Hacyc a Ha. apply (Hacyc a).
  apply (tc_absorb (adj_rel d) (adj_rel (remove_node n d))); [|done].
  intros x y Hxy. apply tc_once. unfold adj_rel in *.
  rewrite edge_w_remove_node in Hxy. case_decide; [by destruct Hxy|done].
Qed.

Lemma adj_acyclic_irreflexive (d : adj) : adj_acyclic d → irreflexive d.
Proof.
  intros Hacyc a. apply eq_None_not_Some. intros Ha.
  apply (Hacyc a). by apply tc_once.
Qed.

(** ** Counting backward edges *)

Lemma sumZ_mono {A} (f g : A → Z) (l : list A) :
  (∀ x, (f x ≤ g x)%Z) → (sumZ f l ≤ sumZ g l)%Z.
Proof.
  intros Hfg. induction l as [|x l IH]; simpl; [lia|].
  specialize (Hfg x). lia.
Qed.

Lemma backward_weight_mono (f g : nat → nat → Z) ord :
  (∀ a b, (f a b ≤ g a b)%Z) →
  (backward_weight f ord ≤ backward_weight g ord)%Z.
Proof.
  intros Hfg. induction ord as [|a l IH]; simpl; [lia|].
  pose proof (sumZ_mono (λ b, f b a) (λ b, g b a) l (λ b, Hfg b a)). lia.
Qed.

(** An order in which no edge is counted backwards places the source of
    every edge before its target. *)
Lemma edge_count_zero_forward (d : adj) ord a b i j :
  NoDup ord → backward_weight (edge_count d) ord = 0%Z →
  is_Some (edge_w d a b) → a ≠ b →
  ord !! i = Some a → ord !! j = Some b → i < j.
Proof.
  intros Hnd Hzero Hab Hne Hi Hj.
  pose proof (backward_weight_mono (single_edge a b 1) (edge_count d) ord) as Hle.
  rewrite (backward_weight_single a b 1 ord i j), Hzero in Hle by done.
  assert (i ≠ j) by (intros ->; congruence).
  destruct (decide (j < i)); [|lia].
  exfalso. enough (1 ≤ 0)%Z by lia. apply Hle.
  intros x y. unfold single_edge, edge_count.
  destruct (decide (x = a ∧ y = b)) as [[-> ->]|?].
  - rewrite decide_True by done. lia.
  - case_decide; lia.
Qed.

(** ** The main loop on an acyclic graph *)

Section AcyclicLoop.
Context `{Runtime}.

Lemma acyclic_inv_step N d0 st :
  acyclic_inv N d0 st → placed st < N →
  ∃ st', loop_body st = Ok st' ∧ acyclic_inv N d0 st' ∧
         placed st' = S (placed st).
Proof.
  intros (Hinv & Hacyc & Hfb & Hcount) Hlt.
  pose proof (adj_acyclic_irreflexive _ Hacyc) as Hirr.
  destruct (loop_body_spec N st Hinv Hirr Hlt)
    as (n & st' & Hrun & Hn & Hin & Hout & Hround & Hinv').
  exists st'. split; [done|]. split; [|by eapply round_of_placed].
  pose proof (placed_remaining N st Hinv) as Hsize.
  pose proof Hinv as [Hg Hbk Hp].
  pose proof (bk_member _ _ _ _ Hbk) as Hmem.
  (* a sink exists, so the first branch was taken *)
  destruct (acyclic_has_sink _ _ _ Hg Hacyc) as (n0 & Hn0 & Hsink).
  { intros Hempty. rewrite Hempty, size_empty in Hsize. lia. }
  assert (bucket_nonempty (buckets st) Sinks = true) as Hsinks.
  { apply bucket_nonempty_true; [apply Hbk|]. exists n0. apply Hmem.
    split; [done|]. by apply bucket_key_of_sink. }
  destruct Hround as [(_ & Hkey & Hl & Hr & Hfb')|[(? & _)|(? & _)]];
    [|congruence..].
  apply Hmem in Hkey as [_ Hkey].
  split; [done|]. split; [rewrite Hout; by apply adj_acyclic_remove_node|].
  split; [congruence|].
  intros ord' Hord'. rewrite Hl, Hr.
  unfold remaining in Hord'. rewrite Hout, dom_remove_node in Hord'.
  fold (remaining st) in Hord'.
  assert (n ∉ ord') as Hnord.
  { rewrite Hord', elem_of_elements. set_solver. }
  assert (elements (remaining st) ≡ₚ n :: ord') as Hperm.
  { rewrite (union_difference_singleton_L n (remaining st)) at 1 by done.
    rewrite elements_union_singleton by set_solver. by rewrite Hord'. }
  rewrite reverse_snoc.
  change (n :: reverse (right_list st)) with ([n] ++ reverse (right_list st)).
  rewrite (app_assoc ord').
  rewrite (Hcount (ord' ++ [n])) by (by rewrite Hperm, <-Permutation_cons_append).
  rewrite backward_weight_snoc, sumZ_zero.
  - rewrite Z.add_0_r. apply backward_weight_ext. intros a b Ha Hb.
    unfold edge_count. rewrite Hout, edge_w_remove_node.
    rewrite (decide_False (P := a = n ∨ b = n)); [done|].
    intros [->| ->]; done.
  - intros a _. unfold edge_count.
    rewrite (bucket_key_Sinks _ _ _ Hkey). rewrite decide_False; [done|].
    by intros [? ?].
Qed.

Lemma acyclic_loop_spec N d0 st :
  acyclic_inv N d0 st → placed st = 0 →
  ∃ st', main_loop N N st = Ok st' ∧
         left_list st' ++ reverse (right_list st') ≡ₚ seq 0 N ∧
         feedback_val st' = 0%Z ∧
         backward_weight (edge_count d0)
           (left_list st' ++ reverse (right_list st')) = 0%Z.
Proof.
  intros Hinv Hp.
  destruct (main_loop_rule (acyclic_inv N d0) N (acyclic_inv_step N d0) N st Hinv)
    as (st' & Hrun & (Hinv' & _ & Hfb & Hcount) & Hend); [lia|].
  exists st'. split; [done|].
  pose proof (placed_remaining N st' Hinv') as Hsize.
  assert (remaining st' = ∅) as Hempty.
  { apply leibniz_equiv, size_empty_inv. lia. }
  split_and!; [|done|].
  - rewrite <-(li_placed _ _ Hinv'), Hempty, elements_empty, app_nil_r.
    by rewrite reverse_Permutation.
  - specialize (Hcount []). rewrite Hempty, elements_empty in Hcount.
    simpl in Hcount. by rewrite Hcount.
Qed.
End AcyclicLoop.

(** ** The whole of [compute_order] *)

Section Whole.
Context `{Runtime} `{Countable Node}.
Implicit Types (connections : list (@row Node)).

(** Every row leads from a node of smaller to a node of larger rank: a
    handy way to show that an input is acyclic. *)
Lemma ranked_acyclic connections (rank : Node → nat) :
  Forall (λ r, rank (r0 r) < rank (r1 r)) connections → acyclic connections.
Proof.
  rewrite Forall_forall. intros Hrank u Hu.
  assert (∀ x y, tc (edge_rel connections) x y → rank x < rank y) as Hlt.
  { induction 1 as [x y (r & Hr & <- & <-)|x y z (r & Hr & <- & <-) _ IH].
    - by apply Hrank.
    - pose proof (Hrank r Hr). simpl in *. lia. }
  specialize (Hlt u u Hu). lia.
Qed.

Lemma acyclic_no_self_loop connections :
  acyclic connections → no_self_loop connections.
Proof.
  intros Hacyc. unfold no_self_loop. rewrite Forall_forall. intros r Hr Heq.
  apply (Hacyc (r0 r)), tc_once. exists r. auto.
Qed.

(** On an input without self loops [compute_order] ends normally: the
    order is a permutation of the node universe, the final validation
    passes, and the tracked feedback total is the backward weight of the
    order. *)
Lemma compute_order_run_spec (g0 : rng) connections (random_seed : Z) :
  no_self_loop connections →
  ∃ o, compute_order_run g0 connections random_seed = Ok o ∧
       res o ≡ₚ elements (nodes_from_connections_table connections) ∧
       fsw o = final_feedback_val o ∧
       final_feedback_val o = backward_total (res o) connections.
Proof.
  intros Hno. unfold compute_order_run.
  destruct (build_spec g0 connections random_seed) as (b & -> & Hb). simpl.
  destruct (initial_state_spec connections b Hb Hno) as (st0 & -> & Hp0 & Hinv0).
  simpl.
  destruct (main_loop_spec _ _ st0 Hinv0 Hp0) as (st1 & -> & Hperm & Hbw).
  simpl.
  destruct (finalize_spec connections b st1 Hb Hperm Hbw)
    as (o & -> & Hres & Hfsw & Hfb & _ & _ & Htotal).
  exists o. split_and!; auto.
Qed.

Lemma built_acyclic connections (b : built) :
  built_ok connections b → acyclic connections →
  adj_acyclic (b_output_dict b).
Proof.
  intros Hb Hacyc.
  assert (∀ a z, adj_rel (b_output_dict b) a z →
            ∃ u v, b_nodes_compacted b !! u = Some a ∧
                   b_nodes_compacted b !! v = Some z ∧
                   edge_rel connections u v) as Hedge.
  { intros a z Haz. unfold adj_rel in Haz.
    destruct (bo_closed _ _ Hb a z Haz)
      as [[u Hu]%(bo_range _ _ Hb) [v Hv]%(bo_range _ _ Hb)].
    exists u, v. split; [done|]. split; [done|].
    rewrite (bo_out _ _ Hb u v a z Hu Hv) in Haz.
    apply merged_is_Some in Haz as (r & Hr & ? & ?). by exists r. }
  assert (∀ a z, tc (adj_rel (b_output_dict b)) a z →
            ∀ u, b_nodes_compacted b !! u = Some a →
                 ∃ v, b_nodes_compacted b !! v = Some z ∧
                      tc (edge_rel connections) u v) as Hpath.
  { induction 1 as [a z Haz|a m z Ham _ IH]; intros u Hu.
    - destruct (Hedge a z Haz) as (u' & v & Hu' & Hv & Huv).
      rewrite (bo_inj _ _ Hb u u' a Hu Hu'). exists v. split; [done|].
      by apply tc_once.
    - destruct (Hedge a m Ham) as (u' & v' & Hu' & Hv' & Huv).
      rewrite (bo_inj _ _ Hb u u' a Hu Hu').
      destruct (IH v' Hv') as (v & Hv & Hvv). exists v. split; [done|].
      by apply tc_l with v'. }
  intros a Ha.
  assert (∃ u, b_nodes_compacted b !! u = Some a) as [u Hu].
  { inversion Ha as [x y Hxy|x y z Hxy _]; subst.
    - destruct (Hedge a a Hxy) as (u & _ & Hu & _). eauto.
    - destruct (Hedge a y Hxy) as (u & _ & Hu & _). eauto. }
  destruct (Hpath a a Ha u Hu) as (v & Hv & Huv).
  rewrite (bo_inj _ _ Hb v u a Hv Hu) in Huv. by apply (Hacyc u).
Qed.

(** On an acyclic input nothing is charged to the feedback total and every
    row leads forward in the order. *)
Lemma compute_order_run_acyclic (g0 : rng) connections (random_seed : Z) :
  acyclic connections →
  ∃ o, compute_order_run g0 connections random_seed = Ok o ∧
       res o ≡ₚ elements (nodes_from_connections_table connections) ∧
       final_feedback_val o = 0%Z ∧
       ∀ r, r ∈ connections →
            position (res o) (r0 r) < position (res o) (r1 r).
Proof.
  intros Hacyc. pose proof (acyclic_no_self_loop _ Hacyc) as Hno.
  unfold compute_order_run.
  destruct (build_spec g0 connections random_seed) as (b & -> & Hb). simpl.
  pose proof (built_acyclic _ _ Hb Hacyc) as Hacyc0.
  set (N := size (b_nodes_compacted b)).
  set (d0 := b_output_dict b) in *.
  destruct (initial_state_graph connections b Hb (λ _, Hno))
    as (st0 & apl & -> & _ & Hapl & Hfb0 & Hl0 & Hr0 & Ho0 & Hinv0 & Hfbinv0).
  simpl. fold N in Hinv0. fold d0 in Hapl, Hfb0, Ho0, Hfbinv0.
  (* no two nodes are joined in both directions *)
  assert (∀ a z, is_Some (edge_w d0 a z) → edge_w d0 z a = None) as Hanti.
  { intros a z Haz. apply eq_None_not_Some. intros Hza.
    apply (Hacyc0 a). apply tc_l with z; [done|by apply tc_once]. }
  assert (apl = []) as ->.
  { destruct apl as [|[n1 n2] apl]; [done|].
    destruct (proj1 (Hapl n1 n2)) as (_ & H12 & H21); [left|].
    rewrite (Hanti _ _ H12) in H21. by destruct H21. }
  assert (∀ a z, edge_w (output_dict st0) a z = edge_w d0 a z) as Hsame.
  { intros a z. rewrite Ho0. unfold resolved.
    destruct (edge_w d0 a z) as [x|] eqn:Hx; [|done].
    case_decide; [done|]. by rewrite (Hanti a z) by (by rewrite Hx). }
  assert (run_inv N (wf d0) st0 ∧ acyclic_inv N d0 st0) as Hboth.
  { split.
    - split; [done|]. split; [|done].
      intros a. rewrite Hsame. by apply adj_acyclic_irreflexive.
    - split; [done|]. split.
      + intros a Ha. apply (Hacyc0 a).
        apply (tc_absorb (adj_rel d0) (adj_rel (output_dict st0))); [|done].
        intros x y Hxy. apply tc_once. unfold adj_rel in *. by rewrite <-Hsame.
      + split; [by rewrite Hfb0|].
        intros ord _. rewrite Hl0, Hr0. simpl. rewrite app_nil_r.
        apply backward_weight_ext. intros a z _ _.
        unfold edge_count. by rewrite Hsame. }
  destruct (main_loop_rule (λ st, run_inv N (wf d0) st ∧ acyclic_inv N d0 st) N)
    with (fuel := N) (st := st0)
    as (st1 & -> & [(Hinv1 & _ & Hfb1) (_ & _ & Hzero & Hcount)] & Hend).
  { intros st [Hrun Hac] Hlt.
    destruct (run_inv_step N (wf d0) st Hrun Hlt) as (st' & Hst' & Hrun' & Hp').
    destruct (acyclic_inv_step N d0 st Hac Hlt) as (st'' & Hst'' & Hac' & _).
    assert (st'' = st') as -> by congruence. eauto. }
  { done. }
  { unfold placed. rewrite Hl0, Hr0. simpl. lia. }
  simpl.
  pose proof (placed_remaining N st1 Hinv1) as Hsize.
  assert (remaining st1 = ∅) as Hempty.
  { apply leibniz_equiv, size_empty_inv. lia. }
  set (order := left_list st1 ++ reverse (right_list st1)).
  assert (order ≡ₚ seq 0 N) as Hperm.
  { unfold order.
    rewrite <-(li_placed _ _ Hinv1), Hempty, elements_empty, app_nil_r.
    by rewrite reverse_Permutation. }
  assert (backward_weight (wf d0) order = feedback_val st1) as Hbw.
  { specialize (Hfb1 []). rewrite Hempty, elements_empty in Hfb1.
    simpl in Hfb1. unfold order. rewrite Hfb1 by done. lia. }
  assert (backward_weight (edge_count d0) order = 0%Z) as Hforward.
  { specialize (Hcount []). rewrite Hempty, elements_empty in Hcount.
    simpl in Hcount. unfold order. by rewrite Hcount. }
  destruct (finalize_spec connections b st1 Hb Hperm Hbw)
    as (o & -> & Hres & _ & Hfb & _ & Hall & _).
  exists o. split; [done|]. split; [done|]. split; [congruence|].
  intros r Hr.
  assert (NoDup order) as Hnd by (rewrite Hperm; apply NoDup_seq).
  assert (r0 r ∈ res o ∧ r1 r ∈ res o) as [H0' H1'].
  { rewrite Hres, !elem_of_elements. split; apply elem_of_nodes; eauto. }
  apply position_lookup in H0', H1'.
  destruct (Forall2_lookup_r _ _ _ _ _ Hall H0') as (a & Ha & Hca).
  destruct (Forall2_lookup_r _ _ _ _ _ Hall H1') as (z & Hz & Hcz).
  apply (edge_count_zero_forward d0 order a z); try done.
  - unfold d0. rewrite (bo_out _ _ Hb (r0 r) (r1 r) a z Hca Hcz).
    apply merged_is_Some. by exists r.
  - intros ->. apply (no_self_loop_elem _ r Hno Hr).
    by apply (bo_inj _ _ Hb _ _ z).
Qed.
End Whole.

(** ** Rounds of the loop in any state *)

Lemma update_removed_node_fields (st st' : state) (node : nat) :
  update_removed_node st node = Ok st' →
  left_list st' = left_list st ∧ right_list st' = right_list st ∧
  feedback_val st' = feedback_val st.
Proof.
  unfold update_removed_node. intros Hrun.
  do 7 (apply bind_Ok in Hrun as (? & _ & Hrun)).
  apply bind_Ok in Hrun as ([b' i'] & _ & Hrun). by injection Hrun as <-.
Qed.

Lemma pop_from_bucket_Ok `{Runtime} buckets key n buckets' :
  pop_from_bucket buckets key = Ok (n, buckets') → in_bucket buckets key n.
Proof.
  unfold pop_from_bucket. intros (s & Hs%getitem_Ok & Hpop)%bind_Ok.
  case_decide as Hne; [done|]. injection Hpop as <- _.
  exists s. split; [done|]. by apply set_pop_elem.
Qed.

Section Rounds.
Context `{Runtime}.

(** A round that ends normally did what lines 201-224 say, whatever the
    state it started in. *)
Lemma loop_body_round st st' :
  loop_body st = Ok st' → ∃ n, round_of st st' n.
Proof.
  unfold loop_body. intros Hrun.
  destruct (bucket_nonempty (buckets st) Sinks) eqn:Hsinks.
  { apply bind_Ok in Hrun as ([n b'] & Hpop%pop_from_bucket_Ok & Hupd).
    apply update_removed_node_fields in Hupd as (? & ? & ?).
    exists n. left. done. }
  destruct (bucket_nonempty (buckets st) Sources) eqn:Hsources.
  { apply bind_Ok in Hrun as ([n b'] & Hpop%pop_from_bucket_Ok & Hupd).
    apply update_removed_node_fields in Hupd as (? & ? & ?).
    exists n. right. left. done. }
  apply bind_Ok in Hrun as (max_delta & Hmax & Hrun).
  apply bind_Ok in Hrun as ([n b'] & Hpop%pop_from_bucket_Ok & Hrun).
  apply bind_Ok in Hrun as (ins & Hins%getitem_Ok & Hupd).
  apply update_removed_node_fields in Hupd as (? & ? & ?).
  exists n. right. right. split; [done|]. split; [done|].
  exists max_delta, ins. split_and!; try done.
  intros d m (s & Hs & _).
  destruct (py_max_spec (numeric_keys (buckets st))) as (m' & Hm' & _ & Hle).
  { intros Hnil. by rewrite Hnil in Hmax. }
  assert (m' = max_delta) as -> by congruence.
  apply Hle, elem_of_numeric_keys. eauto.
Qed.

(** On a well-formed state with nodes left, a round either ends normally
    or raises [KeyError]. *)
Lemma loop_body_outcome N st :
  loop_inv N st → placed st < N →
  (∃ st', loop_body st = Ok st') ∨ loop_body st = Raise KeyError.
Proof.
  intros Hinv Hlt.
  pose proof (placed_remaining N st Hinv) as Hsize.
  destruct Hinv as [Hg Hbk Hp].
  pose proof (bk_nonempty _ _ _ _ Hbk) as Hne.
  pose proof (bk_member _ _ _ _ Hbk) as Hmem.
  assert (∀ key n buckets' ll rl fb,
            in_bucket (buckets st) key n →
            no_empty_bucket buckets' →
            (∀ k m, in_bucket buckets' k m ↔
                    in_bucket (buckets st) k m ∧ ¬ (k = key ∧ m = n)) →
            (∃ st', update_removed_node
                      (mkState (input_dict st) (output_dict st) buckets'
                               (node_to_bucket_key st) ll rl fb) n = Ok st') ∨
            update_removed_node
              (mkState (input_dict st) (output_dict st) buckets'
                       (node_to_bucket_key st) ll rl fb) n = Raise KeyError)
    as Hfinish.
  { intros key n buckets' ll rl fb Hin Hne' Hmem'.
    assert (n ∈ remaining st) as Hn by (by apply Hmem in Hin as [? _]).
    destruct (edge_w (output_dict st) n n) as [w|] eqn:Hself.
    - right. apply (update_removed_node_self_loop (remaining st)); simpl;
        [done|done|by rewrite Hself|].
      intros k Hk. apply Hmem' in Hk as [Hk Hnot].
      apply Hnot. split; [|done].
      apply Hmem in Hk as [_ <-]. by apply Hmem in Hin as [_ <-].
    - left.
      destruct (update_removed_node_spec (remaining st)
                  (mkState (input_dict st) (output_dict st) buckets'
                           (node_to_bucket_key st) ll rl fb) n)
        as (b2 & i2 & Hrun' & _); simpl; [done|done|done| |by eexists].
      by apply buckets_ok_pop with (buckets st) key. }
  unfold loop_body.
  destruct (bucket_nonempty (buckets st) Sinks) eqn:Hsinks.
  { destruct (pop_from_bucket_spec (buckets st) Sinks Hne Hsinks)
      as (n & b' & -> & Hin & Hne' & Hmem'). simpl. by eapply Hfinish. }
  destruct (bucket_nonempty (buckets st) Sources) eqn:Hsources.
  { destruct (pop_from_bucket_spec (buckets st) Sources Hne Hsources)
      as (n & b' & -> & Hin & Hne' & Hmem'). simpl. by eapply Hfinish. }
  assert (∃ n0, n0 ∈ remaining st) as [n0 Hn0].
  { apply size_pos_elem_of. lia. }
  assert (∀ key, bucket_nonempty (buckets st) key = false →
                 ∀ n, ¬ in_bucket (buckets st) key n) as Hnone.
  { intros key Hkey n Hn.
    assert (bucket_nonempty (buckets st) key = true)
      by (apply bucket_nonempty_true; eauto).
    congruence. }
  assert (∃ d0, in_bucket (buckets st) (Delta d0) n0) as [d0 Hd0].
  { destruct (compute_bucket_key_for_node (input_dict st) (output_dict st) n0)
      as [| |d0] eqn:Hk.
    - exfalso. apply (Hnone Sinks Hsinks n0). by apply Hmem.
    - exfalso. apply (Hnone Sources Hsources n0). by apply Hmem.
    - exists d0. by apply Hmem. }
  destruct (py_max_spec (numeric_keys (buckets st)))
    as (max_delta & -> & Hmaxin & Hmax).
  { intros Hnil. destruct Hd0 as (s & Hs & _).
    assert (d0 ∈ numeric_keys (buckets st)) as Hin
      by (apply elem_of_numeric_keys; eauto).
    rewrite Hnil in Hin. by apply elem_of_nil in Hin. }
  simpl.
  assert (bucket_nonempty (buckets st) (Delta max_delta) = true) as Hmaxne.
  { apply elem_of_numeric_keys in Hmaxin as [s Hs].
    unfold bucket_nonempty. rewrite Hs. apply bool_decide_eq_true.
    by apply Hne with (Delta max_delta). }
  destruct (pop_from_bucket_spec (buckets st) (Delta max_delta) Hne Hmaxne)
    as (n & b' & -> & Hin & Hne' & Hmem'). simpl.
  assert (is_Some (input_dict st !! n)) as [ins Hins].
  { apply elem_of_dom. rewrite (g_dom_in _ _ _ Hg). by apply Hmem in Hin as [? _]. }
  rewrite (getitem_Some _ _ _ Hins). simpl. by eapply Hfinish.
Qed.

(** While a node joined to itself is left, the loop cannot end normally:
    the round that picks this node raises [KeyError]. *)
Lemma main_loop_self_loop N a :
  ∀ fuel st,
    loop_inv N st → a ∈ remaining st →
    is_Some (edge_w (output_dict st) a a) → N ≤ placed st + fuel →
    main_loop fuel N st = Raise KeyError.
Proof.
  induction fuel as [|fuel IH]; intros st Hinv Ha Hself Hfuel.
  all: pose proof (placed_remaining N st Hinv) as Hsize.
  all: assert (0 < size (remaining st)) as Hpos
    by (destruct (decide (size (remaining st) = 0)) as [Hz%size_empty_inv|];
        [set_solver|lia]).
  - lia.
  - simpl. rewrite decide_True by (unfold placed in *; lia).
    destruct (loop_body_outcome N st Hinv) as [[st' Hst']| ->]; [lia| |done].
    rewrite Hst'. simpl.
    destruct (loop_body_invariant N st st' Hinv Hst')
      as (Hinv' & n & Hn & Hnself & _ & Hout).
    destruct (loop_body_round st st' Hst') as [m Hround].
    pose proof (round_of_placed _ _ _ Hround) as Hplaced.
    assert (a ≠ n) as Hne.
    { intros ->. rewrite Hnself in Hself. by destruct Hself. }
    apply IH; [done| | |lia].
    + unfold remaining in *. rewrite Hout, dom_remove_node. set_solver.
    + rewrite Hout, edge_w_remove_node. rewrite decide_False; [done|].
      naive_solver.
Qed.
End Rounds.

(** ** Reachable states and inputs with self loops *)

Section Reachable.
Context `{Runtime} `{Countable Node}.
Implicit Types (connections : list (@row Node)).

Lemma self_loop_row connections :
  ¬ no_self_loop connections → ∃ r, r ∈ connections ∧ r0 r = r1 r.
Proof.
  unfold no_self_loop. intros Hno%not_Forall_Exists; [|apply _].
  apply Exists_exists in Hno as (r & Hr & Hnn). exists r. split; [done|].
  simpl in Hnn. by destruct (decide (r0 r = r1 r)).
Qed.

(** With assertions on, an input with a self loop is stopped by the second
    sanity check. *)
Lemma initial_state_self_loop connections (b : built) :
  built_ok connections b → py_debug = true → ¬ no_self_loop connections →
  initial_state b = Raise AssertionError.
Proof.
  intros Hb Hdbg (r & Hr & Heq)%self_loop_row.
  destruct (built_self_loop _ _ r Hb Hr Heq) as [i Hi].
  pose proof (built_graph_ok _ _ Hb) as Hg.
  destruct (resolve_anti_parallel_spec _ _ _ Hg)
    as (apl & i1 & o1 & _ & Hrun & _ & _ & Hg1 & Ho1 & _).
  unfold initial_state. rewrite Hrun. simpl.
  rewrite (check_resolved_self_loop _ i1 o1 i Hg1 Hdbg); [done|].
  rewrite Ho1. unfold resolved. destruct Hi as [w ->].
  by rewrite decide_True.
Qed.

(** Every state the main loop goes through is well formed, and free of
    self loops when the input is. *)
Lemma state_after_inv (k : nat) (g0 : rng) connections (random_seed : Z) st :
  state_after k g0 connections random_seed = Ok st →
  ∃ b, build g0 connections random_seed = Ok b ∧ built_ok connections b ∧
       loop_inv (size (b_nodes_compacted b)) st ∧
       (no_self_loop connections → irreflexive (output_dict st)).
Proof.
  unfold state_after. intros Hrun.
  destruct (build_spec g0 connections random_seed) as (b & Hbuild & Hb).
  rewrite Hbuild in Hrun. simpl in Hrun.
  apply bind_Ok in Hrun as (st0 & Hst0 & Hrun).
  exists b. split; [done|]. split; [done|].
  assert (loop_inv (size (b_nodes_compacted b)) st0 ∧
          (no_self_loop connections → irreflexive (output_dict st0)))
    as [Hinv0 Hirr0].
  { destruct (initial_state_graph connections b Hb)
      as (st0' & apl & Hst0' & _ & _ & _ & _ & _ & Ho & Hinv & _).
    - intros Hdbg. destruct (decide (no_self_loop connections)) as [?|Hno]; [done|].
      rewrite (initial_state_self_loop _ _ Hb Hdbg Hno) in Hst0. done.
    - assert (st0' = st0) as -> by congruence. split; [done|].
      intros Hno a. rewrite Ho. unfold resolved.
      by rewrite (built_irreflexive _ _ Hb Hno). }
  clear Hst0. revert st0 Hinv0 Hirr0 Hrun.
  induction k as [|k IH]; intros st0 Hinv0 Hirr0 Hrun; simpl in Hrun.
  - by injection Hrun as <-.
  - case_decide; [|by injection Hrun as <-].
    apply bind_Ok in Hrun as (st1 & Hst1 & Hrun).
    destruct (loop_body_invariant _ _ _ Hinv0 Hst1)
      as (Hinv1 & n & _ & _ & _ & Hout).
    apply (IH st1); [done| |done].
    intros Hno. rewrite Hout. by apply irreflexive_remove_node, Hirr0.
Qed.

(** An input with a self loop never yields an order: with assertions on,
    the second sanity check stops it before the main loop; with assertions
    off, the loop raises [KeyError] when it picks the node. *)
Lemma compute_order_run_self_loop (g0 : rng) connections (random_seed : Z) :
  ¬ no_self_loop connections →
  compute_order_run g0 connections random_seed
  = Raise (if py_debug then AssertionError else KeyError).
Proof.
  intros Hno. unfold compute_order_run.
  destruct (build_spec g0 connections random_seed) as (b & -> & Hb). simpl.
  destruct py_debug eqn:Hdbg.
  { by rewrite (initial_state_self_loop _ _ Hb Hdbg Hno). }
  destruct (initial_state_graph connections b Hb)
    as (st0 & apl & -> & _ & _ & _ & Hl0 & Hr0 & Ho0 & Hinv0 & _); [congruence|].
  simpl.
  destruct (self_loop_row _ Hno) as (r & Hr & Heq).
  destruct (built_self_loop _ _ r Hb Hr Heq) as [i Hi].
  assert (is_Some (edge_w (output_dict st0) i i)) as Hself.
  { rewrite Ho0. unfold resolved. destruct Hi as [w ->]. by rewrite decide_True. }
  rewrite (main_loop_self_loop _ i); [done|done| |done|].
  - unfold remaining. by apply (edge_w_dom _ i i).
  - unfold placed. rewrite Hl0, Hr0. simpl. lia.
Qed.
(** Whatever the input, the fuel given to the main loop suffices: a run
    ends normally or with one of the two Python exceptions above. *)
Lemma compute_order_run_outcomes (g0 : rng) connections (random_seed : Z) :
  (∃ o, compute_order_run g0 connections random_seed = Ok o) ∨
  compute_order_run g0 connections random_seed = Raise AssertionError ∨
  compute_order_run g0 connections random_seed = Raise KeyError.
Proof.
  destruct (decide (no_self_loop connections)) as [Hno|Hno].
  - left.
    destruct (compute_order_run_spec g0 connections random_seed Hno)
      as (o & Hrun & _). by exists o.
  - right. rewrite (compute_order_run_self_loop g0 connections random_seed Hno).
    destruct py_debug; auto.
Qed.
End Reachable.

(** ** The total weight of a graph *)

Lemma sumZ_swap {A B} (f : A → B → Z) (l1 : list A) (l2 : list B) :
  sumZ (λ a, sumZ (λ b, f a b) l2) l1 = sumZ (λ b, sumZ (λ a, f a b) l1) l2.
Proof.
  induction l1 as [|x l1 IH]; simpl.
  - symmetry. by apply sumZ_zero.
  - by rewrite IH, <-sumZ_plus.
Qed.

Lemma sumZ_minus {A} (f g : A → Z) (l : list A) :
  sumZ (λ x, (f x - g x)%Z) l = (sumZ f l - sumZ g l)%Z.
Proof. induction l as [|x l IH]; simpl; [done|]. rewrite IH. lia. Qed.

Lemma sumZ_nonneg {A} (f : A → Z) (l : list A) :
  (∀ x, x ∈ l → (0 ≤ f x)%Z) → (0 ≤ sumZ f l)%Z.
Proof.
  induction l as [|x l IH]; intros Hf; simpl; [lia|].
  pose proof (Hf x (list_elem_of_here _ _)).
  assert (0 ≤ sumZ f l)%Z by (apply IH; intros y Hy; apply Hf; by right).
  lia.
Qed.

Lemma sumZ_negative {A} (f : A → Z) (l : list A) :
  l ≠ [] → (∀ x, x ∈ l → (f x < 0)%Z) → (sumZ f l < 0)%Z.
Proof.
  induction l as [|x l IH]; intros Hne Hf; [done|]. simpl.
  pose proof (Hf x (list_elem_of_here _ _)).
  destruct l as [|y l]; [simpl; lia|].
  assert (sumZ f (y :: l) < 0)%Z by (apply IH; [done|intros z Hz; apply Hf; by right]).
  lia.
Qed.

(** The value at [n] of a sum over a list that has [n] once. *)
Lemma sumZ_pick (f : nat → Z) (n : nat) (l : list nat) :
  NoDup l → n ∈ l →
  sumZ f l = (f n + sumZ (λ a, if decide (a = n) then 0 else f a) l)%Z.
Proof.
  intros Hnd Hn.
  rewrite (sumZ_ext f (λ a, ((if decide (a = n) then f n else 0)
                             + (if decide (a = n) then 0 else f a))%Z)).
  - rewrite sumZ_plus, sumZ_indicator by done. by rewrite decide_True.
  - intros a _. case_decide; subst; lia.
Qed.

Section RowsAndColumns.
Variables (V : gset nat) (input_dict output_dict : adj) (l : list nat).
Hypothesis Hg : graph_ok V input_dict output_dict.
Hypothesis Hnd : NoDup l.
Hypothesis Hl : ∀ a, a ∈ V → a ∈ l.

(** The weights of row [n] add up to [sum(output_dict[n].values())]. *)
Lemma row_sum n outs :
  output_dict !! n = Some outs →
  sumZ (λ b, wf output_dict n b) l = sum_values outs.
Proof.
  intros Hn. rewrite <-(sum_values_sumZ outs l Hnd).
  - apply sumZ_ext. intros b _. unfold wf.
    by rewrite (edge_w_lookup _ _ _ _ Hn).
  - intros b [w Hb]%elem_of_dom. apply Hl.
    apply (graph_ok_closed V _ _ n b Hg).
    by rewrite (edge_w_lookup _ _ _ _ Hn), Hb.
Qed.

(** The weights of column [n] add up to [sum(input_dict[n].values())]. *)
Lemma column_sum n ins :
  input_dict !! n = Some ins →
  sumZ (λ a, wf output_dict a n) l = sum_values ins.
Proof.
  intros Hn. rewrite <-(sum_values_sumZ ins l Hnd).
  - apply sumZ_ext. intros a _. unfold wf.
    by rewrite (g_sym _ _ _ Hg), (edge_w_lookup _ _ _ _ Hn).
  - intros a [w Ha]%elem_of_dom. apply Hl.
    apply (graph_ok_closed V _ _ a n Hg).
    by rewrite (g_sym _ _ _ Hg), (edge_w_lookup _ _ _ _ Hn), Ha.
Qed.

(** Every edge leaves one node and enters one: the outgoing weights of all
    nodes add up to as much as the incoming ones. *)
Lemma rows_equal_columns :
  sumZ (λ n, (sumZ (λ b, wf output_dict n b) l
              - sumZ (λ a, wf output_dict a n) l)%Z) l = 0%Z.
Proof.
  rewrite sumZ_minus.
  rewrite (sumZ_swap (λ n b, wf output_dict n b) l l). lia.
Qed.
End RowsAndColumns.

(** What the removal of node [n] takes from the sum of all weights: row [n]
    and column [n]. *)
Lemma sum_remove_node (d : adj) (n : nat) (l : list nat) :
  NoDup l → n ∈ l → edge_w d n n = None →
  sumZ (λ a, sumZ (λ b, wf d a b) l) l
  = (sumZ (λ a, sumZ (λ b, wf (remove_node n d) a b) l) l
     + sumZ (λ b, wf d n b) l + sumZ (λ a, wf d a n) l)%Z.
Proof.
  intros Hnd Hn Hnn.
  assert (wf d n n = 0%Z) as Hnn' by (unfold wf; by rewrite Hnn).
  rewrite (sumZ_pick (λ a, sumZ (λ b, wf d a b) l) n l Hnd Hn).
  rewrite (sumZ_pick (λ a, wf d a n) n l Hnd Hn), Hnn'.
  enough (sumZ (λ a, if decide (a = n) then 0%Z else sumZ (λ b, wf d a b) l) l
          = (sumZ (λ a, sumZ (λ b, wf (remove_node n d) a b) l) l
             + sumZ (λ a, if decide (a = n) then 0 else wf d a n) l)%Z) by lia.
  rewrite <-sumZ_plus. apply sumZ_ext. intros a _.
  destruct (decide (a = n)) as [->|Ha].
  - rewrite sumZ_zero; [done|]. intros b _. unfold wf.
    rewrite edge_w_remove_node. by rewrite decide_True by auto.
  - rewrite (sumZ_pick (λ b, wf d a b) n l Hnd Hn).
    enough (sumZ (λ b, if decide (b = n) then 0%Z else wf d a b) l
            = sumZ (λ b, wf (remove_node n d) a b) l) by lia.
    apply sumZ_ext. intros b _. unfold wf. rewrite edge_w_remove_node.
    destruct (decide (b = n)) as [->|Hb].
    + by rewrite decide_True by auto.
    + rewrite decide_False; [done|]. intros [?|?]; done.
Qed.

Lemma nonneg_remove_node n (d : adj) : nonneg d → nonneg (remove_node n d).
Proof.
  intros Hd a b w. rewrite edge_w_remove_node. case_decide; [done|]. apply Hd.
Qed.

Lemma nonneg_wf (d : adj) a b : nonneg d → (0 ≤ wf d a b)%Z.
Proof.
  intros Hd. unfold wf. destruct (edge_w d a b) as [w|] eqn:Hw; simpl; [|lia].
  by apply (Hd a b).
Qed.

Lemma nonneg_sum_values (d : adj) n m :
  nonneg d → d !! n = Some m → (0 ≤ sum_values m)%Z.
Proof.
  intros Hd Hn.
  rewrite <-(sum_values_sumZ m (elements (dom m))).
  - apply sumZ_nonneg. intros b _.
    destruct (m !! b) as [w|] eqn:Hb; simpl; [|lia].
    apply (Hd n b). by rewrite (edge_w_lookup _ _ _ _ Hn).
  - apply NoDup_elements.
  - intros k Hk. by apply elem_of_elements.
Qed.

Lemma total_weight_nonneg N (d : adj) : nonneg d → (0 ≤ total_weight N d)%Z.
Proof.
  intros Hd. unfold total_weight. apply sumZ_nonneg. intros a _.
  apply sumZ_nonneg. intros b _. by apply nonneg_wf.
Qed.

(** The backward weights of an order and of its reverse make up the whole
    weight, loops apart. *)
Lemma backward_weight_reverse (f : nat → nat → Z) (ord : list nat) :
  (backward_weight f ord + backward_weight f (reverse ord)
   + sumZ (λ a, f a a) ord)%Z
  = sumZ (λ a, sumZ (λ b, f a b) ord) ord.
Proof.
  induction ord as [|x l IH]; [done|].
  rewrite reverse_cons, backward_weight_snoc, backward_weight_cons.
  rewrite (sumZ_perm _ (reverse l) l) by apply reverse_Permutation.
  simpl. rewrite sumZ_plus, <-IH. lia.
Qed.

(** ** The largest delta *)

(** A numeric key is the outgoing minus the incoming weight of the node. *)
Lemma bucket_key_Delta (input_dict output_dict : adj) n x :
  compute_bucket_key_for_node input_dict output_dict n = Delta x →
  ∃ ins outs, input_dict !! n = Some ins ∧ output_dict !! n = Some outs ∧
              ins ≠ ∅ ∧ outs ≠ ∅ ∧
              x = (sum_values outs - sum_values ins)%Z.
Proof.
  unfold compute_bucket_key_for_node. intros Hk.
  destruct (output_dict !! n) as [outs|]; [|done].
  destruct (decide (outs = ∅)); [done|].
  destruct (input_dict !! n) as [ins|]; [|done].
  destruct (decide (ins = ∅)); [done|].
  exists ins, outs. by simplify_eq.
Qed.

(** A bucket the loop finds empty has no member. *)
Lemma bucket_nonempty_false buckets key n :
  no_empty_bucket buckets → bucket_nonempty buckets key = false →
  ¬ in_bucket buckets key n.
Proof.
  intros Hne Hkey Hn.
  assert (bucket_nonempty buckets key = true)
    by (apply bucket_nonempty_true; eauto).
  congruence.
Qed.

(** When there are neither sinks nor sources, every remaining node has a
    numeric key; these keys add up to 0, so that the largest of them is not
    negative. *)
Lemma max_delta_nonneg N st (m : Z) :
  loop_inv N st → remaining st ≠ ∅ →
  bucket_nonempty (buckets st) Sinks = false →
  bucket_nonempty (buckets st) Sources = false →
  (∀ d x, in_bucket (buckets st) (Delta d) x → (d ≤ m)%Z) →
  (0 ≤ m)%Z.
Proof.
  intros [Hg Hbk Hp] Hrem Hsinks Hsources Hmax.
  pose proof (bk_nonempty _ _ _ _ Hbk) as Hne.
  pose proof (bk_member _ _ _ _ Hbk) as Hmem.
  set (l := elements (remaining st)).
  assert (NoDup l) as Hnd by apply NoDup_elements.
  assert (∀ a, a ∈ remaining st → a ∈ l) as Hl
    by (intros a Ha; by apply elem_of_elements).
  pose proof (rows_equal_columns (output_dict st) l) as Hzero.
  destruct (decide (0 ≤ m)%Z) as [|Hneg]; [done|]. exfalso.
  enough (sumZ (λ n, (sumZ (λ b, wf (output_dict st) n b) l
                      - sumZ (λ a, wf (output_dict st) a n) l)%Z) l < 0)%Z by lia.
  apply sumZ_negative.
  - intros Hnil. apply Hrem. apply leibniz_equiv, elements_empty_inv.
    by rewrite <-Hnil.
  - intros n Hn%elem_of_elements.
    destruct (compute_bucket_key_for_node (input_dict st) (output_dict st) n)
      as [| |x] eqn:Hk.
    + exfalso. apply (bucket_nonempty_false _ Sinks n Hne Hsinks). by apply Hmem.
    + exfalso. apply (bucket_nonempty_false _ Sources n Hne Hsources).
      by apply Hmem.
    + assert (x ≤ m)%Z by (apply (Hmax x n); by apply Hmem).
      apply bucket_key_Delta in Hk as (ins & outs & Hins & Houts & _ & _ & Hx).
      rewrite (row_sum _ _ _ l Hg Hnd Hl n outs Houts).
      rewrite (column_sum _ _ _ l Hg Hnd Hl n ins Hins). lia.
Qed.

(** ** The feedback total and the total weight *)

Lemma loop_inv_below N st a : loop_inv N st → a ∈ remaining st → a ∈ seq 0 N.
Proof.
  intros [_ _ Hp] Ha. rewrite <-Hp, !elem_of_app, elem_of_elements. auto.
Qed.

Lemma bound_inv_step N T st st' n :
  loop_inv N st → irreflexive (output_dict st) → bound_inv N T st →
  n ∈ remaining st →
  output_dict st' = remove_node n (output_dict st) →
  round_of st st' n →
  bound_inv N T st'.
Proof.
  intros Hinv Hirr (Hnn & Hfb & Hbound) Hn Hout Hround.
  pose proof Hinv as [Hg Hbk Hp].
  pose proof (bk_member _ _ _ _ Hbk) as Hmem.
  assert (NoDup (seq 0 N)) as Hnd by apply NoDup_seq.
  assert (∀ a, a ∈ remaining st → a ∈ seq 0 N) as Hl
    by (intros a; by apply loop_inv_below).
  assert (is_Some (input_dict st !! n)) as [ins Hins].
  { apply elem_of_dom. by rewrite (g_dom_in _ _ _ Hg). }
  assert (is_Some (output_dict st !! n)) as [outs Houts].
  { apply elem_of_dom. by rewrite (g_dom_out _ _ _ Hg). }
  pose proof (sum_remove_node (output_dict st) n (seq 0 N) Hnd (Hl n Hn) (Hirr n))
    as Hsum.
  rewrite (row_sum _ _ _ _ Hg Hnd Hl n outs Houts) in Hsum.
  rewrite (column_sum _ _ _ _ Hg Hnd Hl n ins Hins) in Hsum.
  fold (total_weight N (output_dict st)) in Hsum.
  rewrite <-Hout in Hsum. fold (total_weight N (output_dict st')) in Hsum.
  assert (0 ≤ sum_values outs)%Z as Houts0
    by (by apply (nonneg_sum_values (output_dict st) n)).
  assert (0 ≤ sum_values ins)%Z as Hins0.
  { apply (nonneg_sum_values (input_dict st) n); [|done].
    intros a b w. rewrite <-(g_sym _ _ _ Hg). apply Hnn. }
  split; [rewrite Hout; by apply nonneg_remove_node|].
  destruct Hround as [(_ & _ & _ & _ & ->)
                     |[(_ & _ & _ & _ & _ & ->)
                      |(Hsinks & Hsources & d & ins' & Hin & Hmax & Hins' & _ & _ & ->)]].
  - split; [done|lia].
  - split; [done|lia].
  - assert (ins' = ins) as -> by congruence.
    assert (0 ≤ d)%Z as Hd.
    { apply (max_delta_nonneg N st d Hinv); [|done..]. intros Hempty.
      rewrite Hempty in Hn. by apply not_elem_of_empty in Hn. }
    apply Hmem in Hin as [_ Hkey].
    apply bucket_key_Delta in Hkey as (ins2 & outs2 & Hi2 & Ho2 & _ & _ & Hd2).
    assert (ins2 = ins) as -> by congruence.
    assert (outs2 = outs) as -> by congruence.
    split; lia.
Qed.

(** ** The weight of the graph as built and as resolved *)

Lemma sumZ_single_edge (i j : nat) (w : Z) (l : list nat) :
  NoDup l → i ∈ l → j ∈ l →
  sumZ (λ a, sumZ (λ z, single_edge i j w a z) l) l = w.
Proof.
  intros Hnd Hi Hj.
  rewrite (sumZ_ext _ (λ a, if decide (a = i) then w else 0%Z)).
  - rewrite sumZ_indicator by done. by rewrite decide_True.
  - intros a _. destruct (decide (a = i)) as [->|Ha].
    + rewrite (sumZ_ext _ (λ z, if decide (z = j) then w else 0%Z)).
      * rewrite sumZ_indicator by done. by rewrite decide_True.
      * intros z _. unfold single_edge. repeat case_decide; naive_solver.
    + apply sumZ_zero. intros z _. unfold single_edge.
      rewrite decide_False; [done|]. naive_solver.
Qed.

Lemma resolved_nonneg (d : adj) a b w :
  nonneg d → resolved d a b = Some w → (0 ≤ w)%Z.
Proof.
  intros Hd. unfold resolved.
  destruct (edge_w d a b) as [x|] eqn:Hx; [|done].
  pose proof (Hd a b x Hx).
  case_decide; [by intros [= <-]|].
  destruct (edge_w d b a) as [y|] eqn:Hy; [|by intros [= <-]].
  unfold net. repeat case_decide; intros [= <-]; lia.
Qed.

Section BuiltWeight.
Context `{Runtime} `{Countable Node}.
Implicit Types (connections : list (@row Node)) (b : built (Node := Node)).

(** The weight between two compacted ids is the sum of the weights of the
    rows between the two nodes. *)
Lemma built_wf_rows connections b a z :
  built_ok connections b →
  a < size (b_nodes_compacted b) → z < size (b_nodes_compacted b) →
  wf (b_output_dict b) a z
  = sumZ (λ r, single_edge (default 0 (b_nodes_compacted b !! r0 r))
                           (default 0 (b_nodes_compacted b !! r1 r))
                           (r2 r) a z) connections.
Proof.
  intros Hb [u Hu]%(bo_range _ _ Hb) [v Hv]%(bo_range _ _ Hb).
  unfold wf. rewrite (bo_out _ _ Hb u v a z Hu Hv), sumZ_merged.
  apply sumZ_ext. intros r Hr. unfold single_edge.
  assert (r0 r ∈ dom (b_nodes_compacted b)) as [i0 Hc0]%elem_of_dom.
  { rewrite (bo_dom _ _ Hb). apply elem_of_nodes. eauto. }
  assert (r1 r ∈ dom (b_nodes_compacted b)) as [i1 Hc1]%elem_of_dom.
  { rewrite (bo_dom _ _ Hb). apply elem_of_nodes. eauto. }
  rewrite Hc0, Hc1. simpl.
  destruct (decide (r0 r = u ∧ r1 r = v)) as [[Hu' Hv']|Hne].
  - rewrite Hu' in Hc0. rewrite Hv' in Hc1.
    rewrite decide_True; [done|]. split; congruence.
  - rewrite decide_False; [done|]. intros [-> ->]. apply Hne.
    split; [by apply (bo_inj _ _ Hb) with i0|by apply (bo_inj _ _ Hb) with i1].
Qed.

(** The graph as built weighs as much as all rows together. *)
Lemma built_total_weight connections b :
  built_ok connections b →
  total_weight (size (b_nodes_compacted b)) (b_output_dict b)
  = total_edge_weight connections.
Proof.
  intros Hb. set (N := size (b_nodes_compacted b)).
  unfold total_weight, total_edge_weight.
  rewrite sum_list_sumZ, sumZ_fmap.
  rewrite (sumZ_ext _
    (λ a, sumZ (λ z,
       sumZ (λ r, single_edge (default 0 (b_nodes_compacted b !! r0 r))
                              (default 0 (b_nodes_compacted b !! r1 r))
                              (r2 r) a z) connections) (seq 0 N))); last first.
  { intros a Ha%elem_of_seq. apply sumZ_ext. intros z Hz%elem_of_seq.
    apply (built_wf_rows connections b a z Hb); unfold N in *; lia. }
  rewrite (sumZ_ext _
    (λ a, sumZ (λ r, sumZ (λ z,
       single_edge (default 0 (b_nodes_compacted b !! r0 r))
                   (default 0 (b_nodes_compacted b !! r1 r))
                   (r2 r) a z) (seq 0 N)) connections)); last first.
  { intros a _. apply sumZ_swap. }
  rewrite sumZ_swap. apply sumZ_ext. intros r Hr. unfold id.
  assert (r0 r ∈ dom (b_nodes_compacted b)) as [i0 Hc0]%elem_of_dom.
  { rewrite (bo_dom _ _ Hb). apply elem_of_nodes. eauto. }
  assert (r1 r ∈ dom (b_nodes_compacted b)) as [i1 Hc1]%elem_of_dom.
  { rewrite (bo_dom _ _ Hb). apply elem_of_nodes. eauto. }
  rewrite Hc0, Hc1. simpl.
  apply sumZ_single_edge; [apply NoDup_seq|..]; apply elem_of_seq.
  - assert (i0 < N) by (apply (bo_range _ _ Hb); eauto). lia.
  - assert (i1 < N) by (apply (bo_range _ _ Hb); eauto). lia.
Qed.

Lemma built_nonneg connections b :
  built_ok connections b → valid_input connections →
  nonneg (b_output_dict b).
Proof.
  intros Hb Hv a z w Hw.
  assert (is_Some (edge_w (b_output_dict b) a z)) as Hsome by (by rewrite Hw).
  destruct (bo_closed _ _ Hb a z Hsome)
    as [[u Hu]%(bo_range _ _ Hb) [v Hv']%(bo_range _ _ Hb)].
  rewrite (bo_out _ _ Hb u v a z Hu Hv') in Hw.
  assert (w = default 0%Z (merged (λ r, r0 r = u ∧ r1 r = v) r2 connections))
    as -> by (by rewrite Hw).
  rewrite sumZ_merged. apply sumZ_nonneg. intros r Hr.
  unfold valid_input in Hv. rewrite Forall_forall in Hv.
  case_decide; [by apply Hv|lia].
Qed.

(** The state the main loop starts in: what the resolver charged to the
    feedback total, it took twice from the weight of the graph. *)
Lemma initial_state_total connections b :
  built_ok connections b → no_self_loop connections →
  ∃ st, initial_state b = Ok st ∧ placed st = 0 ∧
        run_inv (size (b_nodes_compacted b)) (wf (b_output_dict b)) st ∧
        (2 * feedback_val st
         + total_weight (size (b_nodes_compacted b)) (output_dict st)
         = total_edge_weight connections)%Z ∧
        (valid_input connections →
         nonneg (output_dict st) ∧ (0 ≤ feedback_val st)%Z).
Proof.
  intros Hb Hno. set (N := size (b_nodes_compacted b)).
  destruct (initial_state_graph connections b Hb (λ _, Hno))
    as (st & apl & Hrun & _ & _ & Hfb0 & Hl & Hr & Ho & Hinv & Hfb).
  fold N in Hinv.
  pose proof (built_irreflexive _ _ Hb Hno) as Hirr0.
  assert (irreflexive (output_dict st)) as Hirr.
  { intros a. rewrite Ho. unfold resolved. by rewrite Hirr0. }
  assert (elements (remaining st) ≡ₚ seq 0 N) as Hrem.
  { rewrite <-(li_placed _ _ Hinv), Hl, Hr. done. }
  assert (2 * feedback_val st + total_weight N (output_dict st)
          = total_edge_weight connections)%Z as Heq.
  { rewrite <-(built_total_weight connections b Hb). fold N.
    unfold total_weight.
    rewrite <-(backward_weight_reverse (wf (b_output_dict b)) (seq 0 N)).
    rewrite <-(backward_weight_reverse (wf (output_dict st)) (seq 0 N)).
    rewrite (sumZ_zero (λ a, wf (b_output_dict b) a a)); last first.
    { intros a _. unfold wf. by rewrite Hirr0. }
    rewrite (sumZ_zero (λ a, wf (output_dict st) a a)); last first.
    { intros a _. unfold wf. by rewrite Hirr. }
    pose proof (Hfb (seq 0 N)) as H1. rewrite Hl, Hr in H1. simpl in H1.
    rewrite app_nil_r in H1. rewrite H1 by done.
    pose proof (Hfb (reverse (seq 0 N))) as H2. rewrite Hl, Hr in H2.
    simpl in H2. rewrite app_nil_r in H2.
    rewrite H2 by (by rewrite reverse_Permutation). lia. }
  exists st. split; [done|]. split; [unfold placed; by rewrite Hl, Hr|].
  split; [done|]. split; [done|].
  intros Hv. pose proof (built_nonneg _ _ Hb Hv) as Hnn0. split.
  - intros a z w. rewrite Ho. by apply resolved_nonneg.
  - rewrite Hfb0. apply sumZ_nonneg. intros [n1 n2] _. simpl.
    pose proof (nonneg_wf (b_output_dict b) n1 n2 Hnn0).
    pose proof (nonneg_wf (b_output_dict b) n2 n1 Hnn0). lia.
Qed.

Lemma initial_state_bound connections b :
  built_ok connections b → valid_input connections →
  no_self_loop connections →
  ∃ st, initial_state b = Ok st ∧ placed st = 0 ∧
        run_inv (size (b_nodes_compacted b)) (wf (b_output_dict b)) st ∧
        bound_inv (size (b_nodes_compacted b))
                  (total_edge_weight connections) st.
Proof.
  intros Hb Hv Hno.
  destruct (initial_state_total connections b Hb Hno)
    as (st & Hrun & Hp & Hinv & Heq & Hnn).
  destruct (Hnn Hv) as [Hnn1 Hfb].
  exists st. split_and!; try done. split; [done|]. split; [done|lia].
Qed.

(** On a valid input without self loops the feedback total the run ends
    with is at most half the weight of all rows. *)
Lemma compute_order_run_bound (g0 : rng) connections (random_seed : Z) :
  valid_input connections → no_self_loop connections →
  ∃ o, compute_order_run g0 connections random_seed = Ok o ∧
       res o ≡ₚ elements (nodes_from_connections_table connections) ∧
       fsw o = final_feedback_val o ∧
       final_feedback_val o = backward_total (res o) connections ∧
       (0 ≤ final_feedback_val o)%Z ∧
       (2 * final_feedback_val o ≤ total_edge_weight connections)%Z.
Proof.
  intros Hv Hno. unfold compute_order_run.
  destruct (build_spec g0 connections random_seed) as (b & -> & Hb). simpl.
  set (N := size (b_nodes_compacted b)).
  set (T := total_edge_weight connections).
  destruct (initial_state_bound connections b Hb Hv Hno)
    as (st0 & -> & Hp0 & Hinv0 & Hbound0).
  simpl. fold N in Hinv0, Hbound0. fold T in Hbound0.
  destruct (main_loop_rule
              (λ st, run_inv N (wf (b_output_dict b)) st ∧ bound_inv N T st) N)
    with (fuel := N) (st := st0)
    as (st1 & -> & [(Hinv1 & _ & Hfb1) (Hnn1 & Hpos1 & Hle1)] & Hend).
  { intros st [(Hinv & Hirr & Hfb) Hbd] Hlt.
    destruct (loop_body_spec N st Hinv Hirr Hlt)
      as (n & st' & Hrun & Hn & Hin & Hout & Hround & Hinv').
    exists st'. split; [done|]. split; [|by eapply round_of_placed].
    split.
    - split; [done|]. split.
      + rewrite Hout. by apply irreflexive_remove_node.
      + by apply (fb_inv_step N _ st st' n).
    - by apply (bound_inv_step N T st st' n). }
  { done. }
  { lia. }
  simpl.
  pose proof (placed_remaining N st1 Hinv1) as Hsize.
  assert (remaining st1 = ∅) as Hempty.
  { apply leibniz_equiv, size_empty_inv. lia. }
  assert (left_list st1 ++ reverse (right_list st1) ≡ₚ seq 0 N) as Hperm.
  { rewrite <-(li_placed _ _ Hinv1), Hempty, elements_empty, app_nil_r.
    by rewrite reverse_Permutation. }
  assert (backward_weight (wf (b_output_dict b))
            (left_list st1 ++ reverse (right_list st1)) = feedback_val st1)
    as Hbw.
  { specialize (Hfb1 []). rewrite Hempty, elements_empty in Hfb1.
    simpl in Hfb1. rewrite Hfb1 by done. lia. }
  destruct (finalize_spec connections b st1 Hb Hperm Hbw)
    as (o & -> & Hres & Hfsw & Hfb & _ & _ & Htotal).
  exists o. split; [done|]. split; [done|]. split; [done|].
  split; [by apply Htotal|].
  rewrite Hfb. split; [done|].
  pose proof (total_weight_nonneg N (output_dict st1) Hnn1). lia.
Qed.
End BuiltWeight.

(** ** Edges into sinks and out of sources *)

Lemma no_entries_edge (d : adj) n b : no_entries d n → edge_w d n b = None.
Proof.
  unfold no_entries, edge_w. destruct (d !! n) as [m|]; simpl; [|done].
  intros ->. apply lookup_empty.
Qed.

Lemma no_entries_intro (d : adj) n :
  (∀ b, edge_w d n b = None) → no_entries d n.
Proof.
  unfold no_entries, edge_w. destruct (d !! n) as [m|]; simpl; [|done].
  intros Hm. by apply map_empty.
Qed.

Lemma empty_entry (d : adj) n m :
  d !! n = Some m → (∀ b, edge_w d n b = None) → m = ∅.
Proof.
  intros Hn Hm. apply map_empty. intros b.
  by rewrite <-(edge_w_lookup d n b m Hn).
Qed.

Lemma nonempty_entry (d : adj) n m :
  d !! n = Some m → m ≠ ∅ → ∃ b, is_Some (edge_w d n b).
Proof.
  intros Hn Hm. apply map_choose in Hm as (b & w & Hb).
  exists b. by rewrite (edge_w_lookup d n b m Hn), Hb.
Qed.

(** A remaining node without incoming edges that has an outgoing one is a
    source. *)
Lemma bucket_key_of_source (input_dict output_dict : adj) n b :
  input_dict !! n = Some ∅ → is_Some (edge_w output_dict n b) →
  compute_bucket_key_for_node input_dict output_dict n = Sources.
Proof.
  unfold compute_bucket_key_for_node, edge_w. intros -> Hb.
  destruct (output_dict !! n) as [outs|]; [|by destruct Hb].
  simpl in Hb. rewrite decide_False.
  - by rewrite decide_True.
  - intros ->. rewrite lookup_empty in Hb. by destruct Hb.
Qed.

Lemma pinned_inv_step V0 in0 out0 N st st' n :
  graph_ok V0 in0 out0 →
  loop_inv N st → pinned_inv in0 out0 st →
  n ∈ remaining st →
  output_dict st' = remove_node n (output_dict st) →
  round_of st st' n →
  pinned_inv in0 out0 st'.
Proof.
  intros Hg0 [Hg Hbk Hp] [Hsub Hpin] Hn Hout Hround.
  pose proof (g_sym _ _ _ Hg) as Hsym.
  pose proof (g_sym _ _ _ Hg0) as Hsym0.
  pose proof (bk_member _ _ _ _ Hbk) as Hmem.
  pose proof (bk_nonempty _ _ _ _ Hbk) as Hne.
  assert (remaining st' = remaining st ∖ {[n]}) as Hrem'.
  { unfold remaining. by rewrite Hout, dom_remove_node. }
  split.
  { intros a b. rewrite Hrem', !elem_of_difference, !elem_of_singleton.
    intros [Ha Han] [Hb Hbn]. rewrite Hout, edge_w_remove_node.
    rewrite decide_False by naive_solver. by apply Hsub. }
  intros ord' Hord'. rewrite Hrem' in Hord'.
  assert (n ∉ ord') as Hnord.
  { rewrite Hord', elem_of_elements. set_solver. }
  assert (∀ a, a ∈ ord' → a ∈ remaining st) as Hord_rem.
  { intros a. rewrite Hord', elem_of_elements. set_solver. }
  assert (elements (remaining st) ≡ₚ n :: ord') as Hperm.
  { rewrite (union_difference_singleton_L n (remaining st)) at 1 by done.
    rewrite elements_union_singleton by set_solver. by rewrite Hord'. }
  destruct Hround as [(_ & Hin & -> & -> & _)
                     |[(_ & _ & Hin & -> & -> & _)
                      |(Hsinks & Hsources & d & ins & Hin & _ & Hins & -> & -> & _)]].
  - (* a sink goes to the right: it has no edge to a remaining node *)
    apply Hmem in Hin as [_ Hkey].
    rewrite reverse_snoc.
    change (n :: reverse (right_list st)) with ([n] ++ reverse (right_list st)).
    rewrite (app_assoc ord').
    rewrite (Hpin (ord' ++ [n])) by (by rewrite Hperm, <-Permutation_cons_append).
    rewrite backward_weight_snoc, sumZ_zero; [lia|].
    intros a Ha. unfold pinned. rewrite decide_False; [done|].
    intros [Hedge _]. rewrite <-(Hsub n a Hn (Hord_rem a Ha)) in Hedge.
    rewrite (bucket_key_Sinks _ _ _ Hkey) in Hedge. by destruct Hedge.
  - (* a source goes to the left: no remaining node has an edge to it *)
    apply Hmem in Hin as [_ Hkey].
    rewrite <-app_assoc.
    change ([n] ++ ord' ++ ?r) with ((n :: ord') ++ r).
    rewrite (Hpin (n :: ord')) by (by rewrite Hperm).
    rewrite backward_weight_cons, sumZ_zero; [lia|].
    intros b Hb. unfold pinned. rewrite decide_False; [done|].
    intros [Hedge _]. rewrite <-(Hsub b n (Hord_rem b Hb) Hn) in Hedge.
    rewrite Hsym in Hedge.
    rewrite (bucket_key_Sources (input_dict st) (output_dict st) n) in Hedge;
      [by destruct Hedge| |done].
    by rewrite (g_dom_in _ _ _ Hg).
  - (* the node of largest delta: no pinned edge leads to it *)
    apply Hmem in Hin as [_ Hkey].
    apply bucket_key_Delta in Hkey as (ins' & outs & _ & Houts & _ & Hoe & _).
    rewrite <-app_assoc.
    change ([n] ++ ord' ++ ?r) with ((n :: ord') ++ r).
    rewrite (Hpin (n :: ord')) by (by rewrite Hperm).
    rewrite backward_weight_cons, sumZ_zero; [lia|].
    intros b Hb. specialize (Hord_rem b Hb).
    unfold pinned. rewrite decide_False; [done|].
    intros [Hedge [Hsink|Hsource]].
    + (* [n] has an outgoing edge now, hence in the graph at the start *)
      destruct (nonempty_entry _ n outs Houts Hoe) as [c Hc].
      destruct (graph_ok_closed _ _ _ n c Hg Hc) as [_ Hcrem].
      rewrite (Hsub n c Hn Hcrem), (no_entries_edge out0 n c Hsink) in Hc.
      by destruct Hc.
    + (* [b] would be a source now *)
      assert (is_Some (input_dict st !! b)) as [insb Hinsb].
      { apply elem_of_dom. by rewrite (g_dom_in _ _ _ Hg). }
      assert (insb = ∅) as ->.
      { apply (empty_entry (input_dict st) b insb Hinsb). intros c.
        apply eq_None_not_Some. intros Hc. rewrite <-Hsym in Hc.
        destruct (graph_ok_closed _ _ _ c b Hg Hc) as [Hcrem _].
        rewrite (Hsub c b Hcrem Hord_rem), Hsym0 in Hc.
        rewrite (no_entries_edge in0 b c Hsource) in Hc. by destruct Hc. }
      rewrite <-(Hsub b n Hord_rem Hn) in Hedge.
      apply (bucket_nonempty_false _ Sources b Hne Hsources).
      apply Hmem. split; [done|].
      by apply (bucket_key_of_source _ _ b n).
Qed.

(** An order in which no pinned edge points backwards places the source of
    every pinned edge before its target. *)
Lemma pinned_zero_forward in0 out0 ord a b i j :
  NoDup ord → backward_weight (pinned in0 out0) ord = 0%Z →
  pinned in0 out0 a b = 1%Z → a ≠ b →
  ord !! i = Some a → ord !! j = Some b → i < j.
Proof.
  intros Hnd Hzero Hab Hne Hi Hj.
  pose proof (backward_weight_mono (single_edge a b 1) (pinned in0 out0) ord)
    as Hle.
  rewrite (backward_weight_single a b 1 ord i j), Hzero in Hle by done.
  assert (i ≠ j) by (intros ->; congruence).
  destruct (decide (j < i)); [|lia].
  exfalso. enough (1 ≤ 0)%Z by lia. apply Hle.
  intros x y. unfold single_edge.
  destruct (decide (x = a ∧ y = b)) as [[-> ->]|?].
  - rewrite Hab. lia.
  - unfold pinned. case_decide; lia.
Qed.

Section Pinned.
Context `{Runtime} `{Countable Node}.
Implicit Types (connections : list (@row Node)).

(** A row whose target is the source of no row, or whose source is the
    target of no row, points forward in the returned order. *)
Lemma compute_order_run_pinned (g0 : rng) connections (random_seed : Z) :
  no_self_loop connections →
  ∃ o, compute_order_run g0 connections random_seed = Ok o ∧
       res o ≡ₚ elements (nodes_from_connections_table connections) ∧
       ∀ r, r ∈ connections →
            (∀ r', r' ∈ connections → r0 r' ≠ r1 r) ∨
            (∀ r', r' ∈ connections → r1 r' ≠ r0 r) →
            position (res o) (r0 r) < position (res o) (r1 r).
Proof.
  intros Hno. unfold compute_order_run.
  destruct (build_spec g0 connections random_seed) as (b & -> & Hb). simpl.
  set (N := size (b_nodes_compacted b)).
  set (c := b_nodes_compacted b).
  destruct (initial_state_graph connections b Hb (λ _, Hno))
    as (st0 & apl & Hst0 & _ & _ & _ & Hl0 & Hr0 & Ho0 & Hinv0 & Hfb0).
  rewrite Hst0. simpl. fold N in Hinv0.
  pose proof (built_irreflexive _ _ Hb Hno) as Hirrb.
  assert (irreflexive (output_dict st0)) as Hirr0.
  { intros a. rewrite Ho0. unfold resolved. by rewrite Hirrb. }
  set (in0 := input_dict st0). set (out0 := output_dict st0).
  pose proof (li_graph _ _ Hinv0) as Hg0. fold in0 out0 in Hg0.
  destruct (main_loop_rule
              (λ st, run_inv N (wf (b_output_dict b)) st ∧
                     pinned_inv in0 out0 st) N)
    with (fuel := N) (st := st0)
    as (st1 & -> & [(Hinv1 & _ & Hfb1) (_ & Hpin1)] & Hend).
  { intros st [(Hinv & Hirr & Hfb) Hpin] Hlt.
    destruct (loop_body_spec N st Hinv Hirr Hlt)
      as (n & st' & Hrun & Hn & Hin & Hout & Hround & Hinv').
    exists st'. split; [done|]. split; [|by eapply round_of_placed].
    split.
    - split; [done|]. split.
      + rewrite Hout. by apply irreflexive_remove_node.
      + by apply (fb_inv_step N _ st st' n).
    - by apply (pinned_inv_step _ in0 out0 N st st' n Hg0). }
  { split; [done|]. split; [done|].
    intros ord _. rewrite Hl0, Hr0. simpl. by rewrite app_nil_r. }
  { unfold placed. rewrite Hl0, Hr0. simpl. lia. }
  simpl.
  pose proof (placed_remaining N st1 Hinv1) as Hsize.
  assert (remaining st1 = ∅) as Hempty.
  { apply leibniz_equiv, size_empty_inv. lia. }
  set (order := left_list st1 ++ reverse (right_list st1)).
  assert (order ≡ₚ seq 0 N) as Hperm.
  { unfold order.
    rewrite <-(li_placed _ _ Hinv1), Hempty, elements_empty, app_nil_r.
    by rewrite reverse_Permutation. }
  assert (backward_weight (wf (b_output_dict b)) order = feedback_val st1)
    as Hbw.
  { specialize (Hfb1 []). rewrite Hempty, elements_empty in Hfb1.
    simpl in Hfb1. unfold order. rewrite Hfb1 by done. lia. }
  assert (backward_weight (pinned in0 out0) order = 0%Z) as Hforward.
  { specialize (Hpin1 []). rewrite Hempty, elements_empty in Hpin1.
    simpl in Hpin1. unfold order. by rewrite Hpin1. }
  destruct (finalize_spec connections b st1 Hb Hperm Hbw)
    as (o & -> & Hres & _ & _ & _ & Hall & _).
  exists o. split; [done|]. split; [done|].
  intros r Hr Hcase.
  assert (NoDup order) as Hnd by (rewrite Hperm; apply NoDup_seq).
  assert (r0 r ∈ res o ∧ r1 r ∈ res o) as [H0' H1'].
  { rewrite Hres, !elem_of_elements. split; apply elem_of_nodes; eauto. }
  apply position_lookup in H0', H1'.
  destruct (Forall2_lookup_r _ _ _ _ _ Hall H0') as (a & Ha & Hca).
  destruct (Forall2_lookup_r _ _ _ _ _ Hall H1') as (z & Hz & Hcz).
  assert (a ≠ z) as Haz.
  { intros ->. apply (no_self_loop_elem _ r Hno Hr).
    by apply (bo_inj _ _ Hb _ _ z). }
  (* rows and edges of the graph as built *)
  assert (is_Some (edge_w (b_output_dict b) a z)) as [x Hx].
  { rewrite (bo_out _ _ Hb (r0 r) (r1 r) a z Hca Hcz).
    apply merged_is_Some. by exists r. }
  assert (∀ i j, is_Some (edge_w (b_output_dict b) i j) →
            ∃ r', r' ∈ connections ∧ c !! r0 r' = Some i ∧ c !! r1 r' = Some j)
    as Hrow.
  { intros i j Hij.
    destruct (bo_closed _ _ Hb i j Hij)
      as [[u Hu]%(bo_range _ _ Hb) [v Hv]%(bo_range _ _ Hb)].
    rewrite (bo_out _ _ Hb u v i j Hu Hv) in Hij.
    apply merged_is_Some in Hij as (r' & Hr' & <- & <-). by exists r'. }
  assert (∀ i j, is_Some (edge_w out0 i j) →
                 is_Some (edge_w (b_output_dict b) i j)) as Hsub.
  { intros i j. unfold out0. rewrite Ho0. unfold resolved.
    destruct (edge_w (b_output_dict b) i j); [eauto|by intros [? ?]]. }
  apply (pinned_zero_forward in0 out0 order a z); try done.
  unfold pinned. rewrite decide_True; [done|].
  destruct Hcase as [Hsink|Hsource].
  - (* the target is the source of no row *)
    assert (∀ j, edge_w (b_output_dict b) z j = None) as Hnone.
    { intros j. apply eq_None_not_Some.
      intros (r' & Hr' & Hi' & _)%Hrow. apply (Hsink r' Hr').
      by apply (bo_inj _ _ Hb _ _ z). }
    split.
    + unfold out0. rewrite Ho0. unfold resolved. rewrite Hx.
      rewrite decide_False by done. by rewrite Hnone.
    + left. apply no_entries_intro. intros j. apply eq_None_not_Some.
      intros Hj%Hsub. rewrite Hnone in Hj. by destruct Hj.
  - (* the source is the target of no row *)
    assert (∀ i, edge_w (b_output_dict b) i a = None) as Hnone.
    { intros i. apply eq_None_not_Some.
      intros (r' & Hr' & _ & Hj')%Hrow. apply (Hsource r' Hr').
      by apply (bo_inj _ _ Hb _ _ a). }
    split.
    + unfold out0. rewrite Ho0. unfold resolved. rewrite Hx.
      rewrite decide_False by done. by rewrite Hnone.
    + right. apply no_entries_intro. intros i. apply eq_None_not_Some.
      unfold in0. rewrite <-(g_sym _ _ _ Hg0). intros Hi%Hsub.
      rewrite Hnone in Hi. by destruct Hi.
Qed.
End Pinned.

(** ** The states of the main loop, round by round *)

Section Iterate.
Context `{Runtime}.

(** What every round that ends normally keeps, holds after any number of
    rounds. *)
Lemma iterate_loop_keeps (I : state → Prop) (N : nat) :
  (∀ st st', I st → loop_body st = Ok st' → I st') →
  ∀ k st st', I st → iterate_loop k N st = Ok st' → I st'.
Proof.
  intros Hstep k. induction k as [|k IH]; intros st st' HI Hrun; simpl in Hrun.
  - by injection Hrun as <-.
  - case_decide; [|by injection Hrun as <-].
    apply bind_Ok in Hrun as (st1 & Hst1 & Hrun).
    apply (IH st1); [|done]. by apply (Hstep st).
Qed.

(** Under an invariant that lets every round succeed, [k] rounds place [k]
    nodes, until all [N] are placed. *)
Lemma iterate_loop_placed (I : state → Prop) (N : nat) :
  (∀ st, I st → placed st < N →
     ∃ st', loop_body st = Ok st' ∧ I st' ∧ placed st' = S (placed st)) →
  ∀ k st, I st → placed st ≤ N →
    ∃ st', iterate_loop k N st = Ok st' ∧ I st' ∧
           placed st' = (placed st + k) `min` N.
Proof.
  intros Hstep k. induction k as [|k IH]; intros st HI Hle.
  - exists st. split; [done|]. split; [done|]. lia.
  - simpl. case_decide as Hlt.
    + destruct (Hstep st HI Hlt) as (st1 & -> & HI1 & Hp1). simpl.
      change (placed st < N) in Hlt.
      destruct (IH st1 HI1) as (st' & Hrun & HI' & Hp'); [lia|].
      exists st'. split; [done|]. split; [done|]. lia.
    + exists st. split; [done|]. split; [done|]. unfold placed in *. lia.
Qed.

(** The loop with enough fuel and the rounds counted one by one end in the
    same state. *)
Lemma main_loop_iterate (N : nat) :
  ∀ fuel st st', main_loop fuel N st = Ok st' → iterate_loop fuel N st = Ok st'.
Proof.
  induction fuel as [|fuel IH]; intros st st' Hrun; simpl in *.
  - by case_decide.
  - case_decide; [|done].
    apply bind_Ok in Hrun as (st1 & -> & Hrun). simpl. by apply IH.
Qed.
End Iterate.

Lemma restricts_refl V (st : state) :
  graph_ok V (input_dict st) (output_dict st) → restricts (output_dict st) st.
Proof.
  intros Hg. split; [done|]. intros a b. case_decide as Hab; [done|].
  apply eq_None_not_Some. intros Hw. apply Hab.
  destruct (graph_ok_closed _ _ _ a b Hg Hw) as [Ha Hb].
  unfold remaining. rewrite (g_dom_out _ _ _ Hg). done.
Qed.

Lemma restricts_remove_node out0 (st st' : state) n :
  restricts out0 st →
  output_dict st' = remove_node n (output_dict st) →
  restricts out0 st'.
Proof.
  intros [Hdom Hsub] Hout.
  assert (remaining st' = remaining st ∖ {[n]}) as Hrem.
  { unfold remaining. by rewrite Hout, dom_remove_node. }
  split; [set_solver|]. intros a b. rewrite Hout, edge_w_remove_node, Hsub, Hrem.
  repeat case_decide; set_solver.
Qed.

Section States.
Context `{Runtime} `{Countable Node}.
Implicit Types (connections : list (@row Node)).

(** The states of a run, from the state in which the loop starts. *)
Lemma state_after_from_start (k : nat) (g0 : rng) connections
    (random_seed : Z) st :
  state_after k g0 connections random_seed = Ok st →
  ∃ b st0, build g0 connections random_seed = Ok b ∧
           built_ok connections b ∧
           state_after 0 g0 connections random_seed = Ok st0 ∧
           iterate_loop k (size (b_nodes_compacted b)) st0 = Ok st ∧
           loop_inv (size (b_nodes_compacted b)) st0.
Proof.
  intros Hrun.
  destruct (state_after_inv k g0 connections random_seed st Hrun)
    as (b & Hbuild & Hb & _).
  unfold state_after in *. rewrite Hbuild in *. simpl in *.
  apply bind_Ok in Hrun as (st0 & Hst0 & Hrun).
  exists b, st0. rewrite Hst0. simpl. split_and!; try done.
  destruct (state_after_inv 0 g0 connections random_seed st0)
    as (b' & Hbuild' & _ & Hinv & _).
  { unfold state_after. rewrite Hbuild. simpl. by rewrite Hst0. }
  assert (b' = b) as -> by congruence. done.
Qed.

(** No round touches an edge between two nodes that stay. *)
Lemma state_after_restricts (k : nat) (g0 : rng) connections
    (random_seed : Z) st st0 :
  state_after 0 g0 connections random_seed = Ok st0 →
  state_after k g0 connections random_seed = Ok st →
  restricts (output_dict st0) st.
Proof.
  intros Hst0 Hst.
  destruct (state_after_from_start k g0 connections random_seed st Hst)
    as (b & st0' & Hbuild & Hb & Hst0' & Hrun & Hinv0).
  assert (st0' = st0) as -> by congruence.
  set (N := size (b_nodes_compacted b)) in *.
  enough (loop_inv N st ∧ restricts (output_dict st0) st) as [_ ?] by done.
  apply (iterate_loop_keeps
           (λ st, loop_inv N st ∧ restricts (output_dict st0) st) N)
    with (k := k) (st := st0); [|split|done].
  - intros st1 st2 [Hinv1 Hres1] Hbody.
    destruct (loop_body_invariant N st1 st2 Hinv1 Hbody)
      as (Hinv2 & n & _ & _ & _ & Hout).
    split; [done|]. by apply (restricts_remove_node _ st1 st2 n).
  - done.
  - apply (restricts_refl (remaining st0)). apply Hinv0.
Qed.

(** On an input without self loops, [k] rounds place [k] nodes. *)
Lemma state_after_placed (k : nat) (g0 : rng) connections (random_seed : Z) :
  no_self_loop connections →
  ∃ b st, build g0 connections random_seed = Ok b ∧
          built_ok connections b ∧
          state_after k g0 connections random_seed = Ok st ∧
          loop_inv (size (b_nodes_compacted b)) st ∧
          placed st = k `min` size (b_nodes_compacted b).
Proof.
  intros Hno. unfold state_after.
  destruct (build_spec g0 connections random_seed) as (b & -> & Hb). simpl.
  set (N := size (b_nodes_compacted b)).
  destruct (initial_state_spec connections b Hb Hno)
    as (st0 & -> & Hp0 & Hinv0).
  simpl. fold N in Hinv0.
  destruct (iterate_loop_placed (run_inv N (wf (b_output_dict b))) N
              (run_inv_step N _) k st0 Hinv0)
    as (st & Hrun & (Hinv & _) & Hp); [lia|].
  exists b, st. rewrite Hp0 in Hp. split_and!; done.
Qed.

(** The number of nodes is the size of the node universe. *)
Lemma built_size connections (b : built) :
  built_ok connections b →
  size (b_nodes_compacted b) = size (nodes_from_connections_table connections).
Proof. intros Hb. by rewrite <-(bo_dom _ _ Hb), size_dom. Qed.
End States.

(** ** Reports *)

Lemma bind_Done {A B} (c : reported A) (f : A → reported B) (b : B) :
  c ≫= f = Done b ↔ ∃ a, c = Done a ∧ f a = Done b.
Proof.
  destruct c as [a|e]; simpl; split.
  - intros Hf. by exists a.
  - by intros (a' & [= ->] & Hf).
  - done.
  - by intros (a' & [=] & _).
Qed.

Lemma plain_Done {A} (c : result A) (a : A) : plain c = Done a ↔ c = Ok a.
Proof. destruct c; simpl; split; congruence. Qed.

Lemma size_list_to_set_le `{Countable A} (l : list A) :
  size (list_to_set (C := gset A) l) ≤ length l.
Proof.
  induction l as [|x l IH]; simpl.
  { change (size (∅ : gset A) ≤ 0). by rewrite size_empty. }
  rewrite size_union_alt, size_singleton.
  pose proof (subseteq_size (list_to_set l ∖ {[x]})
                            (list_to_set (C := gset A) l)) as Hd.
  assert (list_to_set l ∖ {[x]} ⊆ (list_to_set l : gset A)) as Hsub by set_solver.
  specialize (Hd Hsub). lia.
Qed.

Section NodesFacts.
Context `{Countable Node}.
Implicit Types (connections : list (@row Node)).

Lemma nodes_empty connections :
  nodes_from_connections_table connections = ∅ ↔ connections = [].
Proof.
  split; [|by intros ->].
  destruct connections as [|r l]; [done|]. intros Hempty. exfalso.
  assert (r0 r ∈ nodes_from_connections_table (r :: l)) as Hin.
  { apply elem_of_nodes. exists r. split; [left|auto]. }
  rewrite Hempty in Hin. by apply not_elem_of_empty in Hin.
Qed.

Lemma nodes_size connections :
  size (nodes_from_connections_table connections) ≤ 2 * length connections.
Proof.
  unfold nodes_from_connections_table. rewrite size_union_alt.
  pose proof (subseteq_size
                (list_to_set (r1 <$> connections)
                 ∖ list_to_set (r0 <$> connections))
                (list_to_set (C := gset Node) (r1 <$> connections))) as Hd.
  pose proof (size_list_to_set_le (r0 <$> connections)) as H0'.
  pose proof (size_list_to_set_le (r1 <$> connections)) as H1'.
  rewrite length_fmap in H0', H1'.
  assert (list_to_set (r1 <$> connections) ∖ list_to_set (r0 <$> connections)
          ⊆ (list_to_set (r1 <$> connections) : gset Node)) as Hsub
    by set_solver.
  specialize (Hd Hsub). lia.
Qed.

(** The longest list of a dictionary of row lists. *)
Lemma longest_list (m : gmap Node (list (@row Node))) (U : gset Node)
    (F : Node → list (@row Node)) :
  dom m = U → U ≠ ∅ →
  (∀ k rows, m !! k = Some rows → rows = F k) →
  ∃ mx, py_max ((λ s, Z.of_nat (length s)) <$> (map_to_list m).*2) = Ok mx ∧
        (∀ k, k ∈ U → (Z.of_nat (length (F k)) ≤ mx)%Z) ∧
        ∃ k, k ∈ U ∧ mx = Z.of_nat (length (F k)).
Proof.
  intros Hdom HU HF.
  set (l := (λ s, Z.of_nat (length s)) <$> (map_to_list m).*2).
  assert (∀ x, x ∈ l ↔ ∃ k, k ∈ U ∧ x = Z.of_nat (length (F k))) as Hl.
  { intros x. unfold l. rewrite list_elem_of_fmap. split.
    - intros (s & -> & ([k s'] & -> & Hks%elem_of_map_to_list)%list_elem_of_fmap).
      simpl. exists k. split; [rewrite <-Hdom; by apply elem_of_dom_2 in Hks|].
      by rewrite (HF k s' Hks).
    - intros (k & Hk & ->). rewrite <-Hdom in Hk.
      apply elem_of_dom in Hk as [s Hs]. exists s.
      split; [by rewrite (HF k s Hs)|].
      apply list_elem_of_fmap. exists (k, s). split; [done|].
      by apply elem_of_map_to_list. }
  destruct (py_max_spec l) as (mx & Hmx & Hin & Hmax).
  { apply set_choose_L in HU as [k Hk]. intros Hnil.
    assert (Z.of_nat (length (F k)) ∈ l) as Hx by (apply Hl; eauto).
    rewrite Hnil in Hx. by apply elem_of_nil in Hx. }
  exists mx. split; [done|]. split.
  - intros k Hk. apply Hmax, Hl. eauto.
  - by apply Hl.
Qed.
End NodesFacts.

Section ReportingFacts.
Context `{Runtime} `{Countable Node}.
Implicit Types (connections : list (@row Node)).

(** The reports never change the state of the loop. *)
Lemma main_loop_verbose_Done (verbosity : Z) (N : nat) (T : Z) :
  ∀ fuel st next_report st',
    main_loop_verbose fuel verbosity N T st next_report = Done st' →
    main_loop fuel N st = Ok st'.
Proof.
  induction fuel as [|fuel IH]; intros st nr st' Hrun; simpl in *.
  - case_decide; [done|]. by injection Hrun as <-.
  - case_decide; [|by injection Hrun as <-].
    apply bind_Done in Hrun as (nr' & _ & Hrun).
    apply bind_Done in Hrun as (st1 & Hst1%plain_Done & Hrun).
    rewrite Hst1. simpl. by apply (IH st1 nr').
Qed.

(** Up to [verbosity] 1 there is no progress report. *)
Lemma main_loop_verbose_quiet (verbosity : Z) (N : nat) (T : Z) :
  (verbosity ≤ 1)%Z →
  ∀ fuel st next_report,
    main_loop_verbose fuel verbosity N T st next_report
    = plain (main_loop fuel N st).
Proof.
  intros Hv. induction fuel as [|fuel IH]; intros st nr; simpl.
  - by case_decide.
  - case_decide; [|done]. unfold progress_report.
    rewrite decide_False by lia. simpl.
    destruct (loop_body st) as [st1|e]; simpl; [apply IH|done].
Qed.
End ReportingFacts.

(** ** Weights of type [float] *)

(** The accounting of the program on the weights 0.9 and 0.2 of an
    anti-parallel pair.  The resolver adds the smaller weight to the
    feedback total and leaves [0.9 - 0.2] on the other edge (lines 100-102);
    when the loop later charges that edge (line 221) the total is
    [0 + 0.2 + (0.9 - 0.2)], which in binary64 is less than the weight
    [0 + 0.9] that the finalizer sums up for the backward row (line 236). *)
Remark float_accounting_inexact :
  let w12 := float_ratio 9 10 in
  let w21 := float_ratio 2 10 in
  let zero := float_ratio 0 1 in
  SFcompare (float_add (float_add zero w21) (float_sub w12 w21))
            (float_add zero w12) = Some Lt.
Proof. vm_compute. reflexivity. Qed.

(** ** Assertions on and off *)

Lemma foldM_Ok_mono {A B} (f g : B → A → result B) (l : list A) :
  (∀ b x b', f b x = Ok b' → g b x = Ok b') →
  ∀ b b', foldM f b l = Ok b' → foldM g b l = Ok b'.
Proof.
  intros Hfg. induction l as [|x l IH]; intros b b' Hrun; simpl in *; [done|].
  apply bind_Ok in Hrun as (b1 & Hb1 & Hrun).
  rewrite (Hfg _ _ _ Hb1). simpl. by apply IH.
Qed.

Section Release.
Variable R : Runtime.
Context `{Countable Node}.

Local Abbreviation Rd := (with_debug R true).
Local Abbreviation Rr := (with_debug R false).

(** An assertion that passes can be left out. *)
Lemma py_assert_release {A} (c : result bool) (k : unit → result A) (a : A) :
  py_assert (H := Rd) c ≫= k = Ok a → py_assert (H := Rr) c ≫= k = Ok a.
Proof.
  intros (u & _ & Hk)%bind_Ok. destruct u. done.
Qed.

Lemma resolve_pair_release st p st' :
  resolve_pair (H := Rd) st p = Ok st' → resolve_pair (H := Rr) st p = Ok st'.
Proof.
  destruct st as [[i o] fb], p as [n1 n2]. unfold resolve_pair.
  intros (w12 & -> & Hrun)%bind_Ok. simpl.
  apply bind_Ok in Hrun as (u1 & _ & Hrun).
  apply bind_Ok in Hrun as (w21 & -> & Hrun). simpl.
  apply bind_Ok in Hrun as (u2 & _ & Hrun).
  exact Hrun.
Qed.

Lemma resolve_anti_parallel_release (i o : adj) r :
  resolve_anti_parallel (H := Rd) i o = Ok r →
  resolve_anti_parallel (H := Rr) i o = Ok r.
Proof.
  unfold resolve_anti_parallel.
  intros (apl & -> & Hrun)%bind_Ok. simpl.
  apply (foldM_Ok_mono (resolve_pair (H := Rd))); [|done].
  apply resolve_pair_release.
Qed.

Lemma build_release (g0 : @rng R) (connections : list (@row Node))
    (random_seed : Z) (b : built (H := Rd) (Node := Node)) :
  build (H := Rd) g0 connections random_seed = Ok b →
  build (H := Rr) g0 connections random_seed = Ok (released R b).
Proof.
  unfold build.
  intros ([ir or] & -> & Hrun)%bind_Ok. simpl in *.
  destruct (rng_shuffle (Runtime := R) _ (rng_seed random_seed) connections)
    as [cs g1] eqn:Hcs.
  destruct (rng_shuffle (Runtime := R) _ g1
              (set_iter (Runtime := R) _ _ _ (dom ir)))
    as [ids g2] eqn:Hids.
  apply bind_Ok in Hrun as (id & -> & Hrun). simpl.
  apply bind_Ok in Hrun as (od & -> & Hrun). simpl.
  apply bind_Ok in Hrun as (u & _ & Hrun).
  injection Hrun as <-.
  assert (check_built (H := Rr) id od = Ok tt) as ->; [|done].
  unfold check_built, py_assert. simpl.
  rewrite (foldM_unit _ (adj_items id)); simpl.
  - apply foldM_unit. by intros [[nd ind] w] _.
  - by intros [[nd ind] w] _.
Qed.

Lemma initial_state_release (b : built (H := Rd) (Node := Node)) st :
  initial_state (H := Rd) b = Ok st →
  initial_state (H := Rr) (released R b) = Ok st.
Proof.
  unfold initial_state, released.
  cbn [b_nodes_compacted b_input_dict b_output_dict].
  intros ([[i o] fb] & Hres%resolve_anti_parallel_release & Hrun)%bind_Ok.
  simpl. rewrite Hres. simpl.
  apply bind_Ok in Hrun as (u & _ & Hrun).
  rewrite (check_resolved_release (H := Rr)) by done. exact Hrun.
Qed.

Lemma main_loop_release fuel N st :
  main_loop (H := Rr) fuel N st = main_loop (H := Rd) fuel N st.
Proof. reflexivity. Qed.

Lemma finalize_release (b : built (H := Rd) (Node := Node)) st o :
  finalize (H := Rd) b st = Ok o →
  ∃ o', finalize (H := Rr) (released R b) st = Ok o' ∧ res o' = res o ∧
        final_feedback_val o' = final_feedback_val o.
Proof.
  unfold finalize, released.
  cbn [b_nodes_compacted b_connections b_rng].
  intros (l & -> & Hrun)%bind_Ok. simpl.
  apply bind_Ok in Hrun as (fs & -> & Hrun). simpl.
  apply bind_Ok in Hrun as (u & _ & Hrun). injection Hrun as <-.
  eexists. split; [done|]. done.
Qed.
End Release.

(** ** The balance of feedback and weight in every state *)

Section Balance.
Context `{Runtime} `{Countable Node}.
Implicit Types (connections : list (@row Node)).

(** A round never lowers the feedback total of a graph without negative
    weights. *)
Lemma round_of_feedback N st st' n :
  loop_inv N st → nonneg (output_dict st) → round_of st st' n →
  (feedback_val st ≤ feedback_val st')%Z.
Proof.
  intros [Hg _ _] Hnn
    [(_ & _ & _ & _ & ->)
    |[(_ & _ & _ & _ & _ & ->)
     |(_ & _ & d & ins & _ & _ & Hins & _ & _ & ->)]]; [lia..|].
  enough (0 ≤ sum_values ins)%Z by lia.
  apply (nonneg_sum_values (input_dict st) n); [|done].
  intros a b w. rewrite <-(g_sym _ _ _ Hg). apply Hnn.
Qed.

Lemma state_after_bound (k : nat) (g0 : rng) connections (random_seed : Z) st :
  valid_input connections → no_self_loop connections →
  state_after k g0 connections random_seed = Ok st →
  ∃ b, build g0 connections random_seed = Ok b ∧ built_ok connections b ∧
       run_inv (size (b_nodes_compacted b)) (wf (b_output_dict b)) st ∧
       bound_inv (size (b_nodes_compacted b)) (total_edge_weight connections) st.
Proof.
  intros Hv Hno Hst. unfold state_after in Hst.
  destruct (build_spec g0 connections random_seed) as (b & Hbuild & Hb).
  rewrite Hbuild in Hst. simpl in Hst.
  exists b. split; [done|]. split; [done|].
  set (N := size (b_nodes_compacted b)) in *.
  destruct (initial_state_bound connections b Hb Hv Hno)
    as (st0 & Hst0 & _ & Hinv0 & Hbound0).
  rewrite Hst0 in Hst. simpl in Hst. fold N in Hinv0, Hbound0.
  apply (iterate_loop_keeps
           (λ st, run_inv N (wf (b_output_dict b)) st ∧
                  bound_inv N (total_edge_weight connections) st) N)
    with (k := k) (st := st0); [|done|done].
  intros st1 st2 [(Hinv & Hirr & Hfb) Hbd] Hbody.
  assert (placed st1 < N) as Hlt.
  { pose proof (placed_remaining N st1 Hinv) as Hsize.
    destruct (loop_body_invariant N st1 st2 Hinv Hbody) as (_ & n & Hn & _).
    assert (size (remaining st1) ≠ 0); [|lia].
    intros Hz%size_empty_inv. apply leibniz_equiv in Hz.
    rewrite Hz in Hn. by apply not_elem_of_empty in Hn. }
  destruct (loop_body_spec N st1 Hinv Hirr Hlt)
    as (n & st2' & Hrun & Hn & Hin & Hout & Hround & Hinv').
  assert (st2' = st2) as -> by congruence.
  split.
  - split; [done|]. split.
    + rewrite Hout. by apply irreflexive_remove_node.
    + by apply (fb_inv_step N _ st1 st2 n).
  - by apply (bound_inv_step N _ st1 st2 n).
Qed.
End Balance.

(** ** The enumeration order of the node set *)

Section Enumeration.
Variable R : Runtime.
Context `{Countable Node}.
Variables (e1 e2 : enumeration).
Hypothesis (He1 : enumerates e1) (He2 : enumerates e2).

Local Abbreviation R1 := (with_order R e1 He1).
Local Abbreviation R2 := (with_order R e2 He2).

(** The builder consults the enumeration at the node set only, and the
    state of the generator at call time not at all. *)
Lemma build_reordered (g1 g2 : @rng R) (connections : list (@row Node))
    (random_seed : Z) :
  e1 Node _ _ (nodes_from_connections_table connections)
  = e2 Node _ _ (nodes_from_connections_table connections) →
  ∃ b, build (H := R1) g1 connections random_seed = Ok b ∧
       build (H := R2) g2 connections random_seed
       = Ok (reordered R e1 e2 He1 He2 b).
Proof.
  intros He.
  destruct (build_spec (H := R1) g1 connections random_seed) as (b & Hb & _).
  exists b. split; [done|]. revert Hb. unfold build, seed_generator.
  destruct (adjacency_lists_spec connections)
    as (ir & or & -> & Hdi & _). simpl.
  destruct (rng_shuffle (Runtime := R) _ (rng_seed random_seed) connections)
    as [cs g] eqn:Hcs.
  change (set_iter (Runtime := R1) _ _ _ (dom ir)) with (e1 Node _ _ (dom ir)).
  change (set_iter (Runtime := R2) _ _ _ (dom ir)) with (e2 Node _ _ (dom ir)).
  rewrite Hdi, He.
  destruct (rng_shuffle (Runtime := R) _ g
              (e2 Node _ _ (nodes_from_connections_table connections)))
    as [ids g'] eqn:Hids.
  intros (id & -> & Hrun)%bind_Ok. simpl.
  apply bind_Ok in Hrun as (od & -> & Hrun). simpl.
  apply bind_Ok in Hrun as ([] & Hchk & Hrun). injection Hrun as <-.
  change (check_built (H := R2) id od) with (check_built (H := R1) id od).
  by rewrite Hchk.
Qed.

Lemma initial_state_reordered (b : built (H := R1) (Node := Node)) :
  initial_state (H := R2) (reordered R e1 e2 He1 He2 b)
  = initial_state (H := R1) b.
Proof. reflexivity. Qed.

Lemma main_loop_reordered fuel N st :
  main_loop (H := R2) fuel N st = main_loop (H := R1) fuel N st.
Proof. reflexivity. Qed.

Lemma finalize_reordered (b : built (H := R1) (Node := Node)) st :
  (o ← finalize (H := R2) (reordered R e1 e2 He1 He2 b) st;
   Ok (res o, final_feedback_val o))
  = (o ← finalize (H := R1) b st; Ok (res o, final_feedback_val o)).
Proof.
  unfold finalize, reordered.
  cbn [b_nodes_compacted b_connections b_rng].
  destruct (mapM_result _ _) as [l|]; [|done]. simpl.
  destruct (filterM_result _ _) as [fs|]; [|done]. simpl.
  change (py_assert (H := R2)) with (py_assert (H := R1)).
  by destruct (py_assert _) as [[]|].
Qed.

(** Two runs that enumerate the node set alike end alike. *)
Lemma compute_order_run_reordered (g1 g2 : @rng R)
    (connections : list (@row Node)) (random_seed : Z) :
  e1 Node _ _ (nodes_from_connections_table connections)
  = e2 Node _ _ (nodes_from_connections_table connections) →
  (o ← compute_order_run (H := R2) g2 connections random_seed;
   Ok (res o, final_feedback_val o))
  = (o ← compute_order_run (H := R1) g1 connections random_seed;
     Ok (res o, final_feedback_val o)).
Proof.
  intros He.
  destruct (build_reordered g1 g2 connections random_seed He)
    as (b & Hb1 & Hb2).
  unfold compute_order_run. rewrite Hb1, Hb2. simpl.
  rewrite initial_state_reordered.
  destruct (initial_state (H := R1) b) as [st0|]; [|done]. simpl.
  change (b_nodes_compacted (reordered R e1 e2 He1 He2 b))
    with (b_nodes_compacted b).
  rewrite main_loop_reordered.
  destruct (main_loop (H := R1) _ _ st0) as [st|]; [|done]. simpl.
  apply finalize_reordered.
Qed.
End Enumeration.

(** * The claims of the specification *)

(** ** C1 *)

(** C1.  The claim fails on the valid input [[(A, A, 5)]]: whatever the
    runtime, the seed and the state of the generator, [compute_order]
    returns no list for it.  The sanity check of line 115 raises
    [AssertionError]; under [python -O] the main loop raises [KeyError]. *)
Theorem C1_self_loop_input_fails `{Runtime} (g0 : rng) (random_seed : Z) :
  valid_input self_loop5 ∧
  compute_order g0 self_loop5 random_seed
  = Raise (if py_debug then AssertionError else KeyError).
Proof.
  split; [by_evaluation|].
  assert (¬ no_self_loop self_loop5) as Hno by by_evaluation.
  unfold compute_order.
  by rewrite (compute_order_run_self_loop g0 self_loop5 random_seed Hno).
Qed.

(** ** C2 *)

(** C2 (as amended).  Whenever [compute_order] returns, what it returns is
    the list [res] of the run and nothing else: an ordered sequence in which
    every node identifier of the input occurs exactly once.  The feedback
    total is not part of the result. *)
Theorem C2_result_is_the_order `{Runtime} `{Countable Node}
    (g0 : rng) (connections : list (@row Node)) (random_seed : Z)
    (l : list Node) :
  compute_order g0 connections random_seed = Ok l →
  (∃ o, compute_order_run g0 connections random_seed = Ok o ∧ res o = l) ∧
  NoDup l ∧
  l ≡ₚ elements (nodes_from_connections_table connections).
Proof.
  unfold compute_order. intros Hrun.
  destruct (decide (no_self_loop connections)) as [Hno|Hno].
  - destruct (compute_order_run_spec g0 connections random_seed Hno)
      as (o & Ho & Hperm & _).
    rewrite Ho in Hrun. simpl in Hrun. injection Hrun as <-.
    split; [by exists o|]. split; [|done].
    rewrite Hperm. apply NoDup_elements.
  - by rewrite (compute_order_run_self_loop g0 connections random_seed Hno)
      in Hrun.
Qed.

Lemma C2_witness :
  compute_order (H := plain_runtime true) tt pair53 0 = Ok [nA; nB] ∧
  NoDup [nA; nB] ∧
  [nA; nB] ≡ₚ elements (nodes_from_connections_table pair53).
Proof.
  assert (compute_order (H := plain_runtime true) tt pair53 0 = Ok [nA; nB])
    as Hrun by (vm_compute; reflexivity).
  split; [exact Hrun|].
  exact (proj2 (C2_result_is_the_order (H := plain_runtime true)
                  tt pair53 0 [nA; nB] Hrun)).
Defined.

(** C2 as stated fails: two inputs for which [compute_order] returns the
    same value although the feedback totals of the two runs differ; the
    total is thus not among what is returned. *)
Lemma C2_counterexample :
  compute_order (H := plain_runtime true) tt pair53 0 = Ok [nA; nB] ∧
  compute_order (H := plain_runtime true) tt edge2 0 = Ok [nA; nB] ∧
  tracked_feedback
    (compute_order_run (H := plain_runtime true) tt pair53 0) = Some 3%Z ∧
  tracked_feedback
    (compute_order_run (H := plain_runtime true) tt edge2 0) = Some 0%Z.
Proof. repeat split; vm_compute; reflexivity. Qed.

(** ** C4 *)

(** C4 (as amended).  The resolver never raises on the graph the builder
    produces.  It visits every unordered pair with edges in both directions
    once, and adds to the feedback total the smaller of the two weights.
    For such a pair with weights w1 ≤ w2, exactly one direction remains,
    with weight w2 − w1: the heavier one when w1 < w2, and when w1 = w2 the
    one from the smaller to the larger compacted id, as an entry of weight
    0. *)
Theorem C4_resolution `{Runtime} `{Countable Node}
    (g0 : rng) (connections : list (@row Node)) (random_seed : Z) :
  ∃ b apl input_dict' output_dict',
    build g0 connections random_seed = Ok b ∧
    find_anti_parallel (b_input_dict b) = Ok apl ∧
    resolve_anti_parallel (b_input_dict b) (b_output_dict b)
    = Ok (input_dict', output_dict',
          sumZ (λ p, Z.min (wf (b_output_dict b) p.1 p.2)
                           (wf (b_output_dict b) p.2 p.1)) apl) ∧
    NoDup apl ∧
    (∀ n1 n2, (n1, n2) ∈ apl ↔
              n2 < n1 ∧ is_Some (edge_w (b_output_dict b) n1 n2) ∧
              is_Some (edge_w (b_output_dict b) n2 n1)) ∧
    symmetric input_dict' output_dict' ∧
    ∀ u v w1 w2,
      u ≠ v →
      edge_w (b_output_dict b) u v = Some w1 →
      edge_w (b_output_dict b) v u = Some w2 →
      (w1 ≤ w2)%Z →
      Z.min (wf (b_output_dict b) u v) (wf (b_output_dict b) v u) = w1 ∧
      ((w1 < w2)%Z →
       edge_w output_dict' u v = None ∧
       edge_w output_dict' v u = Some (w2 - w1)%Z) ∧
      (w1 = w2 →
       edge_w output_dict' (u `max` v) (u `min` v) = None ∧
       edge_w output_dict' (u `min` v) (u `max` v) = Some 0%Z).
Proof.
  destruct (build_spec g0 connections random_seed) as (b & Hbuild & Hb).
  pose proof (built_graph_ok _ _ Hb) as Hg.
  destruct (resolve_anti_parallel_spec _ _ _ Hg)
    as (apl & i1 & o1 & Hfind & Hrun & Hnd & Hapl & Hg1 & Ho1 & _).
  exists b, apl, i1, o1. split_and!; try done; [apply Hg1|].
  intros u v w1 w2 Hne Huv Hvu Hle. split_and!.
  - unfold wf. rewrite Huv, Hvu. simpl. lia.
  - intros Hlt. rewrite !Ho1. unfold resolved. rewrite Huv, Hvu.
    rewrite !decide_False by done. unfold net.
    repeat case_decide; try lia; done.
  - intros ->. rewrite !Ho1. unfold resolved.
    assert (edge_w (b_output_dict b) (u `max` v) (u `min` v) = Some w2 ∧
            edge_w (b_output_dict b) (u `min` v) (u `max` v) = Some w2)
      as [-> ->].
    { destruct (Nat.max_spec u v) as [[? ->]|[? ->]];
        destruct (Nat.min_spec u v) as [[? ->]|[? ->]]; try lia; done. }
    rewrite !decide_False by lia. unfold net.
    repeat case_decide; try lia. split; [done|]. f_equal. lia.
Qed.

Lemma C4_witness :
  ∃ (b : built (H := plain_runtime true) (Node := string))
    apl input_dict' output_dict',
    build (H := plain_runtime true) tt pair53 0 = Ok b ∧
    find_anti_parallel (b_input_dict b) = Ok apl ∧
    resolve_anti_parallel (H := plain_runtime true)
      (b_input_dict b) (b_output_dict b)
    = Ok (input_dict', output_dict',
          sumZ (λ p, Z.min (wf (b_output_dict b) p.1 p.2)
                           (wf (b_output_dict b) p.2 p.1)) apl) ∧
    NoDup apl ∧ symmetric input_dict' output_dict'.
Proof.
  destruct (C4_resolution (H := plain_runtime true) tt pair53 0)
    as (b & apl & i1 & o1 & Hb & Hfind & Hrun & Hnd & _ & Hsym & _).
  exists b, apl, i1, o1. repeat split; assumption.
Defined.

(** C4 as stated fails: for the pair of equal weights [[(A, B, 5),
    (B, A, 5)]] an edge remains after resolution, with weight 0. *)
Lemma C4_counterexample :
  ∃ st, state_after (H := plain_runtime true) 0 tt pair55 0 = Ok st ∧
        edge_w (output_dict st) 0 1 = Some 0%Z ∧
        edge_w (input_dict st) 1 0 = Some 0%Z.
Proof. eexists. repeat split; vm_compute; reflexivity. Qed.

(** ** C5 *)

(** C5.  For every valid input whose directed graph is acyclic, the final
    feedback total is 0 and the returned order is a topological order: the
    source of every row precedes its target. *)
Theorem C5_acyclic_topological `{Runtime} `{Countable Node}
    (g0 : rng) (connections : list (@row Node)) (random_seed : Z) :
  valid_input connections → acyclic connections →
  ∃ o, compute_order_run g0 connections random_seed = Ok o ∧
       compute_order g0 connections random_seed = Ok (res o) ∧
       final_feedback_val o = 0%Z ∧
       ∀ r, r ∈ connections →
            position (res o) (r0 r) < position (res o) (r1 r).
Proof.
  intros _ Hacyc.
  destruct (compute_order_run_acyclic g0 connections random_seed Hacyc)
    as (o & Hrun & _ & Hzero & Htopo).
  exists o. unfold compute_order. by rewrite Hrun.
Qed.

Lemma C5_witness :
  valid_input dag3 ∧ acyclic dag3 ∧
  ∃ o, compute_order_run (H := plain_runtime true) tt dag3 0 = Ok o ∧
       compute_order (H := plain_runtime true) tt dag3 0 = Ok (res o) ∧
       final_feedback_val o = 0%Z ∧
       ∀ r, r ∈ dag3 → position (res o) (r0 r) < position (res o) (r1 r).
Proof.
  assert (valid_input dag3) as Hv by by_evaluation.
  assert (acyclic dag3) as Ha.
  { apply (ranked_acyclic dag3 id). by_evaluation. }
  split; [exact Hv|]. split; [exact Ha|].
  exact (C5_acyclic_topological (H := plain_runtime true) tt dag3 0 Hv Ha).
Defined.

(** ** C6 *)



(** ** C7 *)

(** C7.  The adjacency maps are symmetric -- the outgoing map of [a] has [b]
    with weight [w] iff the incoming map of [b] has [a] with weight [w] --
    after graph construction, after anti-parallel resolution, and in every
    state of the main loop, that is, after each node removal. *)
Theorem C7_adjacency_symmetry `{Runtime} `{Countable Node}
    (g0 : rng) (connections : list (@row Node)) (random_seed : Z) :
  ∃ b input_dict' output_dict' feedback_val',
    build g0 connections random_seed = Ok b ∧
    symmetric (b_input_dict b) (b_output_dict b) ∧
    resolve_anti_parallel (b_input_dict b) (b_output_dict b)
    = Ok (input_dict', output_dict', feedback_val') ∧
    symmetric input_dict' output_dict' ∧
    ∀ k st, state_after k g0 connections random_seed = Ok st →
            symmetric (input_dict st) (output_dict st).
Proof.
  destruct (build_spec g0 connections random_seed) as (b & Hbuild & Hb).
  pose proof (built_graph_ok _ _ Hb) as Hg.
  destruct (resolve_anti_parallel_spec _ _ _ Hg)
    as (apl & i1 & o1 & _ & Hrun & _ & _ & Hg1 & _).
  exists b, i1, o1. eexists. split; [done|]. split; [apply Hg|].
  split; [exact Hrun|]. split; [apply Hg1|].
  intros k st Hst.
  destruct (state_after_inv k g0 connections random_seed st Hst)
    as (b' & _ & _ & Hinv & _).
  apply Hinv.
Qed.

Lemma C7_witness :
  ∃ st, state_after (H := plain_runtime true) 2 tt cycle3 0 = Ok st ∧
        symmetric (input_dict st) (output_dict st).
Proof.
  eexists. split; [vm_compute; reflexivity|].
  destruct (C7_adjacency_symmetry (H := plain_runtime true) tt cycle3 0)
    as (b & i1 & o1 & fb & _ & _ & _ & _ & Hloop).
  apply (Hloop 2). vm_compute. reflexivity.
Defined.

(** ** C8 *)




(** ** C9 *)




(** ** C10 *)

(** C10 (as amended).  No input with a self-loop row yields an order.  With
    assertions on, the second sanity check raises [AssertionError] before
    the main loop starts, so that no state of the loop is reached and
    [update_removed_node] never runs; with assertions off, the main loop
    raises [KeyError]. *)
Theorem C10_self_loop_raises `{Runtime} `{Countable Node}
    (g0 : rng) (connections : list (@row Node)) (random_seed : Z) :
  ¬ no_self_loop connections →
  compute_order g0 connections random_seed
  = Raise (if py_debug then AssertionError else KeyError) ∧
  (py_debug = true →
   ∀ k, state_after k g0 connections random_seed = Raise AssertionError).
Proof.
  intros Hno. split.
  - unfold compute_order.
    by rewrite (compute_order_run_self_loop g0 connections random_seed Hno).
  - intros Hdbg k. unfold state_after.
    destruct (build_spec g0 connections random_seed) as (b & -> & Hb). simpl.
    by rewrite (initial_state_self_loop _ _ Hb Hdbg Hno).
Qed.

Lemma C10_witness :
  ¬ no_self_loop self_loop5 ∧
  compute_order (H := plain_runtime false) tt self_loop5 0 = Raise KeyError.
Proof.
  assert (¬ no_self_loop self_loop5) as Hn by by_evaluation.
  split; [exact Hn|].
  exact (proj1 (C10_self_loop_raises (H := plain_runtime false)
                  tt self_loop5 0 Hn)).
Defined.

(** C10 as stated fails: on [[(A, A, 5)]] what is raised is the
    [AssertionError] of the second sanity check; the main loop does not
    start, and nothing is removed from any bucket. *)
Lemma C10_counterexample :
  compute_order (H := plain_runtime true) tt self_loop5 0 = Raise AssertionError ∧
  ∀ k, state_after (H := plain_runtime true) k tt self_loop5 0
       = Raise AssertionError.
Proof. split; [|intros k]; vm_compute; reflexivity. Qed.

(** * Further properties of the code *)

(** ** The order and its feedback *)

(** X1.  With [int] weights: for every input without a negative weight and
    without self-loop rows, the feedback total [compute_order] ends with --
    the weight of the rows that point backwards in the returned order -- is
    not negative and at most half of [total_edge_weight], the weight of all
    rows. *)
Theorem X1_feedback_at_most_half `{Runtime} `{Countable Node}
    (g0 : rng) (connections : list (@row Node)) (random_seed : Z) :
  valid_input connections → no_self_loop connections →
  ∃ o, compute_order_run g0 connections random_seed = Ok o ∧
       final_feedback_val o = backward_total (res o) connections ∧
       (0 ≤ final_feedback_val o)%Z ∧
       (2 * final_feedback_val o ≤ total_edge_weight connections)%Z.
Proof.
  intros Hv Hno.
  destruct (compute_order_run_bound g0 connections random_seed Hv Hno)
    as (o & Hrun & _ & _ & Htotal & Hpos & Hle).
  by exists o.
Qed.

Lemma X1_witness :
  valid_input cycle3 ∧ no_self_loop cycle3 ∧
  ∃ o, compute_order_run (H := plain_runtime true) tt cycle3 0 = Ok o ∧
       final_feedback_val o = backward_total (res o) cycle3 ∧
       (0 ≤ final_feedback_val o)%Z ∧
       (2 * final_feedback_val o ≤ total_edge_weight cycle3)%Z.
Proof.
  assert (valid_input cycle3) as Hv by by_evaluation.
  assert (no_self_loop cycle3) as Hn by by_evaluation.
  split; [exact Hv|]. split; [exact Hn|].
  exact (X1_feedback_at_most_half (H := plain_runtime true) tt cycle3 0 Hv Hn).
Defined.

(** X2.  In every state the main loop reaches with nodes left and neither
    sinks nor sources among them, [max(buckets.keys() - {'sinks',
    'sources'})] of line 217 does not raise, and the largest delta is not
    negative: a node popped from that bucket has at most as much incoming as
    outgoing weight.  This holds for every input, negative weights
    included. *)
Theorem X2_largest_delta_not_negative `{Runtime} `{Countable Node}
    (k : nat) (g0 : rng) (connections : list (@row Node)) (random_seed : Z)
    (st : state) :
  state_after k g0 connections random_seed = Ok st →
  remaining st ≠ ∅ →
  bucket_nonempty (buckets st) Sinks = false →
  bucket_nonempty (buckets st) Sources = false →
  ∃ max_delta,
    py_max (numeric_keys (buckets st)) = Ok max_delta ∧
    (0 ≤ max_delta)%Z ∧
    (∃ n, in_bucket (buckets st) (Delta max_delta) n) ∧
    ∀ n, in_bucket (buckets st) (Delta max_delta) n →
         ∃ ins outs, input_dict st !! n = Some ins ∧
                     output_dict st !! n = Some outs ∧
                     max_delta = (sum_values outs - sum_values ins)%Z ∧
                     (sum_values ins ≤ sum_values outs)%Z.
Proof.
  intros Hst Hrem Hsinks Hsources.
  destruct (state_after_inv k g0 connections random_seed st Hst)
    as (b & _ & _ & Hinv & _).
  pose proof Hinv as [Hg Hbk Hp].
  pose proof (bk_nonempty _ _ _ _ Hbk) as Hne.
  pose proof (bk_member _ _ _ _ Hbk) as Hmem.
  apply set_choose_L in Hrem as Hn0. destruct Hn0 as [n0 Hn0].
  assert (∃ d0, in_bucket (buckets st) (Delta d0) n0) as [d0 Hd0].
  { destruct (compute_bucket_key_for_node (input_dict st) (output_dict st) n0)
      as [| |d0] eqn:Hk.
    - exfalso. apply (bucket_nonempty_false _ Sinks n0 Hne Hsinks). by apply Hmem.
    - exfalso. apply (bucket_nonempty_false _ Sources n0 Hne Hsources).
      by apply Hmem.
    - exists d0. by apply Hmem. }
  destruct (py_max_spec (numeric_keys (buckets st)))
    as (max_delta & Hmaxrun & Hmaxin & Hmax).
  { intros Hnil. destruct Hd0 as (s & Hs & _).
    assert (d0 ∈ numeric_keys (buckets st)) as Hin
      by (apply elem_of_numeric_keys; eauto).
    rewrite Hnil in Hin. by apply elem_of_nil in Hin. }
  assert (0 ≤ max_delta)%Z as Hpos.
  { apply (max_delta_nonneg _ st max_delta Hinv Hrem Hsinks Hsources).
    intros d x (s & Hs & _). apply Hmax, elem_of_numeric_keys. eauto. }
  exists max_delta. split; [done|]. split; [done|]. split.
  - apply elem_of_numeric_keys in Hmaxin as [s Hs].
    assert (s ≠ ∅) as [n Hn]%set_choose_L by (by apply Hne with (Delta max_delta)).
    exists n, s. done.
  - intros n [_ Hkey]%Hmem.
    apply bucket_key_Delta in Hkey as (ins & outs & Hins & Houts & _ & _ & Hd).
    exists ins, outs. split_and!; try done. lia.
Qed.

Lemma X2_witness :
  ∃ st, state_after (H := plain_runtime true) 0 tt cycle3 0 = Ok st ∧
        ∃ max_delta,
          py_max (numeric_keys (buckets st)) = Ok max_delta ∧
          (0 ≤ max_delta)%Z.
Proof.
  assert (∃ st, state_after (H := plain_runtime true) 0 tt cycle3 0 = Ok st ∧
                remaining st ≠ ∅ ∧
                bucket_nonempty (buckets st) Sinks = false ∧
                bucket_nonempty (buckets st) Sources = false)
    as (st & Hst & Hrem & Hsinks & Hsources).
  { eexists. split; [vm_compute; reflexivity|]. split; [by_evaluation|].
    split; vm_compute; reflexivity. }
  destruct (X2_largest_delta_not_negative (H := plain_runtime true)
              0 tt cycle3 0 st Hst Hrem Hsinks Hsources)
    as (max_delta & Hmax & Hpos & _).
  exists st. split; [exact Hst|]. exists max_delta. split; [exact Hmax|exact Hpos].
Defined.

(** X3.  For every input without self-loop rows, a row whose target is the
    source of no row (a sink of the input), and a row whose source is the
    target of no row (a source of the input), points forward in the
    returned order: such rows never count for the feedback. *)
Theorem X3_rows_at_sinks_and_sources_point_forward `{Runtime} `{Countable Node}
    (g0 : rng) (connections : list (@row Node)) (random_seed : Z) :
  no_self_loop connections →
  ∃ l, compute_order g0 connections random_seed = Ok l ∧
       ∀ r, r ∈ connections →
            (∀ r', r' ∈ connections → r0 r' ≠ r1 r) ∨
            (∀ r', r' ∈ connections → r1 r' ≠ r0 r) →
            position l (r0 r) < position l (r1 r).
Proof.
  intros Hno.
  destruct (compute_order_run_pinned g0 connections random_seed Hno)
    as (o & Hrun & _ & Hforward).
  exists (res o). unfold compute_order. rewrite Hrun. done.
Qed.

Lemma X3_witness :
  no_self_loop cycle_tail ∧
  ∃ l, compute_order (H := plain_runtime true) tt cycle_tail 0 = Ok l ∧
       ∀ r, r ∈ cycle_tail →
            (∀ r', r' ∈ cycle_tail → r0 r' ≠ r1 r) ∨
            (∀ r', r' ∈ cycle_tail → r1 r' ≠ r0 r) →
            position l (r0 r) < position l (r1 r).
Proof.
  assert (no_self_loop cycle_tail) as Hn by by_evaluation.
  split; [exact Hn|].
  exact (X3_rows_at_sinks_and_sources_point_forward (H := plain_runtime true)
           tt cycle_tail 0 Hn).
Defined.

(** ** The main loop *)

(** X4.  On an input without self-loop rows every round of the main loop
    places exactly one node: after [k] rounds, [k] nodes are placed (all
    [N] of them once [k] reaches [N], where the loop ends), and the placed
    nodes together with the nodes still in the graph are the compacted ids
    [0 .. N-1], each once. *)
Theorem X4_one_node_per_round `{Runtime} `{Countable Node}
    (k : nat) (g0 : rng) (connections : list (@row Node)) (random_seed : Z) :
  no_self_loop connections →
  ∃ st, state_after k g0 connections random_seed = Ok st ∧
        placed st = k `min` size (nodes_from_connections_table connections) ∧
        size (remaining st)
        = size (nodes_from_connections_table connections) - k ∧
        left_list st ++ right_list st ++ elements (remaining st)
        ≡ₚ seq 0 (size (nodes_from_connections_table connections)).
Proof.
  intros Hno.
  destruct (state_after_placed k g0 connections random_seed Hno)
    as (b & st & _ & Hb & Hst & Hinv & Hp).
  rewrite (built_size _ _ Hb) in Hinv, Hp.
  pose proof (placed_remaining _ _ Hinv) as Hsize.
  exists st. split_and!; [done|done|lia|apply Hinv].
Qed.

Lemma X4_witness :
  no_self_loop cycle3 ∧
  ∃ st, state_after (H := plain_runtime true) 2 tt cycle3 0 = Ok st ∧
        placed st = 2 `min` size (nodes_from_connections_table cycle3) ∧
        size (remaining st) = size (nodes_from_connections_table cycle3) - 2 ∧
        left_list st ++ right_list st ++ elements (remaining st)
        ≡ₚ seq 0 (size (nodes_from_connections_table cycle3)).
Proof.
  assert (no_self_loop cycle3) as Hn by by_evaluation.
  split; [exact Hn|].
  exact (X4_one_node_per_round (H := plain_runtime true) 2 tt cycle3 0 Hn).
Defined.

(** X5.  In every state the main loop reaches, the buckets partition the
    nodes still in the graph by their current key: a node is a member of
    the bucket under [key] exactly when it is in the graph and
    [compute_bucket_key_for_node] gives [key] for it; no bucket is empty;
    and [node_to_bucket_key] holds the current key of every such node.
    [update_removed_node] re-buckets every neighbour whose key changed. *)
Theorem X5_buckets_partition_by_key `{Runtime} `{Countable Node}
    (k : nat) (g0 : rng) (connections : list (@row Node)) (random_seed : Z)
    (st : state) :
  state_after k g0 connections random_seed = Ok st →
  no_empty_bucket (buckets st) ∧
  (∀ key n, in_bucket (buckets st) key n ↔
            n ∈ remaining st ∧
            compute_bucket_key_for_node (input_dict st) (output_dict st) n = key) ∧
  (∀ n, n ∈ remaining st →
        node_to_bucket_key st !! n
        = Some (compute_bucket_key_for_node (input_dict st) (output_dict st) n)).
Proof.
  intros Hst.
  destruct (state_after_inv k g0 connections random_seed st Hst)
    as (b & _ & _ & [_ [Hne Hmem Hidx] _] & _).
  done.
Qed.

Lemma X5_witness :
  ∃ st, state_after (H := plain_runtime true) 1 tt cycle_tail 0 = Ok st ∧
        no_empty_bucket (buckets st) ∧
        ∀ n, n ∈ remaining st →
             node_to_bucket_key st !! n
             = Some (compute_bucket_key_for_node
                       (input_dict st) (output_dict st) n).
Proof.
  assert (∃ st, state_after (H := plain_runtime true) 1 tt cycle_tail 0 = Ok st)
    as [st Hst] by (eexists; vm_compute; reflexivity).
  destruct (X5_buckets_partition_by_key (H := plain_runtime true)
              1 tt cycle_tail 0 st Hst) as (Hne & _ & Hidx).
  exists st. split; [exact Hst|]. split; [exact Hne|exact Hidx].
Defined.

(** X6.  The rounds of the main loop change the graph by removing nodes
    only: in every state the loop reaches, both adjacency maps are those
    the loop started with, restricted to the nodes that are not placed yet.
    No weight changes and no entry between two remaining nodes is lost. *)
Theorem X6_rounds_only_remove_nodes `{Runtime} `{Countable Node}
    (k : nat) (g0 : rng) (connections : list (@row Node)) (random_seed : Z)
    (st0 st : state) :
  state_after 0 g0 connections random_seed = Ok st0 →
  state_after k g0 connections random_seed = Ok st →
  remaining st ⊆ remaining st0 ∧
  dom (input_dict st) = remaining st ∧
  (∀ a b, edge_w (output_dict st) a b
          = if decide (a ∈ remaining st ∧ b ∈ remaining st)
            then edge_w (output_dict st0) a b else None) ∧
  (∀ a b, edge_w (input_dict st) a b
          = if decide (a ∈ remaining st ∧ b ∈ remaining st)
            then edge_w (input_dict st0) a b else None).
Proof.
  intros Hst0 Hst.
  destruct (state_after_restricts k g0 connections random_seed st st0 Hst0 Hst)
    as [Hsub Hres].
  destruct (state_after_inv k g0 connections random_seed st Hst)
    as (b & _ & _ & [Hg _ _] & _).
  destruct (state_after_inv 0 g0 connections random_seed st0 Hst0)
    as (b0 & _ & _ & [Hg0 _ _] & _).
  split_and!; [done|apply Hg|done|].
  intros a z. rewrite <-(g_sym _ _ _ Hg), <-(g_sym _ _ _ Hg0), Hres.
  repeat case_decide; naive_solver.
Qed.

Lemma X6_witness :
  ∃ st0 st,
    state_after (H := plain_runtime true) 0 tt cycle_tail 0 = Ok st0 ∧
    state_after (H := plain_runtime true) 2 tt cycle_tail 0 = Ok st ∧
    remaining st ⊆ remaining st0 ∧
    ∀ a b, edge_w (output_dict st) a b
           = if decide (a ∈ remaining st ∧ b ∈ remaining st)
             then edge_w (output_dict st0) a b else None.
Proof.
  assert (∃ st0, state_after (H := plain_runtime true) 0 tt cycle_tail 0 = Ok st0)
    as [st0 Hst0] by (eexists; vm_compute; reflexivity).
  assert (∃ st, state_after (H := plain_runtime true) 2 tt cycle_tail 0 = Ok st)
    as [st Hst] by (eexists; vm_compute; reflexivity).
  destruct (X6_rounds_only_remove_nodes (H := plain_runtime true)
              2 tt cycle_tail 0 st0 st Hst0 Hst) as (Hsub & _ & Hout & _).
  exists st0, st. split; [exact Hst0|]. split; [exact Hst|].
  split; [exact Hsub|exact Hout].
Defined.

(** ** The graph builder *)

(** X7.  For every input the builder (lines 37-75) ends normally -- the
    sanity checks of lines 70-75 never fail -- and [nodes_compacted] maps
    the node universe one-to-one onto [0 .. N-1], the keys of both
    adjacency maps; the shuffled copy of the rows is a permutation of the
    input. *)
Theorem X7_compacted_ids_are_a_bijection `{Runtime} `{Countable Node}
    (g0 : rng) (connections : list (@row Node)) (random_seed : Z) :
  ∃ b, build g0 connections random_seed = Ok b ∧
       b_connections b ≡ₚ connections ∧
       dom (b_nodes_compacted b) = nodes_from_connections_table connections ∧
       (∀ u v i, b_nodes_compacted b !! u = Some i →
                 b_nodes_compacted b !! v = Some i → u = v) ∧
       (∀ i, i < size (nodes_from_connections_table connections) ↔
             ∃ u, b_nodes_compacted b !! u = Some i) ∧
       dom (b_input_dict b)
       = set_seq 0 (size (nodes_from_connections_table connections)) ∧
       dom (b_output_dict b)
       = set_seq 0 (size (nodes_from_connections_table connections)).
Proof.
  destruct (build_spec g0 connections random_seed) as (b & Hbuild & Hb).
  exists b. rewrite <-(built_size _ _ Hb). split_and!; try done; apply Hb.
Qed.

(** X8.  In the graph as built, parallel rows are merged: there is an entry
    from the compacted id of [u] to that of [v] exactly when some row leads
    from [u] to [v], its weight is the sum of the weights of all these rows,
    and the incoming map holds the same entry the other way round. *)
Theorem X8_parallel_rows_are_summed `{Runtime} `{Countable Node}
    (g0 : rng) (connections : list (@row Node)) (random_seed : Z) :
  ∃ b, build g0 connections random_seed = Ok b ∧
       ∀ u v i j,
         b_nodes_compacted b !! u = Some i →
         b_nodes_compacted b !! v = Some j →
         (is_Some (edge_w (b_output_dict b) i j) ↔
          ∃ r, r ∈ connections ∧ r0 r = u ∧ r1 r = v) ∧
         default 0%Z (edge_w (b_output_dict b) i j)
         = sumZ (λ r, if decide (r0 r = u ∧ r1 r = v) then r2 r else 0%Z)
                connections ∧
         edge_w (b_input_dict b) j i = edge_w (b_output_dict b) i j.
Proof.
  destruct (build_spec g0 connections random_seed) as (b & Hbuild & Hb).
  exists b. split; [done|]. intros u v i j Hu Hv.
  rewrite (bo_out _ _ Hb u v i j Hu Hv). split_and!.
  - apply merged_is_Some.
  - apply sumZ_merged.
  - by rewrite <-(bo_sym _ _ Hb), (bo_out _ _ Hb u v i j Hu Hv).
Qed.

Lemma X8_witness :
  ∃ b, build (H := plain_runtime true) tt pair53 0 = Ok b ∧
       default 0%Z (edge_w (b_output_dict b) 0 1) = 5%Z.
Proof.
  destruct (X8_parallel_rows_are_summed (H := plain_runtime true) tt pair53 0)
    as (b & Hbuild & Hsum).
  exists b. split; [exact Hbuild|].
  assert (b_nodes_compacted b !! nA = Some 0 ∧ b_nodes_compacted b !! nB = Some 1)
    as [HA HB].
  { assert (Ok b = build (H := plain_runtime true) tt pair53 0) as Heq by done.
    vm_compute in Heq. injection Heq as ->. split; vm_compute; reflexivity. }
  destruct (Hsum nA nB 0 1 HA HB) as (_ & -> & _). vm_compute. reflexivity.
Defined.

(** X9.  [adjacency_lists] never raises.  Both dictionaries it returns have
    the node universe as their keys; under a node, [input_lists] holds the
    rows that end in it and [output_lists] the rows that start from it, in
    the order of the table. *)
Theorem X9_adjacency_lists_group_the_rows `{Countable Node}
    (connections_table : list (@row Node)) :
  ∃ input_lists output_lists,
    adjacency_lists connections_table = Ok (input_lists, output_lists) ∧
    ∀ n,
      input_lists !! n
      = (if decide (n ∈ nodes_from_connections_table connections_table)
         then Some (filter (λ r, r1 r = n) connections_table) else None) ∧
      output_lists !! n
      = (if decide (n ∈ nodes_from_connections_table connections_table)
         then Some (filter (λ r, r0 r = n) connections_table) else None).
Proof.
  destruct (adjacency_lists_spec connections_table)
    as (il & ol & Hrun & Hdi & Hdo & Hin & Hout).
  exists il, ol. split; [done|]. intros n.
  case_decide as Hn.
  - split.
    + destruct (il !! n) as [rows|] eqn:Hrows.
      * by rewrite (Hin n rows Hrows).
      * apply not_elem_of_dom in Hrows. by rewrite Hdi in Hrows.
    + destruct (ol !! n) as [rows|] eqn:Hrows.
      * by rewrite (Hout n rows Hrows).
      * apply not_elem_of_dom in Hrows. by rewrite Hdo in Hrows.
  - split; apply not_elem_of_dom; congruence.
Qed.

(** X10.  [adjacency_lists] with [verbosity] set: on the empty table the
    report raises [ValueError] ([max] of an empty list); on any other table
    the call returns what it returns without a report, and the report gives
    the number of nodes and the largest number of rows that start from, and
    that end in, one node. *)
Theorem X10_adjacency_lists_report `{Countable Node}
    (connections_table : list (@row Node)) (verbosity : Z) :
  verbosity ≠ 0%Z →
  (connections_table = [] ∧
   adjacency_lists_verbose connections_table verbosity = Raise ValueError)
  ∨
  (connections_table ≠ [] ∧
   ∃ input_lists output_lists max_out max_in,
     adjacency_lists connections_table = Ok (input_lists, output_lists) ∧
     adjacency_lists_verbose connections_table verbosity
     = Ok (Some (size (nodes_from_connections_table connections_table),
                 max_out, max_in),
           (input_lists, output_lists)) ∧
     (∀ k, k ∈ nodes_from_connections_table connections_table →
        (Z.of_nat (length (filter (λ r, r0 r = k) connections_table)) ≤ max_out)%Z ∧
        (Z.of_nat (length (filter (λ r, r1 r = k) connections_table)) ≤ max_in)%Z) ∧
     (∃ k, k ∈ nodes_from_connections_table connections_table ∧
           max_out = Z.of_nat (length (filter (λ r, r0 r = k) connections_table))) ∧
     (∃ k, k ∈ nodes_from_connections_table connections_table ∧
           max_in = Z.of_nat (length (filter (λ r, r1 r = k) connections_table)))).
Proof.
  intros Hv. unfold adjacency_lists_verbose.
  destruct (adjacency_lists_spec connections_table)
    as (il & ol & Hrun & Hdi & Hdo & Hin & Hout).
  rewrite Hrun. simpl. rewrite decide_True by done.
  destruct connections_table as [|r t].
  - left. split; [done|]. unfold adjacency_report.
    apply dom_empty_inv_L in Hdo. rewrite Hdo, map_to_list_empty. done.
  - right. split; [done|].
    assert (nodes_from_connections_table (r :: t) ≠ ∅) as HU
      by (by rewrite nodes_empty).
    destruct (longest_list ol _ (λ k, filter (λ r, r0 r = k) (r :: t)) Hdo HU Hout)
      as (mo & Hmo & Hmo_max & Hmo_in).
    destruct (longest_list il _ (λ k, filter (λ r, r1 r = k) (r :: t)) Hdi HU Hin)
      as (mi & Hmi & Hmi_max & Hmi_in).
    exists il, ol, mo, mi. split; [done|]. unfold adjacency_report.
    rewrite Hmo. simpl. rewrite Hmi. simpl. split; [done|].
    split; [|done]. intros k Hk. split; [by apply Hmo_max|by apply Hmi_max].
Qed.

Lemma X10_witness :
  adjacency_lists_verbose no_rows 1 = Raise ValueError.
Proof.
  assert ((1 ≠ 0)%Z) as Hv by done.
  destruct (X10_adjacency_lists_report no_rows 1 Hv)
    as [[_ Hraise]|[Hne _]].
  - exact Hraise.
  - exfalso. apply Hne. reflexivity.
Defined.

(** X11.  [compact_dict(rows, nidx)]: when the endpoint [r[nidx]] of every
    row is a key of [nodes_compacted], the result has an entry for a
    compacted id exactly when some row has an endpoint with that id, and the
    entry is the sum of the weights of these rows; when the endpoint of some
    row is no key, the call raises [KeyError]. *)
Theorem X11_compact_dict_sums_weights `{Countable Node}
    (nodes_compacted : gmap Node nat) (rows : list (@row Node))
    (nidx : row → Node) :
  (Forall (λ r, is_Some (nodes_compacted !! nidx r)) rows ∧
   ∃ cd, compact_dict nodes_compacted rows nidx = Ok cd ∧
         ∀ j, (is_Some (cd !! j) ↔
               ∃ r, r ∈ rows ∧ nodes_compacted !! nidx r = Some j) ∧
              default 0%Z (cd !! j)
              = sumZ (λ r, if decide (nodes_compacted !! nidx r = Some j)
                           then r2 r else 0%Z) rows)
  ∨
  (Exists (λ r, nodes_compacted !! nidx r = None) rows ∧
   compact_dict nodes_compacted rows nidx = Raise KeyError).
Proof.
  destruct (decide (Forall (λ r, is_Some (nodes_compacted !! nidx r)) rows))
    as [Hall|Hex].
  - left. split; [done|].
    destruct (compact_dict_spec nodes_compacted rows nidx) as (cd & Hrun & Hcd).
    { intros r Hr. apply elem_of_dom. rewrite Forall_forall in Hall.
      by apply Hall. }
    exists cd. split; [done|]. intros j. rewrite Hcd. split.
    + apply merged_is_Some.
    + apply sumZ_merged.
  - right. apply not_Forall_Exists in Hex; [|apply _].
    assert (Exists (λ r, nodes_compacted !! nidx r = None) rows) as Hnone.
    { eapply Exists_impl; [exact Hex|]. simpl. intros r Hr.
      by apply eq_None_not_Some. }
    split; [done|]. unfold compact_dict. generalize (∅ : gmap nat Z).
    clear Hex. induction Hnone as [r l Hr|r l Hl IH]; intros cd; simpl.
    + by rewrite (getitem_None _ _ Hr).
    + destruct (nodes_compacted !! nidx r) as [cn|] eqn:Hcn.
      * rewrite (getitem_Some _ _ _ Hcn). simpl. apply IH.
      * by rewrite (getitem_None _ _ Hcn).
Qed.

(** X12.  [nodes_from_connections_table]: a node is in the set exactly when
    it is the source or the target of some row; the set is empty for the
    empty table only, and has at most two members per row. *)
Theorem X12_nodes_are_the_endpoints `{Countable Node}
    (connections_table : list (@row Node)) :
  (∀ u, u ∈ nodes_from_connections_table connections_table ↔
        ∃ r, r ∈ connections_table ∧ (r0 r = u ∨ r1 r = u)) ∧
  (nodes_from_connections_table connections_table = ∅ ↔ connections_table = []) ∧
  size (nodes_from_connections_table connections_table)
  ≤ 2 * length connections_table.
Proof.
  split_and!.
  - apply elem_of_nodes.
  - apply nodes_empty.
  - apply nodes_size.
Qed.

(** ** The bucket index *)

(** X13.  Inserting a node into the bucket of a key and removing it again
    gives back the index as it was, whether the bucket existed or not --
    provided the node was not in that bucket and the index held no empty
    bucket under the key. *)
Theorem X13_insert_then_remove (buckets : bucket_map) (node : nat)
    (key : bucket_key) :
  node ∉ default ∅ (buckets !! key) →
  buckets !! key ≠ Some ∅ →
  remove_from_bucket (insert_to_bucket buckets node key) node key = Ok buckets.
Proof.
  intros Hnode Hne. unfold insert_to_bucket, remove_from_bucket.
  destruct (buckets !! key) as [s|] eqn:Hs; simpl in Hnode.
  - rewrite (getitem_Some _ _ (s ∪ {[node]})) by apply lookup_insert_eq.
    simpl. rewrite decide_True by set_solver.
    assert ((s ∪ {[node]}) ∖ {[node]} = s) as -> by set_solver.
    unfold drop_if_empty. rewrite decide_False by congruence.
    by rewrite insert_insert_eq, insert_id.
  - rewrite (getitem_Some _ _ {[node]}) by apply lookup_insert_eq.
    simpl. rewrite decide_True by set_solver.
    assert (({[node]} : gset nat) ∖ {[node]} = ∅) as -> by set_solver.
    unfold drop_if_empty. rewrite decide_True by done.
    by rewrite delete_insert_eq, delete_id.
Qed.

Lemma X13_witness :
  remove_from_bucket (insert_to_bucket some_buckets 7 Sources) 7 Sources
  = Ok some_buckets ∧
  remove_from_bucket (insert_to_bucket some_buckets 7 Sinks) 7 Sinks
  = Ok some_buckets.
Proof.
  split.
  - apply (X13_insert_then_remove some_buckets 7 Sources); by_evaluation.
  - apply (X13_insert_then_remove some_buckets 7 Sinks); by_evaluation.
Defined.

(** X14.  [remove_from_bucket(node, key)] raises [KeyError] exactly when the
    node is not in the bucket of that key (no such bucket, or no such
    member).  Otherwise it takes just this node out of just this bucket,
    deletes the bucket if that leaves it empty -- an index without empty
    buckets stays one -- and inserting the node again restores the
    index. *)
Theorem X14_remove_from_bucket (buckets : bucket_map) (node : nat)
    (key : bucket_key) :
  (in_bucket buckets key node ∧
   ∃ buckets',
     remove_from_bucket buckets node key = Ok buckets' ∧
     (∀ k n, in_bucket buckets' k n ↔
             in_bucket buckets k n ∧ ¬ (k = key ∧ n = node)) ∧
     buckets' !! key ≠ Some ∅ ∧
     (no_empty_bucket buckets → no_empty_bucket buckets') ∧
     insert_to_bucket buckets' node key = buckets)
  ∨
  (¬ in_bucket buckets key node ∧
   remove_from_bucket buckets node key = Raise KeyError).
Proof.
  unfold remove_from_bucket.
  destruct (buckets !! key) as [s|] eqn:Hs.
  2: { right. rewrite (getitem_None _ _ Hs). split; [|done].
       intros (s & Hs' & _). congruence. }
  rewrite (getitem_Some _ _ _ Hs). simpl.
  destruct (decide (node ∈ s)) as [Hin|Hnin].
  2: { right. split; [|done]. intros (s' & Hs' & ?). congruence. }
  left. split; [by exists s|]. eexists. split; [done|]. split_and!.
  - intros k n. rewrite drop_if_empty_member.
    unfold in_bucket. destruct (decide (k = key)) as [->|Hk].
    + rewrite Hs. split.
      * intros [Hn Hne]%elem_of_difference. split; [eauto|].
        intros [_ ->]. set_solver.
      * intros [(s' & [= <-] & Hn) Hne]. set_solver.
    + naive_solver.
  - unfold drop_if_empty. case_decide as He.
    + by rewrite lookup_delete_eq.
    + rewrite lookup_insert_eq. congruence.
  - apply drop_if_empty_nonempty.
  - unfold drop_if_empty, insert_to_bucket. case_decide as He.
    + rewrite lookup_delete_eq, insert_delete_eq.
      assert (s = {[node]}) as Heq.
      { apply set_eq. intros x. rewrite elem_of_singleton. split.
        - intros Hx. destruct (decide (x = node)) as [|Hne]; [done|].
          assert (x ∈ s ∖ {[node]}) as Hx' by set_solver.
          rewrite He in Hx'. by apply not_elem_of_empty in Hx'.
        - by intros ->. }
      rewrite <-Heq. by apply insert_id.
    + rewrite lookup_insert_eq, insert_insert_eq.
      assert (s ∖ {[node]} ∪ {[node]} = s) as ->.
      { apply set_eq. intros x. rewrite elem_of_union, elem_of_difference,
          elem_of_singleton. destruct (decide (x = node)); naive_solver. }
      by apply insert_id.
Qed.

(** X15.  [pop_from_bucket(key)] on a bucket the loop found non-empty
    returns one of its members and leaves the index as
    [remove_from_bucket] of that member would, so that the member is no
    longer in the bucket; without a bucket under [key], or with an empty
    one, it raises [KeyError]. *)
Theorem X15_pop_is_remove_of_the_popped `{Runtime} (buckets : bucket_map)
    (key : bucket_key) :
  (bucket_nonempty buckets key = true →
   ∃ n buckets',
     pop_from_bucket buckets key = Ok (n, buckets') ∧
     in_bucket buckets key n ∧
     remove_from_bucket buckets n key = Ok buckets' ∧
     ¬ in_bucket buckets' key n) ∧
  (bucket_nonempty buckets key = false →
   pop_from_bucket buckets key = Raise KeyError).
Proof.
  unfold bucket_nonempty, pop_from_bucket, remove_from_bucket.
  destruct (buckets !! key) as [s|] eqn:Hs.
  2: { rewrite (getitem_None _ _ Hs). done. }
  rewrite (getitem_Some _ _ _ Hs). simpl. split.
  - intros Hne%bool_decide_eq_true.
    rewrite decide_False by done.
    pose proof (set_pop_elem s Hne) as Hpop.
    exists (set_pop s). eexists. split; [done|]. split; [by exists s|].
    rewrite decide_True by done. split; [done|].
    rewrite drop_if_empty_member, decide_True by done. set_solver.
  - intros Hempty%bool_decide_eq_false. apply dec_stable in Hempty.
    by rewrite decide_True.
Qed.

Lemma X15_witness :
  bucket_nonempty some_buckets Sinks = true ∧
  ∃ n buckets',
    pop_from_bucket (H := plain_runtime true) some_buckets Sinks
    = Ok (n, buckets') ∧
    remove_from_bucket some_buckets n Sinks = Ok buckets'.
Proof.
  assert (bucket_nonempty some_buckets Sinks = true) as Hne
    by (vm_compute; reflexivity).
  split; [exact Hne|].
  destruct (proj1 (X15_pop_is_remove_of_the_popped (H := plain_runtime true)
                     some_buckets Sinks) Hne)
    as (n & b' & Hpop & _ & Hrem & _).
  exists n, b'. split; [exact Hpop|exact Hrem].
Defined.

(** ** The resolver *)

(** X16.  With [int] weights: on an input without self-loop rows, when the
    main loop starts twice the feedback total and the weight left in the
    graph add up to [total_edge_weight]: what the anti-parallel resolver
    charges to the feedback total it has taken twice out of the graph.  If
    no weight of the input is negative, no weight of the resolved graph is,
    nor is the feedback total. *)
Theorem X16_resolver_keeps_the_balance `{Runtime} `{Countable Node}
    (g0 : rng) (connections : list (@row Node)) (random_seed : Z) :
  no_self_loop connections →
  ∃ st, state_after 0 g0 connections random_seed = Ok st ∧
        (2 * feedback_val st
         + total_weight (size (nodes_from_connections_table connections))
                        (output_dict st)
         = total_edge_weight connections)%Z ∧
        (valid_input connections →
         (0 ≤ feedback_val st)%Z ∧
         ∀ a b w, edge_w (output_dict st) a b = Some w → (0 ≤ w)%Z).
Proof.
  intros Hno. unfold state_after.
  destruct (build_spec g0 connections random_seed) as (b & -> & Hb). simpl.
  destruct (initial_state_total connections b Hb Hno)
    as (st & -> & _ & _ & Heq & Hnn).
  exists st. rewrite <-(built_size _ _ Hb). split; [done|]. split; [done|].
  intros Hv. destruct (Hnn Hv) as [Hnn' Hfb]. done.
Qed.

Lemma X16_witness :
  no_self_loop pair53 ∧
  ∃ st, state_after (H := plain_runtime true) 0 tt pair53 0 = Ok st ∧
        (2 * feedback_val st
         + total_weight (size (nodes_from_connections_table pair53))
                        (output_dict st)
         = total_edge_weight pair53)%Z.
Proof.
  assert (no_self_loop pair53) as Hn by by_evaluation.
  split; [exact Hn|].
  destruct (X16_resolver_keeps_the_balance (H := plain_runtime true)
              tt pair53 0 Hn) as (st & Hst & Heq & _).
  exists st. split; [exact Hst|exact Heq].
Defined.

(** ** The finalizer *)

(** X17.  On an input without self-loop rows the main loop ends after [N]
    rounds with an empty graph, and the list [compute_order] returns is
    [left_list] followed by the reversed [right_list], each compacted id
    translated back to the node it stands for: the nodes placed as sinks
    come last, the first one placed at the very end. *)
Theorem X17_order_is_left_then_reversed_right `{Runtime} `{Countable Node}
    (g0 : rng) (connections : list (@row Node)) (random_seed : Z) :
  no_self_loop connections →
  ∃ b st l,
    build g0 connections random_seed = Ok b ∧
    state_after (size (nodes_from_connections_table connections))
                g0 connections random_seed = Ok st ∧
    remaining st = ∅ ∧
    compute_order g0 connections random_seed = Ok l ∧
    Forall2 (λ i u, b_nodes_compacted b !! u = Some i)
            (left_list st ++ reverse (right_list st)) l.
Proof.
  intros Hno. unfold compute_order, compute_order_run, state_after.
  destruct (build_spec g0 connections random_seed) as (b & -> & Hb). simpl.
  rewrite <-(built_size _ _ Hb). set (N := size (b_nodes_compacted b)).
  destruct (initial_state_spec connections b Hb Hno)
    as (st0 & -> & Hp0 & Hinv0).
  simpl. fold N in Hinv0.
  destruct (main_loop_rule (run_inv N (wf (b_output_dict b))) N
              (run_inv_step N _) N st0 Hinv0)
    as (st1 & Hloop & (Hinv1 & _ & Hfb1) & Hend); [lia|].
  rewrite Hloop, (main_loop_iterate N N st0 st1 Hloop). simpl.
  pose proof (placed_remaining N st1 Hinv1) as Hsize.
  assert (remaining st1 = ∅) as Hempty.
  { apply leibniz_equiv, size_empty_inv. lia. }
  assert (left_list st1 ++ reverse (right_list st1) ≡ₚ seq 0 N) as Hperm.
  { rewrite <-(li_placed _ _ Hinv1), Hempty, elements_empty, app_nil_r.
    by rewrite reverse_Permutation. }
  assert (backward_weight (wf (b_output_dict b))
            (left_list st1 ++ reverse (right_list st1)) = feedback_val st1)
    as Hbw.
  { specialize (Hfb1 []). rewrite Hempty, elements_empty in Hfb1.
    simpl in Hfb1. rewrite Hfb1 by done. lia. }
  destruct (finalize_spec connections b st1 Hb Hperm Hbw)
    as (o & -> & _ & _ & _ & _ & Hall & _).
  exists b, st1, (res o). done.
Qed.

Lemma X17_witness :
  no_self_loop cycle_tail ∧
  ∃ st l,
    state_after (H := plain_runtime true)
      (size (nodes_from_connections_table cycle_tail)) tt cycle_tail 0 = Ok st ∧
    remaining st = ∅ ∧
    compute_order (H := plain_runtime true) tt cycle_tail 0 = Ok l.
Proof.
  assert (no_self_loop cycle_tail) as Hn by by_evaluation.
  split; [exact Hn|].
  destruct (X17_order_is_left_then_reversed_right (H := plain_runtime true)
              tt cycle_tail 0 Hn) as (b & st & l & _ & Hst & Hrem & Hrun & _).
  exists st, l. split; [exact Hst|]. split; [exact Hrem|exact Hrun].
Defined.

(** ** Reports *)

(** X18.  The reports do not change the result.  Whatever [verbosity] is,
    a call of [compute_order] that returns a list returns the list the call
    without reports returns (a report can only make the call raise); and
    with [verbosity] not positive nothing but the computation is evaluated:
    the call ends as the call without reports does. *)
Theorem X18_reports_do_not_change_the_order `{Runtime} `{Countable Node}
    (g0 : rng) (connections : list (@row Node)) (verbosity random_seed : Z) :
  (∀ l, compute_order_verbose g0 connections verbosity random_seed = Done l →
        compute_order g0 connections random_seed = Ok l) ∧
  ((verbosity ≤ 0)%Z →
   compute_order_verbose g0 connections verbosity random_seed
   = plain (compute_order g0 connections random_seed)).
Proof.
  unfold compute_order_verbose, compute_order, compute_order_run. split.
  - intros l Hrun.
    apply bind_Done in Hrun as (b & Hb%plain_Done & Hrun). rewrite Hb. simpl.
    apply bind_Done in Hrun as (st0 & Hst0%plain_Done & Hrun).
    rewrite Hst0. simpl.
    apply bind_Done in Hrun as (st1 & Hst1%main_loop_verbose_Done & Hrun).
    rewrite Hst1. simpl.
    apply bind_Done in Hrun as (o & Ho%plain_Done & Hrun). rewrite Ho. simpl.
    apply bind_Done in Hrun as (s & _ & Hrun). by injection Hrun as <-.
  - intros Hv.
    destruct (build g0 connections random_seed) as [b|e]; simpl; [|done].
    destruct (initial_state b) as [st0|e]; simpl; [|done].
    rewrite main_loop_verbose_quiet by lia.
    destruct (main_loop _ _ st0) as [st1|e]; simpl; [|done].
    destruct (finalize b st1) as [o|e]; simpl; [|done].
    by rewrite decide_False by lia.
Qed.

Lemma X18_witness :
  ∃ l, compute_order_verbose (H := plain_runtime true) tt cycle3 2 0 = Done l ∧
       compute_order (H := plain_runtime true) tt cycle3 0 = Ok l.
Proof.
  assert (∃ l, compute_order_verbose (H := plain_runtime true) tt cycle3 2 0
               = Done l) as [l Hl] by (eexists; vm_compute; reflexivity).
  exists l. split; [exact Hl|].
  exact (proj1 (X18_reports_do_not_change_the_order (H := plain_runtime true)
                  tt cycle3 2 0) l Hl).
Defined.

(** X19.  With reports on ([verbosity] > 0), [compute_order] returns
    nothing for a valid input without self-loop rows whose weights add up
    to 0 -- the empty input, or rows of weight 0 only: the last report
    divides by [total_edge_weight], and [percentage_str] raises
    [ZeroDivisionError].  With [verbosity] 1 this is the exception the call
    ends with. *)
Theorem X19_reports_fail_on_zero_weight `{Runtime} `{Countable Node}
    (g0 : rng) (connections : list (@row Node)) (verbosity random_seed : Z) :
  valid_input connections → no_self_loop connections →
  total_edge_weight connections = 0%Z → (0 < verbosity)%Z →
  (∃ e, compute_order_verbose g0 connections verbosity random_seed = Fail e) ∧
  (verbosity = 1%Z →
   compute_order_verbose g0 connections verbosity random_seed
   = Fail ZeroDivisionError).
Proof.
  intros Hvalid Hno Hzero Hv.
  destruct (compute_order_run_bound g0 connections random_seed Hvalid Hno)
    as (o & Hrun & _ & Hfsw & _ & Hpos & Hle).
  assert (fsw o = 0%Z) as Hfsw0 by lia.
  unfold compute_order_run in Hrun.
  apply bind_Ok in Hrun as (b & Hb & Hrun).
  apply bind_Ok in Hrun as (st0 & Hst0 & Hrun).
  apply bind_Ok in Hrun as (st1 & Hst1 & Ho).
  assert ((o' ← plain (finalize b st1);
           _ ← (if decide (verbosity > 0)%Z
                then percentage_str (fsw o') (total_edge_weight connections)
                else Done "");
           Done (res o')) = Fail ZeroDivisionError) as Hlast.
  { rewrite Ho. simpl. rewrite decide_True by lia.
    rewrite Hfsw0, Hzero. done. }
  unfold compute_order_verbose. rewrite Hb. simpl. rewrite Hst0. simpl.
  split.
  - destruct (main_loop_verbose _ verbosity _ _ st0 1) as [st|e] eqn:Hloop;
      simpl; [|by eexists].
    apply main_loop_verbose_Done in Hloop.
    assert (st = st1) as -> by congruence.
    rewrite Hlast. by eexists.
  - intros ->. rewrite main_loop_verbose_quiet by lia. rewrite Hst1. simpl.
    exact Hlast.
Qed.

Lemma X19_witness :
  compute_order_verbose (H := plain_runtime true) tt no_rows 1 0
  = Fail ZeroDivisionError ∧
  compute_order_verbose (H := plain_runtime true) tt zero_edge 1 0
  = Fail ZeroDivisionError.
Proof.
  split.
  - apply (X19_reports_fail_on_zero_weight (H := plain_runtime true)
             tt no_rows 1 0); [by_evaluation|by_evaluation|done|done|done].
  - apply (X19_reports_fail_on_zero_weight (H := plain_runtime true)
             tt zero_edge 1 0); [by_evaluation|by_evaluation|done|done|done].
Defined.

(** X20.  [percentage_str(part, 0)] returns no string for any [int]
    [part]: it raises [ZeroDivisionError], unless [part] is too large to be
    converted to a float, in which case [float(part)] has raised
    [OverflowError] before. *)
Theorem X20_percentage_of_nothing (part : Z) :
  percentage_str part 0 = Fail ZeroDivisionError ∨
  percentage_str part 0 = Fail OverflowError.
Proof.
  unfold percentage_str.
  destruct (float_of_int part) as [x|e] eqn:Hx; simpl.
  - by left.
  - right. unfold float_of_int in Hx.
    destruct (binary_normalize float_prec float_emax part 0 false);
      by simplify_eq.
Qed.

(** ** Invariants of a run on a valid input *)

(** X22.  With [int] weights: in every state the main loop reaches on an
    input without a negative weight and without self-loop rows, no weight of
    the graph is negative, the feedback total is not negative, and twice the
    feedback total plus the weight left in the graph is at most
    [total_edge_weight]; a round never lowers the feedback total. *)
Theorem X22_balance_in_every_state `{Runtime} `{Countable Node}
    (k : nat) (g0 : rng) (connections : list (@row Node)) (random_seed : Z)
    (st : state) :
  valid_input connections → no_self_loop connections →
  state_after k g0 connections random_seed = Ok st →
  (∀ a b w, edge_w (output_dict st) a b = Some w → (0 ≤ w)%Z) ∧
  (0 ≤ feedback_val st)%Z ∧
  (2 * feedback_val st
   + total_weight (size (nodes_from_connections_table connections))
                  (output_dict st)
   ≤ total_edge_weight connections)%Z ∧
  (∀ st', loop_body st = Ok st' → (feedback_val st ≤ feedback_val st')%Z).
Proof.
  intros Hv Hno Hst.
  destruct (state_after_bound k g0 connections random_seed st Hv Hno Hst)
    as (b & _ & Hb & (Hinv & _) & (Hnn & Hfb & Hle)).
  rewrite <-(built_size _ _ Hb). split_and!; try done.
  intros st' Hbody. destruct (loop_body_round st st' Hbody) as [n Hround].
  by apply (round_of_feedback _ st st' n Hinv).
Qed.

Lemma X22_witness :
  ∃ st, state_after (H := plain_runtime true) 1 tt cycle3 0 = Ok st ∧
        (0 ≤ feedback_val st)%Z ∧
        (2 * feedback_val st
         + total_weight (size (nodes_from_connections_table cycle3))
                        (output_dict st)
         ≤ total_edge_weight cycle3)%Z.
Proof.
  assert (valid_input cycle3) as Hv by by_evaluation.
  assert (no_self_loop cycle3) as Hn by by_evaluation.
  assert (∃ st, state_after (H := plain_runtime true) 1 tt cycle3 0 = Ok st)
    as [st Hst] by (eexists; vm_compute; reflexivity).
  destruct (X22_balance_in_every_state (H := plain_runtime true)
              1 tt cycle3 0 st Hv Hn Hst) as (_ & Hfb & Hle & _).
  exists st. split; [exact Hst|]. split; [exact Hfb|exact Hle].
Defined.

(** X23.  The dictionary [nodes_compacted_inverse] of the finalizer (line
    230) is the inverse of [nodes_compacted]: it maps a compacted id to a
    node exactly when [nodes_compacted] maps the node to the id, so that
    translating a node to its id and back gives the node, and it has an
    entry for each of the ids [0 .. N-1] and for nothing else. *)
Theorem X23_compaction_round_trip `{Runtime} `{Countable Node}
    (g0 : rng) (connections : list (@row Node)) (random_seed : Z) :
  ∃ b, build g0 connections random_seed = Ok b ∧
       (∀ i u,
          dict_of_list ((λ '(k, v), (v, k)) <$> map_to_list (b_nodes_compacted b))
            !! i = Some u
          ↔ b_nodes_compacted b !! u = Some i) ∧
       (∀ i,
          is_Some (dict_of_list ((λ '(k, v), (v, k))
                                   <$> map_to_list (b_nodes_compacted b)) !! i)
          ↔ i < size (nodes_from_connections_table connections)).
Proof.
  destruct (build_spec g0 connections random_seed) as (b & Hbuild & Hb).
  exists b. split; [done|].
  assert (∀ i u,
    dict_of_list ((λ '(k, v), (v, k)) <$> map_to_list (b_nodes_compacted b))
      !! i = Some u
    ↔ b_nodes_compacted b !! u = Some i) as Hinv.
  { intros i u. apply inverse_lookup. apply Hb. }
  split; [done|]. intros i.
  rewrite <-(built_size _ _ Hb), (bo_range _ _ Hb). unfold is_Some.
  split; intros [u Hu]; exists u; by apply Hinv.
Qed.

(** ** Assertions *)

(** X21.  The assertions of [compute_order] only check.  Whenever the call
    returns a list with assertions on ([python]), the same interpreter with
    assertions off ([python -O]) returns the same list. *)
Theorem X21_assertions_do_not_change_the_order (R : Runtime) `{Countable Node}
    (g0 : @rng R) (connections : list (@row Node)) (random_seed : Z)
    (l : list Node) :
  compute_order (H := with_debug R true) g0 connections random_seed = Ok l →
  compute_order (H := with_debug R false) g0 connections random_seed = Ok l.
Proof.
  unfold compute_order, compute_order_run.
  intros (o & Hrun & Hl)%bind_Ok. injection Hl as <-.
  apply bind_Ok in Hrun as (b & Hb%build_release & Hrun).
  apply bind_Ok in Hrun as (st0 & Hst0%initial_state_release & Hrun).
  apply bind_Ok in Hrun as (st1 & Hst1 & Ho%finalize_release).
  destruct Ho as (o' & Ho' & Hres & _).
  rewrite Hb. simpl. rewrite Hst0. simpl.
  change (b_nodes_compacted (released R b)) with (b_nodes_compacted b).
  rewrite main_loop_release, Hst1. simpl. rewrite Ho'. simpl. by rewrite Hres.
Qed.

Lemma X21_witness :
  compute_order (H := with_debug (plain_runtime true) true) tt cycle3 0
  = Ok [nB; nC; nA] ∧
  compute_order (H := with_debug (plain_runtime true) false) tt cycle3 0
  = Ok [nB; nC; nA].
Proof.
  assert (compute_order (H := with_debug (plain_runtime true) true) tt cycle3 0
          = Ok [nB; nC; nA]) as Hrun by (vm_compute; reflexivity).
  split; [exact Hrun|].
  exact (X21_assertions_do_not_change_the_order (plain_runtime true)
           tt cycle3 0 [nB; nC; nA] Hrun).
Defined.

(** X24.  With [int] weights: for every input without self-loop rows,
    whatever the signs of its weights, [compute_order] returns a list, and
    the list is a permutation of the node universe: every node identifier
    exactly once, and nothing else. *)
Theorem X24_integer_weights_give_an_order `{Runtime} `{Countable Node}
    (g0 : rng) (connections : list (@row Node)) (random_seed : Z) :
  no_self_loop connections →
  ∃ l, compute_order g0 connections random_seed = Ok l ∧
       NoDup l ∧
       l ≡ₚ elements (nodes_from_connections_table connections) ∧
       ∀ u, u ∈ l ↔ ∃ r, r ∈ connections ∧ (r0 r = u ∨ r1 r = u).
Proof.
  intros Hno.
  destruct (compute_order_run_spec g0 connections random_seed Hno)
    as (o & Hrun & Hperm & _).
  exists (res o). unfold compute_order. rewrite Hrun. split; [done|].
  split; [rewrite Hperm; apply NoDup_elements|]. split; [done|].
  intros u. by rewrite Hperm, elem_of_elements, elem_of_nodes.
Qed.

Lemma X24_witness :
  no_self_loop cycle3 ∧
  ∃ l, compute_order (H := plain_runtime true) tt cycle3 0 = Ok l ∧
       NoDup l ∧
       l ≡ₚ elements (nodes_from_connections_table cycle3) ∧
       ∀ u, u ∈ l ↔ ∃ r, r ∈ cycle3 ∧ (r0 r = u ∨ r1 r = u).
Proof.
  assert (no_self_loop cycle3) as Hn by by_evaluation.
  split; [exact Hn|].
  exact (X24_integer_weights_give_an_order (H := plain_runtime true)
           tt cycle3 0 Hn).
Defined.

(** X25.  With [int] weights: for every input without self-loop rows the
    run reaches the finalizer, the sum [fsw] it recomputes from the original
    rows equals the tracked feedback total exactly (the assertion of line
    237 passes), and this total is the sum of the weights of the rows
    [(u, v, w)] with position(v) ≤ position(u) in the returned order. *)
Theorem X25_integer_weights_feedback_identity `{Runtime} `{Countable Node}
    (g0 : rng) (connections : list (@row Node)) (random_seed : Z) :
  no_self_loop connections →
  ∃ o, compute_order_run g0 connections random_seed = Ok o ∧
       fsw o = final_feedback_val o ∧
       final_feedback_val o
       = sumZ (λ r, if decide (position (res o) (r1 r) ≤ position (res o) (r0 r))
                    then r2 r else 0%Z) connections.
Proof.
  intros Hno.
  destruct (compute_order_run_spec g0 connections random_seed Hno)
    as (o & Hrun & _ & Hfsw & Htotal).
  exists o. done.
Qed.

Lemma X25_witness :
  no_self_loop cycle3 ∧
  ∃ o, compute_order_run (H := plain_runtime true) tt cycle3 0 = Ok o ∧
       fsw o = final_feedback_val o ∧
       final_feedback_val o
       = sumZ (λ r, if decide (position (res o) (r1 r) ≤ position (res o) (r0 r))
                    then r2 r else 0%Z) cycle3.
Proof.
  assert (no_self_loop cycle3) as Hn by by_evaluation.
  split; [exact Hn|].
  exact (X25_integer_weights_feedback_identity (H := plain_runtime true)
           tt cycle3 0 Hn).
Defined.
